(** * Ant Colony Optimisation for the TSP: a shallow embedding of
    [final_submission.py] and the properties of its functions.

    Numbers.  The program computes with numpy [float64] values and Python
    integers.  Finite floating-point values are modelled by exact rationals
    ([Qc]): the rounding, overflow and underflow of binary64 are not
    modelled.  The IEEE special values that numpy produces instead of
    raising (division by zero gives [inf] or [nan] and a warning) are
    modelled by constructors of their own, because the control flow of the
    program depends on them.  Signed zeros are not distinguished; the sign
    of [x / 0] is the sign of [x].

    A float of the program can therefore differ from its model wherever a
    sum, a product or a quotient is not representable: the probabilities
    [P] and their cumulative sum [CP], the products under [round] in the
    average and in the number of elitist ants, the evaporated pheromones.
    A property that gives the value of a float (a cell of the heuristic or
    of the pheromone matrix) gives the exact value, which the float of the
    program approximates.  The properties of a path, of an iteration and of
    a run do not rest on such a value: they hold whichever vertex the
    comparison with the cumulative sum selects.  Whether the [while] loop
    of an ant ends depends on the rounding of [CP]: the properties of a
    returning run assume that it returns.

    Integers of the program are [Z]; the sum numpy takes over an [int64]
    array wraps around, which [wrap64] writes out.  Vertices, indices and
    the integer constants of the module ([K], [ITER], [ALPHA], [BETA]) are
    natural numbers: negative indices and negative constants are not
    modelled.

    Effects.  The pheromone matrix [T] is a global array mutated in place and
    the program draws from the process-wide generator of [random]; both live
    in a store that is threaded through a state-and-exception monad.  An
    exception leaves the store as it was when it was raised.  The [while]
    loop of the path construction has no bound in the source; the model gives
    it fuel and reports exhaustion as its own outcome.

    Documents.  [xml_decoder] starts from the root element of the parsed
    file: reading the file and parsing XML are not modelled, and Python's
    [int] and [float] on a string are parameters.  The column index that the
    decoder reads from the document is a Python integer, negative values
    included.  (The module imports [xml.etree.cElementTree], which Python
    has up to version 3.8.)

    The file has two parts: the embedding (numbers, arrays, the program, the
    vocabulary of the properties and the inputs of the examples), then the
    properties. *)

From Stdlib Require Import ZArith QArith Qcanon Qround Lia Lqa Sorted.
From stdpp Require Import base tactics option numbers list strings.

Local Open Scope Z_scope.
Local Open Scope Qc_scope.

(** ** Python's [round] *)

(** [round(x)] on a float: the nearest integer, a tie going to the even
    neighbour. *)
Definition py_round (q : Qc) : Z :=
  let f := Qfloor q in
  let r := q - Qc_of_Z f in
  if decide (r < Q2Qc (1 # 2)) then f
  else if decide (Q2Qc (1 # 2) < r) then (f + 1)%Z
  else if Z.even f then f else (f + 1)%Z.

(** [round(x, ndigits)]: numpy scales by [10^ndigits], rounds to the nearest
    integer (ties to even) and scales back. *)
Definition py_round_ndigits (q : Qc) (ndigits : nat) : Qc :=
  let scale := Qc_of_Z (10 ^ Z.of_nat ndigits) in
  Qc_of_Z (py_round (q * scale)) / scale.

(** ** Floating-point values *)

Inductive float : Type :=
  | Fin (q : Qc)
  | PInf
  | NInf
  | NaN.

Global Instance float_eq_dec : EqDecision float.
Proof. solve_decision. Defined.

Definition fzero : float := Fin 0.
Definition fone : float := Fin 1.

Definition fadd (x y : float) : float :=
  match x, y with
  | NaN, _ | _, NaN => NaN
  | Fin a, Fin b => Fin (a + b)
  | PInf, NInf | NInf, PInf => NaN
  | PInf, _ | _, PInf => PInf
  | NInf, _ | _, NInf => NInf
  end.

(** The sign of a finite value decides what an infinity times it is. *)
Definition inf_times (positive : bool) (q : Qc) : float :=
  if decide (q = 0) then NaN
  else if decide (0 < q) then (if positive then PInf else NInf)
  else (if positive then NInf else PInf).

Definition fmul (x y : float) : float :=
  match x, y with
  | NaN, _ | _, NaN => NaN
  | Fin a, Fin b => Fin (a * b)
  | PInf, Fin b | Fin b, PInf => inf_times true b
  | NInf, Fin b | Fin b, NInf => inf_times false b
  | PInf, PInf | NInf, NInf => PInf
  | PInf, NInf | NInf, PInf => NInf
  end.

Definition fdiv (x y : float) : float :=
  match x, y with
  | NaN, _ | _, NaN => NaN
  | Fin a, Fin b =>
      if decide (b = 0) then
        (if decide (a = 0) then NaN
         else if decide (0 < a) then PInf else NInf)
      else Fin (a / b)
  | Fin _, (PInf | NInf) => Fin 0
  | (PInf | NInf), (PInf | NInf) => NaN
  | PInf, Fin b => if decide (b < 0) then NInf else PInf
  | NInf, Fin b => if decide (b < 0) then PInf else NInf
  end.

(** [x ** n] for a non-negative integer exponent; [x ** 0] is [1] for every
    [x], [nan] included. *)
Fixpoint fpow (x : float) (n : nat) : float :=
  match n with
  | O => fone
  | S n' => fmul x (fpow x n')
  end.

(** [x >= y]: false as soon as one side is [nan]. *)
Definition fge (x y : float) : bool :=
  match x, y with
  | NaN, _ | _, NaN => false
  | Fin a, Fin b => bool_decide (b ≤ a)
  | PInf, _ => true
  | _, NInf => true
  | _, _ => false
  end.

(** [round(x, ndigits)] on a [float64]. *)
Definition fround (x : float) (ndigits : nat) : float :=
  match x with
  | Fin q => Fin (py_round_ndigits q ndigits)
  | other => other
  end.

(** [np.sum] of a vector. *)
Definition fsum (v : list float) : float := foldl fadd fzero v.

(** ** 64-bit integers *)

Definition wrap64 (z : Z) : Z := ((z + 2 ^ 63) mod 2 ^ 64 - 2 ^ 63)%Z.

(** ** Outcomes of a computation *)

Inductive exn : Type :=
  | ZeroDivisionError
  | IndexError
  | ValueError.

(** A computation returns, raises, or (the [while] loop only) is still
    running when its fuel is spent. *)
Inductive outcome (A : Type) : Type :=
  | Ret (a : A)
  | Raise (e : exn)
  | OutOfFuel.
Global Arguments Ret {A} a.
Global Arguments Raise {A} e.
Global Arguments OutOfFuel {A}.

Global Instance outcome_ret : MRet outcome := @Ret.
Global Instance outcome_bind : MBind outcome := λ A B f m,
  match m with
  | Ret a => f a
  | Raise e => Raise e
  | OutOfFuel => OutOfFuel
  end.

(** Indexing past the end raises [IndexError]. *)
Definition index {A} (o : option A) : outcome A :=
  match o with
  | Some a => Ret a
  | None => Raise IndexError
  end.

(** State and exceptions: an exception leaves the state as it was when it
    was raised, which is what in-place mutation does. *)
Definition M (S A : Type) : Type := S → outcome A * S.

Global Instance M_ret {S} : MRet (M S) := λ A a s, (Ret a, s).
Global Instance M_bind {S} : MBind (M S) := λ A B f m s,
  match m s with
  | (Ret a, s') => f a s'
  | (Raise e, s') => (Raise e, s')
  | (OutOfFuel, s') => (OutOfFuel, s')
  end.

Definition get {S} : M S S := λ s, (Ret s, s).
Definition modify {S} (f : S → S) : M S unit := λ s, (Ret (), f s).
Definition lift {S A} (o : outcome A) : M S A := λ s, (o, s).

(** [for x in l: body x] *)
Fixpoint for_each {S A} (l : list A) (body : A → M S unit) : M S unit :=
  match l with
  | [] => mret ()
  | x :: l' => body x ≫= λ _, for_each l' body
  end.

(** [for i in range(n): body i] *)
Definition for_range {S} (n : nat) (body : nat → M S unit) : M S unit :=
  for_each (seq 0 n) body.

(** ** Matrices *)

Abbreviation vector := (list float).
Abbreviation matrix := (list (list float)).

Definition mget {A} (m : list (list A)) (i j : nat) : option A :=
  m !! i ≫= λ row, row !! j.

(** [np.ones((n, m))] *)
Definition ones (n m : nat) : matrix := replicate n (replicate m fone).

(** [m[i][j] = x] *)
Definition mset (i j : nat) (x : float) : M matrix unit := λ m,
  match m !! i with
  | None => (Raise IndexError, m)
  | Some row =>
      if decide (j < length row)%nat
      then (Ret (), <[i := <[j := x]> row]> m)
      else (Raise IndexError, m)
  end.

(** [m[i][j] += x] *)
Definition madd (i j : nat) (x : float) : M matrix unit := λ m,
  match m !! i with
  | None => (Raise IndexError, m)
  | Some row =>
      match row !! j with
      | None => (Raise IndexError, m)
      | Some old => (Ret (), <[i := <[j := fadd old x]> row]> m)
      end
  end.

(** The array has [n] rows of [k] entries each. *)
Definition shaped {A} (n k : nat) (m : list (list A)) : Prop :=
  length m = n ∧ ∀ i row, m !! i = Some row → length row = k.

(** ** The constants of the module *)

(** The module-level tuning constants.  The source calls the heuristic
    constant [Q]; that name is the type of rationals here, so the field is
    [Qh]. *)
Record config : Type := {
  RHO : Qc;
  Qh : Qc;
  ALPHA : nat;
  BETA : nat;
  K : nat;
  ITER : nat;
  ELITIST : bool;
  ELITISTFACTOR : Qc
}.

(** The values in the source. *)
Definition source_config : config := {|
  RHO := Q2Qc (1 # 2);
  Qh := Qc_of_Z 5;
  ALPHA := 1;
  BETA := 3;
  K := 50;
  ITER := 200;
  ELITIST := false;
  ELITISTFACTOR := Q2Qc (1 # 5)
|}.

(** Run a computation for the state it leaves. *)
Definition exec {S A} (m : M S A) (s : S) : outcome S :=
  match m s with
  | (Ret _, s') => Ret s'
  | (Raise e, _) => Raise e
  | (OutOfFuel, _) => OutOfFuel
  end.

(** A [for] loop that carries local variables [b] from one round to the
    next. *)
Fixpoint for_fold {S A B} (l : list A) (body : A → B → M S B) (b : B)
    : M S B :=
  match l with
  | [] => mret b
  | x :: l' => body x b ≫= λ b', for_fold l' body b'
  end.

(** ** Python lists *)

(** [sum(l)] over Python integers. *)
Definition zsum (l : list Z) : Z := foldr Z.add 0%Z l.

(** [l[:n]] for an integer [n], which may be negative. *)
Definition slice_to {A} (n : Z) (l : list A) : list A :=
  if decide (0 ≤ n)%Z then take (Z.to_nat n) l
  else take (length l - Z.to_nat (- n)) l.

(** [sorted(l, key=key)]: the sort is stable, so every stable sorting
    function computes it; this one inserts each element before the first
    element of the sorted rest whose key is not smaller. *)
Fixpoint insert_sorted {A} (key : A → Z) (x : A) (l : list A) : list A :=
  match l with
  | [] => [x]
  | y :: l' =>
      if decide (key x ≤ key y)%Z then x :: y :: l'
      else y :: insert_sorted key x l'
  end.

Definition sorted {A} (key : A → Z) (l : list A) : list A :=
  foldr (insert_sorted key) [] l.

(** ** numpy arrays *)

(** The second dimension of a two-dimensional array. *)
Definition ncols {A} (m : list (list A)) : nat :=
  match m with
  | [] => 0
  | row :: _ => length row
  end.

(** [c * m]: a scalar times every entry of an array. *)
Definition scale (c : float) (m : matrix) : matrix :=
  (λ row : vector, fmul c <$> row) <$> m.

(** [H[:, path] = 0]: the columns listed in [path] are set to zero in every
    row; an index past the last column raises. *)
Definition zero_columns (path : list nat) (H : matrix) : outcome matrix :=
  if decide (Forall (λ p, p < ncols H)%nat path)
  then Ret (imap (λ j x, if decide (j ∈ path) then fzero else x) <$> H)
  else Raise IndexError.

(** An elementwise operation on two one-dimensional arrays: equal lengths
    pair up, a length-one array is broadcast, other shapes raise. *)
Definition broadcast (f : float → float → float) (a b : vector)
    : outcome vector :=
  if decide (length a = length b) then Ret (zip_with f a b)
  else match a, b with
       | [x], _ => Ret (f x <$> b)
       | _, [y] => Ret ((λ x, f x y) <$> a)
       | _, _ => Raise ValueError
       end.

(** ** The state of a run *)

(** One iteration's ants: each tour with its cost, as [zip(pathCosts,
    allPaths)] pairs them. *)
Abbreviation colony := (list (Z * list nat)).

(** [T] is the global pheromone matrix.  [rng] counts the draws made from
    the generator of [random] so far.  [history] is not a variable of the
    program: it records the colony of every completed iteration, so that
    properties of a whole run can be stated; the program never reads it. *)
Record store : Type := {
  T : matrix;
  rng : nat;
  history : list colony
}.

Definition initial_store (T0 : matrix) : store :=
  {| T := T0; rng := 0; history := [] |}.

(** The generator of [random], as the sequence of values it hands out: the
    [p]-th draw is [randint_at p hi] when it is a call [randint(0, hi)], and
    [random_at p] when it is a call [random()]. *)
Record random_source : Type := {
  randint_at : nat → nat → nat;
  random_at : nat → Qc
}.

(** What Python guarantees of the generator: [randint(0, hi)] lies in
    [0..hi], and [random()] in [[0, 1)]. *)
Definition valid_source (src : random_source) : Prop :=
  (∀ p hi, (randint_at src p hi ≤ hi)%nat) ∧
  (∀ p, 0 ≤ random_at src p ∧ random_at src p < 1).

(** An operation on the array [T] refers to, run on the store. *)
Definition on_T {A} (m : M matrix A) : M store A := λ s,
  let '(o, T') := m (T s) in
  (o, {| T := T'; rng := rng s; history := history s |}).

Definition record_colony (c : colony) : M store unit := λ s,
  (Ret (), {| T := T s; rng := rng s; history := history s ++ [c] |}).

(** The local variables of [ant_colony_optimisation] that live across
    iterations. *)
Record tracker : Type := {
  bestPathCost : Z;
  bestPath : list nat;
  worsePathCost : Z;
  worstPath : list nat;
  avg : Z
}.

Definition initial_tracker : tracker := {|
  bestPathCost := 1000000000;
  bestPath := [];
  worsePathCost := 10;
  worstPath := [];
  avg := 0
|}.

(** ** The program *)

Section Program.

Context (cfg : config).

(** *** [calculate_heuristic] *)

(** The body of the inner loop: one cell of the heuristic matrix. *)
Definition heuristic_cell (d : list (list Z)) (i j : nat) : M matrix unit :=
  if decide (i ≠ j) then
    dij ← lift (index (mget d i j));
    mset i j (fround (fdiv (Fin (Qh cfg)) (Fin (Qc_of_Z dij))) 4)
  else mset i j fzero.

(** [calculate_heuristic(d, numVerticies)].  The body never reads its
    second parameter [numVerticies]: the name it uses, [numVertices], is
    the module-level global, passed here as the first argument. *)
Definition calculate_heuristic (numVertices : nat) (d : list (list Z))
    (numVerticies : nat) : outcome matrix :=
  exec
    (for_range numVertices (λ i,
       for_range numVertices (λ j, heuristic_cell d i j)))
    (ones numVertices numVertices).

(** What the source writes into cell [(i, j)] when the distance there is
    [x]. *)
Definition heuristic_value (i j : nat) (x : Z) : float :=
  if decide (i = j) then fzero
  else fround (fdiv (Fin (Qh cfg)) (Fin (Qc_of_Z x))) 4.

(** *** [calculate_path_cost] *)

(** [matrix[currentNodes, nextNodes]]: the entries at the paired indices. *)
Fixpoint path_entries (matrix : list (list Z)) (edges : list (nat * nat))
    : outcome (list Z) :=
  match edges with
  | [] => Ret []
  | (u, v) :: edges' =>
      x ← index (mget matrix u v);
      xs ← path_entries matrix edges';
      Ret (x :: xs)
  end.

(** [calculate_path_cost(matrix, path)]: [np.sum] over an [int64] array
    wraps around; [int] of the result is the same number. *)
Definition calculate_path_cost (matrix : list (list Z)) (path : list nat)
    : outcome Z :=
  let currentNodes := take (length path - 1) path in
  let nextNodes := drop 1 path in
  entries ← path_entries matrix (zip currentNodes nextNodes);
  Ret (wrap64 (zsum entries)).

(** *** [update_pheremone] *)

(** [T[path[j]][path[j+1]] += x] *)
Definition deposit (path : list nat) (j : nat) (x : float) : M matrix unit :=
  u ← lift (index (path !! j));
  v ← lift (index (path !! (j + 1)%nat));
  madd u v x.

(** [1/pathCosts[i]] on a Python integer. *)
Definition reciprocal (cost : Z) : outcome float :=
  if decide (cost = 0)%Z then Raise ZeroDivisionError
  else Ret (Fin (1 / Qc_of_Z cost)).

(** The body of the loop over the ants of [update_pheremone]. *)
Definition deposit_ant (allPaths : list (list nat)) (pathCosts : list Z)
    (numVertices : nat) (elitistIndex : list nat) (i : nat) : M matrix unit :=
  path ← lift (index (allPaths !! i));
  cost ← lift (index (pathCosts !! i));
  delta ← lift (reciprocal cost);
  for_range (numVertices - 1) (λ j,
    deposit path j delta;;
    if bool_decide (i ∈ elitistIndex) && ELITIST cfg
    then deposit path j (Fin (Qc_of_Z cost * ELITISTFACTOR cfg))
    else mret ()).

(** [update_pheremone(T, allPaths, pathCosts, numVertices, elitistIndex)]:
    the array [T] is the state. *)
Definition update_pheremone (allPaths : list (list nat)) (pathCosts : list Z)
    (numVertices : nat) (elitistIndex : list nat) : M matrix unit :=
  modify (scale (Fin (1 - RHO cfg)));;
  for_range (length allPaths)
    (deposit_ant allPaths pathCosts numVertices elitistIndex).

(** *** [ant_colony_optimisation] *)

Context (d : list (list Z)) (src : random_source).

(** [random.randint(0, numVertices - 1)]: an empty range raises. *)
Definition random_randint (numVertices : nat) : M store nat := λ s,
  match numVertices with
  | O => (Raise ValueError, s)
  | Datatypes.S hi =>
      (Ret (randint_at src (rng s) hi),
       {| T := T s; rng := Datatypes.S (rng s); history := history s |})
  end.

(** [random.random()] *)
Definition random_random : M store float := λ s,
  (Ret (Fin (random_at src (rng s))),
   {| T := T s; rng := Datatypes.S (rng s); history := history s |}).

(** The desirability of each vertex seen from [curr]: [N] of the source. *)
Definition desirability (T : matrix) (H : matrix) (curr : nat)
    : outcome vector :=
  Trow ← index (T !! curr);
  Hrow ← index (H !! curr);
  broadcast fmul
    ((λ x, fpow x (ALPHA cfg)) <$> Trow)
    ((λ x, fpow x (BETA cfg)) <$> Hrow).

(** The probabilities of moving from [curr] to each vertex: [den] and [P]
    of the source. *)
Definition transition (T : matrix) (H : matrix) (curr : nat)
    : outcome vector :=
  N ← desirability T H curr;
  let den := fsum N in
  Ret ((λ x, fdiv x den) <$> N).

(** The walk along the cumulative sum: the first vertex at which the sum
    reaches [rand], or none when the loop ends without [break]. *)
Fixpoint select (P : vector) (rand : float) (CP : float) (vertices : list nat)
    : outcome (option nat) :=
  match vertices with
  | [] => Ret None
  | i :: rest =>
      p ← index (P !! i);
      let CP' := fadd CP p in
      if fge CP' rand then Ret (Some i) else select P rand CP' rest
  end.

(** The [while] loop of one ant. *)
Fixpoint construct (fuel : nat) (numVertices : nat) (H : matrix)
    (path : list nat) (curr : nat) : M store (list nat) :=
  if decide (length path = numVertices) then mret path
  else
    match fuel with
    | O => lift OutOfFuel
    | Datatypes.S fuel' =>
        H' ← lift (zero_columns path H);
        s ← get;
        P ← lift (transition (T s) H' curr);
        rand ← random_random;
        choice ← lift (select P rand fzero (seq 0 numVertices));
        match choice with
        | Some i => construct fuel' numVertices H' (path ++ [i]) i
        | None => construct fuel' numVertices H' path curr
        end
    end.

(** One ant: the body of the loop over the colony, up to the finished
    path. *)
Definition ant (fuel : nat) (H1 : matrix) (numVertices : nat)
    : M store (list nat) :=
  startingCity ← random_randint numVertices;
  path ← construct fuel numVertices H1 [startingCity] startingCity;
  mret (path ++ [startingCity]).

(** The costs of the paths, as the list comprehension computes them. *)
Fixpoint path_costs (allPaths : list (list nat)) : outcome (list Z) :=
  match allPaths with
  | [] => Ret []
  | path :: rest =>
      c ← calculate_path_cost d path;
      cs ← path_costs rest;
      Ret (c :: cs)
  end.

(** The indices of the elitist ants. *)
Definition elitist_index (pathCosts : list Z) : list nat :=
  let value := py_round (ELITISTFACTOR cfg * Qc_of_Z (Z.of_nat (K cfg))) in
  slice_to value
    (sorted (λ i, default 0%Z (pathCosts !! i)) (seq 0 (length pathCosts))).

(** [avg += sum(pathCosts)] *)
Definition add_to_avg (st : tracker) (pathCosts : list Z) : tracker :=
  {| bestPathCost := bestPathCost st; bestPath := bestPath st;
     worsePathCost := worsePathCost st; worstPath := worstPath st;
     avg := (avg st + zsum pathCosts)%Z |}.

(** [if bCost < bestPathCost: bestPathCost = bCost; bestPath = bPath] *)
Definition track_best (st : tracker) (best : Z * list nat) : tracker :=
  let '(bCost, bPath) := best in
  if decide (bCost < bestPathCost st)%Z
  then {| bestPathCost := bCost; bestPath := bPath;
          worsePathCost := worsePathCost st; worstPath := worstPath st;
          avg := avg st |}
  else st.

(** [if wCost > worsePathCost: worsePathCost = wCost; worstPath = wPath] *)
Definition track_worst (st : tracker) (worst : Z * list nat) : tracker :=
  let '(wCost, wPath) := worst in
  if decide (wCost > worsePathCost st)%Z
  then {| bestPathCost := bestPathCost st; bestPath := bestPath st;
          worsePathCost := wCost; worstPath := wPath;
          avg := avg st |}
  else st.

(** The body of the loop over the iterations. *)
Definition iteration (fuel : nat) (H1 : matrix) (numVertices : nat)
    (st : tracker) : M store tracker :=
  allPaths ← for_fold (seq 0 (K cfg))
    (λ _ allPaths,
       path ← ant fuel H1 numVertices;
       mret (allPaths ++ [path])) [];
  pathCosts ← lift (path_costs allPaths);
  let st := add_to_avg st pathCosts in
  (if ELITIST cfg
   then on_T (update_pheremone allPaths pathCosts numVertices
                (elitist_index pathCosts))
   else on_T (update_pheremone allPaths pathCosts numVertices []));;
  let pairs := zip pathCosts allPaths in
  let sorted_pairs := sorted fst pairs in
  best ← lift (index (head sorted_pairs));
  let st := track_best st best in
  worst ← lift (index (last sorted_pairs));
  let st := track_worst st worst in
  record_colony pairs;;
  mret st.

(** [round(avg / K * ITER)] *)
Definition average (total : Z) : outcome Z :=
  if decide (K cfg = 0)%nat then Raise ZeroDivisionError
  else Ret (py_round (Qc_of_Z total / Qc_of_Z (Z.of_nat (K cfg))
                      * Qc_of_Z (Z.of_nat (ITER cfg)))).

(** [ant_colony_optimisation(H1, numVertices)] *)
Definition ant_colony_optimisation (fuel : nat) (H1 : matrix)
    (numVertices : nat) : M store (Z * list nat * Z * list nat * Z) :=
  st ← for_fold (seq 0 (ITER cfg))
         (λ _ st, iteration fuel H1 numVertices st) initial_tracker;
  a ← lift (average (avg st));
  mret (bestPathCost st, bestPath st, worsePathCost st, worstPath st, a).

End Program.

(** ** The parsed document *)

(** An element of the tree [ET.parse] builds: its tag, its attributes, the
    text before its first child ([None] when there is none) and its
    children in document order.  Reading and parsing the file are not
    modelled: the decoder starts from the root element. *)
#[warnings="-register-all"]
Inductive element : Type :=
  Element (tag : string) (attrib : list (string * string))
    (text : option string) (children : list element).

Definition element_tag (e : element) : string :=
  let 'Element tag _ _ _ := e in tag.

Definition element_text (e : element) : option string :=
  let 'Element _ _ text _ := e in text.

Definition element_children (e : element) : list element :=
  let 'Element _ _ _ children := e in children.

(** [e.get(key)]: the value of the attribute, [None] without it. *)
Definition element_get (e : element) (key : string) : option string :=
  let 'Element _ attrib _ _ := e in
  (λ found : nat * (string * string), found.2.2)
    <$> list_find (λ kv, kv.1 = key) attrib.

(** [e.findall(tag)] for a plain tag: the children with that tag. *)
Definition findall (tag : string) (e : element) : list element :=
  filter (λ c, element_tag c = tag) (element_children e).

(** All elements below [e], in document order: what [e.iter()] yields after
    [e] itself. *)
Fixpoint descendants (e : element) : list element :=
  let 'Element _ _ _ children := e in
  (fix below (cs : list element) : list element :=
     match cs with
     | [] => []
     | c :: cs' => c :: descendants c ++ below cs'
     end) children.

(** [e.find('.//tag')]: the first element below [e] with that tag. *)
Definition find_below (tag : string) (e : element) : option element :=
  head (filter (λ c, element_tag c = tag) (descendants e)).

(** [e.find('.//tag/child')]: the first child tagged [child] of an element
    tagged [tag] below [e], the elements tagged [tag] taken in document
    order. *)
Definition find_below_child (tag child : string) (e : element)
    : option element :=
  head (filter (λ c, element_tag c = tag) (descendants e) ≫= findall child).

(** ** The outcome of decoding *)

(** [xml_decoder] can raise [TypeError], which the model of the rest of the
    program does not need. *)
Inductive decoder_exn : Type :=
  | TypeError
  | Builtin (e : exn).

Inductive decoded (A : Type) : Type :=
  | Decoded (a : A)
  | Fails (e : decoder_exn).
Global Arguments Decoded {A} a.
Global Arguments Fails {A} e.

Global Instance decoded_ret : MRet decoded := @Decoded.
Global Instance decoded_bind : MBind decoded := λ A B f m,
  match m with
  | Decoded a => f a
  | Fails e => Fails e
  end.

(** ** numpy arrays of the decoder *)

(** [np.zeros((n, m))] *)
Definition zeros (n m : nat) : matrix := replicate n (replicate m fzero).

(** A Python integer as an index into an axis of [size] entries: a
    negative index counts from the end. *)
Definition np_index (size : nat) (j : Z) : option nat :=
  if decide (0 ≤ j < Z.of_nat size)%Z then Some (Z.to_nat j)
  else if decide (- Z.of_nat size ≤ j < 0)%Z
       then Some (Z.to_nat (j + Z.of_nat size))
       else None.

(** [edges[i, j] = x] *)
Definition set_cell (i : nat) (j : Z) (x : float) (edges : matrix)
    : decoded matrix :=
  match edges !! i with
  | None => Fails (Builtin IndexError)
  | Some row =>
      match np_index (length row) j with
      | None => Fails (Builtin IndexError)
      | Some j' => Decoded (<[i := <[j' := x]> row]> edges)
      end
  end.

(** The cast of a [float64] to [int64] that [astype(int)] makes: a finite
    value in range is truncated toward zero; for a value out of range,
    [inf] and [nan] the C cast is undefined, and the value here is the one
    x86-64 gives, [-2^63]. *)
Definition astype_int (x : float) : Z :=
  match x with
  | Fin q =>
      let z := (Qnum q ÷ Z.pos (Qden q))%Z in
      if decide (- 2 ^ 63 ≤ z < 2 ^ 63)%Z then z else (- 2 ^ 63)%Z
  | _ => (- 2 ^ 63)%Z
  end.

(** ** [xml_decoder] *)

Section Decoder.

(** Python's [int] and [float] on a string, [None] when they raise
    [ValueError]: what they accept is not modelled. *)
Context (py_int : string → option Z) (py_float : string → option float).

(** [int(edge.text)]: [TypeError] on [None]. *)
Definition int_of (text : option string) : decoded Z :=
  match text with
  | None => Fails TypeError
  | Some s =>
      match py_int s with
      | Some z => Decoded z
      | None => Fails (Builtin ValueError)
      end
  end.

(** [float(edge.get('cost'))]: [TypeError] on [None]. *)
Definition float_of (value : option string) : decoded float :=
  match value with
  | None => Fails TypeError
  | Some s =>
      match py_float s with
      | Some x => Decoded x
      | None => Fails (Builtin ValueError)
      end
  end.

(** The body of the loop over the edges of a vertex; [row] is
    [sourceVertexID - 1]. *)
Definition decode_edge (row : nat) (edge : element) (edges : matrix)
    : decoded matrix :=
  targetvVertexID ← int_of (element_text edge);
  cost ← float_of (element_get edge "cost");
  set_cell row targetvVertexID cost edges.

(** [for edge in vertex.findall('edge'): ...] *)
Fixpoint decode_edges (row : nat) (es : list element) (edges : matrix)
    : decoded matrix :=
  match es with
  | [] => Decoded edges
  | edge :: es' =>
      edges' ← decode_edge row edge edges;
      decode_edges row es' edges'
  end.

(** [for vertex in graph: ...; sourceVertexID += 1] *)
Fixpoint decode_vertices (row : nat) (vs : list element) (edges : matrix)
    : decoded matrix :=
  match vs with
  | [] => Decoded edges
  | vertex :: vs' =>
      edges' ← decode_edges row (findall "edge" vertex) edges;
      decode_vertices (Datatypes.S row) vs' edges'
  end.

(** [xml_decoder(filename)], from the root of the parsed file.  [len] of
    [None] and iterating over [None] raise [TypeError]. *)
Definition xml_decoder (myroot : element) : decoded (list (list Z) * nat) :=
  match find_below_child "graph" "vertex" myroot with
  | None => Fails TypeError
  | Some vertex =>
      let nodes := (length (element_children vertex) + 1)%nat in
      let edges := zeros nodes nodes in
      match find_below "graph" myroot with
      | None => Fails TypeError
      | Some graph =>
          decode_vertices 0 (element_children graph) edges
            ≫= λ edges' : matrix,
          Decoded ((λ row : vector, astype_int <$> row) <$> edges', nodes)
      end
  end.

End Decoder.

(** ** The main block *)

(** [np.round(m, 4)] *)
Definition np_round (m : matrix) (ndigits : nat) : matrix :=
  (λ row : vector, (λ x, fround x ndigits) <$> row) <$> m.

(** [np.fill_diagonal(m, x)] *)
Definition fill_diagonal (x : float) (m : matrix) : matrix :=
  imap (λ i row, <[i := x]> row) m.

(** [np.random.rand(n, n)]: the draws of numpy's generator, [rand i j] for
    the cell [(i, j)]. *)
Definition np_random_rand (rand : nat → nat → Qc) (n : nat) : matrix :=
  (λ i, (λ j, Fin (rand i j)) <$> seq 0 n) <$> seq 0 n.

(** The block under [if __name__ == "__main__"], up to the results that it
    prints: the globals [d], [numVertices] and [T] are those the functions
    above read. *)
Definition main (cfg : config) (py_int : string → option Z)
    (py_float : string → option float) (rand : nat → nat → Qc)
    (src : random_source) (fuel : nat) (myroot : element)
    : decoded (outcome (Z * list nat * Z * list nat * Z)) :=
  '(d, numVertices) ← xml_decoder py_int py_float myroot;
  Decoded
    (H1 ← calculate_heuristic cfg numVertices d numVertices;
     let T0 :=
       fill_diagonal fzero
         (np_round (np_random_rand rand numVertices) 4) in
     (ant_colony_optimisation cfg d src fuel H1 numVertices
        (initial_store T0)).1).

(** ** Vocabulary of the properties *)

Global Instance exn_eq_dec : EqDecision exn.
Proof. solve_decision. Defined.

Global Instance outcome_eq_dec {A} `{EqDecision A} : EqDecision (outcome A).
Proof. solve_decision. Defined.

(** Every diagonal entry of the array is [0]. *)
Definition zero_diagonal (m : matrix) : Prop :=
  ∀ i x, mget m i i = Some x → x = fzero.

(** No two consecutive positions of the path hold the same vertex. *)
Definition no_self_loop (path : list nat) : Prop :=
  ∀ j u v, path !! j = Some u → path !! (j + 1)%nat = Some v → u ≠ v.

(** The cell [(u, v)] is an edge the deposit loop of [update_pheremone]
    visits: positions [j] and [j + 1] of some path, for a [j] in
    [range(numVertices - 1)]. *)
Definition deposited_edge (numVertices : nat) (allPaths : list (list nat))
    (u v : nat) : Prop :=
  ∃ path j, path ∈ allPaths ∧ (j < numVertices - 1)%nat ∧
    path !! j = Some u ∧ path !! (j + 1)%nat = Some v.

(** Total correctness: from [s] the computation returns, and the value and
    state it returns satisfy [Q]. *)
Definition returns {S A} (m : M S A) (s : S) (Q : A → S → Prop) : Prop :=
  ∃ a s', m s = (Ret a, s') ∧ Q a s'.

(** Partial correctness: if the computation returns from [s], the value and
    state it returns satisfy [Q]. *)
Definition when_returns {S A} (m : M S A) (s : S) (Q : A → S → Prop) : Prop :=
  ∀ a s', m s = (Ret a, s') → Q a s'.

(** The state [s] has the pheromone matrix and the recorded colonies of
    [s0]. *)
Definition framed (s0 : store) (s : store) : Prop :=
  T s = T s0 ∧ history s = history s0.

(** The sum of a list of rationals. *)
Definition qsum (l : list Qc) : Qc := foldr Qcplus 0 l.

Definition finite (x : float) : Prop := ∃ q, x = Fin q.

(** A float above [0.0]: neither a zero nor [nan]. *)
Definition fpositive (x : float) : Prop :=
  match x with
  | Fin q => 0 < q
  | PInf => True
  | NInf | NaN => False
  end.

(** [k] is the integer nearest to [y], and the even one of the two nearest
    when [y] lies half-way between two integers. *)
Definition nearest_even (y : Qc) (k : Z) : Prop :=
  y - Q2Qc (1 # 2) ≤ Qc_of_Z k ∧ Qc_of_Z k ≤ y + Q2Qc (1 # 2) ∧
  (Qc_of_Z k = y - Q2Qc (1 # 2) ∨ Qc_of_Z k = y + Q2Qc (1 # 2) →
   Z.even k = true).


(** An [n × n] pheromone matrix whose entries are all finite and positive
    off the diagonal. *)
Definition good_pheromone (n : nat) (m : matrix) : Prop :=
  shaped n n m ∧
  ∀ i j x, mget m i j = Some x → ∃ q, x = Fin q ∧ (i ≠ j → 0 < q).

(** An [n × n] distance matrix whose off-diagonal entries are positive and
    small enough for the cost of a tour to fit in 64 bits. *)
Definition good_distances (n : nat) (d : list (list Z)) : Prop :=
  shaped n n d ∧
  ∃ B, (Z.of_nat n * B < 2 ^ 63)%Z ∧
    ∀ i j x, i ≠ j → mget d i j = Some x → (0 < x ≤ B)%Z.

(** No call of [random()] returns [0.0]. *)
Definition positive_draws (src : random_source) : Prop :=
  ∀ p, 0 < random_at src p.

(** A cycle through all [n] vertices: [n] different vertices, then the first
    one again. *)
Definition tour (n : nat) (path : list nat) : Prop :=
  ∃ start body,
    path = start :: body ++ [start] ∧
    length (start :: body) = n ∧
    NoDup (start :: body) ∧
    Forall (λ v, v < n)%nat (start :: body).

(** The sum of the costs of all tours of all recorded iterations. *)
Definition total_cost (h : list colony) : Z :=
  zsum ((λ c : colony, zsum (c.*1)) <$> h).

(** What ant [i] adds to a cell each time its deposit loop visits it:
    [1 / cost], and the elitist bonus [cost * ELITISTFACTOR] when [i] is an
    elitist index and [ELITIST] is on. *)
Definition ant_deposit (cfg : config) (elitistIndex : list nat) (i : nat)
    (cost : Z) : Qc :=
  1 / Qc_of_Z cost +
  (if bool_decide (i ∈ elitistIndex) && ELITIST cfg
   then Qc_of_Z cost * ELITISTFACTOR cfg else 0).

(** How often the deposit loop of one path visits the cell [(u, v)]: the
    positions [j] of [range(numVertices - 1)] with [path[j] = u] and
    [path[j + 1] = v]. *)
Definition edge_count (numVertices : nat) (path : list nat) (u v : nat)
    : nat :=
  length (filter (λ j, path !! j = Some u ∧ path !! (j + 1)%nat = Some v)
            (seq 0 (numVertices - 1))).

(** Everything the deposit loops of all ants add to the cell [(u, v)]. *)
Definition deposits (cfg : config) (numVertices : nat)
    (allPaths : list (list nat)) (pathCosts : list Z)
    (elitistIndex : list nat) (u v : nat) : Qc :=
  qsum (imap (λ i path,
          Qc_of_Z (Z.of_nat (edge_count numVertices path u v))
          * ant_deposit cfg elitistIndex i (default 0%Z (pathCosts !! i)))
        allPaths).

(** What [update_pheremone] reads: a nonzero cost for every path, and for
    every path the vertices at the positions [0 .. numVertices - 1], each
    consecutive pair of them a cell of the matrix. *)
Definition update_defined (numVertices : nat) (allPaths : list (list nat))
    (pathCosts : list Z) (T0 : matrix) : Prop :=
  ∀ i path, allPaths !! i = Some path →
    (∃ cost, pathCosts !! i = Some cost ∧ cost ≠ 0%Z) ∧
    ∀ j, (j < numVertices - 1)%nat →
      ∃ u v, path !! j = Some u ∧ path !! (j + 1)%nat = Some v ∧
        is_Some (mget T0 u v).

(** The outcomes [update_pheremone] can have: it returns, or it raises
    [ZeroDivisionError] or [IndexError]. *)
Definition returns_or_raises {A} (o : outcome A) : Prop :=
  match o with
  | Ret _ => True
  | Raise e => e = ZeroDivisionError ∨ e = IndexError
  | OutOfFuel => False
  end.

Section DecoderVocabulary.

Context (py_int : string → option Z) (py_float : string → option float).

(** The cost of the last of the edges [es] whose text is the column [j] of
    an axis of [nodes] entries. *)
Fixpoint last_write (nodes : nat) (es : list element) (j : nat)
    : option float :=
  match es with
  | [] => None
  | edge :: es' =>
      match last_write nodes es' j with
      | Some x => Some x
      | None =>
          match int_of py_int (element_text edge),
                float_of py_float (element_get edge "cost") with
          | Decoded t, Decoded x =>
              if decide (np_index nodes t = Some j) then Some x else None
          | _, _ => None
          end
      end
  end.

(** What the document says of the cell [(i, j)]: the cost of the last edge
    to [j] of the [i]-th child of the graph, [0.0] without such an edge. *)
Definition cell_cost (nodes : nat) (graph : element) (i j : nat) : float :=
  default fzero
    (element_children graph !! i ≫= λ vertex,
     last_write nodes (findall "edge" vertex) j).

End DecoderVocabulary.

(** What the decoder needs of the document: a vertex under a graph
    (the first one gives the dimension, its number of children plus one),
    and in the graph that is iterated only edges with a text that [int]
    accepts and that indexes a column, a [cost] that [float] accepts, and
    no edge in a child of the graph past the dimension. *)
Definition decodable (py_int : string → option Z)
    (py_float : string → option float) (myroot : element) : Prop :=
  ∃ vertex graph,
    find_below_child "graph" "vertex" myroot = Some vertex ∧
    find_below "graph" myroot = Some graph ∧
    ∀ k v e, element_children graph !! k = Some v → e ∈ findall "edge" v →
      (k ≤ length (element_children vertex))%nat ∧
      ∃ t x, int_of py_int (element_text e) = Decoded t ∧
        float_of py_float (element_get e "cost") = Decoded x ∧
        (- (Z.of_nat (length (element_children vertex)) + 1) ≤ t
         ≤ Z.of_nat (length (element_children vertex)))%Z.

(** What numpy guarantees of [np.random.rand]: values in [[0, 1)]. *)
Definition valid_rand (rand : nat → nat → Qc) : Prop :=
  ∀ i j, 0 ≤ rand i j ∧ rand i j < 1.

(** ** Inputs of the examples *)

(** A matrix of floats from integer entries. *)
Definition float_matrix (m : list (list Z)) : matrix :=
  (λ row : list Z, (λ z, Fin (Qc_of_Z z)) <$> row) <$> m.

(** Three vertices, every pheromone off the diagonal equal to [1]. *)
Definition example_T3 : matrix :=
  float_matrix [[0; 1; 1]; [1; 0; 1]; [1; 1; 0]]%Z.

(** Distances between three vertices: the tour [0, 1, 2, 0] costs [10], the
    tour [0, 2, 1, 0] costs [11]. *)
Definition example_d3 : list (list Z) := [[0; 1; 2]; [3; 0; 4]; [5; 6; 0]]%Z.

(** The constants of the source with elitism switched on, for a colony of
    five ants: [round(0.2 * 5)] is one elitist ant. *)
Definition elitist_config : config := {|
  RHO := Q2Qc (1 # 2);
  Qh := Qc_of_Z 5;
  ALPHA := 1;
  BETA := 3;
  K := 5;
  ITER := 1;
  ELITIST := true;
  ELITISTFACTOR := Q2Qc (1 # 5)
|}.

(** A generator whose second draw, the first call of [random()] of the
    first ant, is [0.0]; every other call of [random()] returns [0.5], and
    [randint] returns [0]. *)
Definition one_zero_source : random_source := {|
  randint_at := λ _ _, 0%nat;
  random_at := λ p, if decide (p = 1)%nat then 0 else Q2Qc (1 # 2)
|}.

(** The heuristic matrix of three vertices at distance [1] from each
    other. *)
Definition example_H3 : matrix :=
  float_matrix [[0; 5; 5]; [5; 0; 5]; [5; 5; 0]]%Z.

(** Three vertices at distance [100000] from each other: [5 / 100000]
    rounds to [0.0] at four decimals. *)
Definition example_far3 : list (list Z) :=
  [[0; 100000; 100000]; [100000; 0; 100000]; [100000; 100000; 0]]%Z.

(** Three vertices at distance [1] from each other; its heuristic matrix
    is [example_H3]. *)
Definition example_unit3 : list (list Z) := [[0; 1; 1]; [1; 0; 1]; [1; 1; 0]]%Z.

(** A generator whose [randint] returns its upper bound and whose
    [random()] returns [0.5]. *)
Definition half_source : random_source := {|
  randint_at := λ _ hi, hi;
  random_at := λ _, Q2Qc (1 # 2)
|}.

(** The constants of the source, for a colony of two ants and two
    iterations. *)
Definition small_config : config := {|
  RHO := Q2Qc (1 # 2);
  Qh := Qc_of_Z 5;
  ALPHA := 1;
  BETA := 3;
  K := 2;
  ITER := 2;
  ELITIST := false;
  ELITISTFACTOR := Q2Qc (1 # 5)
|}.

(** [int] on the texts of the example document. *)
Definition example_int (s : string) : option Z :=
  if decide (s = "0") then Some 0%Z
  else if decide (s = "1") then Some 1%Z
  else if decide (s = "2") then Some 2%Z
  else None.

(** [float] on the costs of the example document. *)
Definition example_float (s : string) : option float :=
  if decide (s = "1.000000000000000e+00") then Some (Fin 1) else None.

Definition example_edge (target : string) : element :=
  Element "edge" [("cost", "1.000000000000000e+00")] (Some target) [].

(** Three vertices at distance [1] from each other, in the layout of the
    TSPLIB files the program reads. *)
Definition example_document : element :=
  Element "travellingSalesmanProblemInstance" [] None
    [Element "name" [] (Some "unit3") [];
     Element "graph" [] None
       [Element "vertex" [] None [example_edge "1"; example_edge "2"];
        Element "vertex" [] None [example_edge "0"; example_edge "2"];
        Element "vertex" [] None [example_edge "0"; example_edge "1"]]].

(** numpy draws that are all [0.5]. *)
Definition half_rand : nat → nat → Qc := λ _ _, Q2Qc (1 # 2).

(** * Properties *)

(** ** Rationals: moving between [Qc] and [Q] *)

Lemma Qc_this_plus (x y : Qc) : (this (x + y) == this x + this y)%Q.
Proof. simpl. apply Qred_correct. Qed.

Lemma Qc_this_mult (x y : Qc) : (this (x * y) == this x * this y)%Q.
Proof. simpl. apply Qred_correct. Qed.

Lemma Qc_this_opp (x : Qc) : (this (- x) == - this x)%Q.
Proof. simpl. apply Qred_correct. Qed.

Lemma Qc_this_minus (x y : Qc) : (this (x - y) == this x - this y)%Q.
Proof.
  unfold Qcminus. rewrite Qc_this_plus, Qc_this_opp. reflexivity.
Qed.

Lemma Qc_this_of_Z (z : Z) : this (Qc_of_Z z) = inject_Z z.
Proof. reflexivity. Qed.

Lemma Qc_this_Q2Qc (q : Q) : (this (Q2Qc q) == q)%Q.
Proof. simpl. apply Qred_correct. Qed.

Lemma Qc_eq_this (x y : Qc) : x = y <-> (this x == this y)%Q.
Proof.
  split; [intros ->; reflexivity | apply Qc_is_canon].
Qed.

(** [qc_unfold_goal] and [qc_unfold_in] restate a goal or a hypothesis about
    [Qc] over [Q], where
    [lra] and [nra] work. *)
Ltac qc_unfold_in H :=
  unfold Qclt, Qcle in H;
  repeat first
    [ rewrite Qc_eq_this in H
    | rewrite Qc_this_plus in H | rewrite Qc_this_minus in H
    | rewrite Qc_this_mult in H | rewrite Qc_this_opp in H
    | rewrite Qc_this_Q2Qc in H
    | rewrite Qc_this_of_Z in H ].

Ltac qc_unfold_goal :=
  unfold Qclt, Qcle;
  repeat first
    [ rewrite Qc_eq_this
    | rewrite Qc_this_plus | rewrite Qc_this_minus
    | rewrite Qc_this_mult | rewrite Qc_this_opp
    | rewrite Qc_this_Q2Qc
    | rewrite Qc_this_of_Z ].

(** ** 64-bit integers *)

Lemma wrap64_small (z : Z) : (- 2 ^ 63 ≤ z < 2 ^ 63)%Z -> wrap64 z = z.
Proof.
  intros Hz. unfold wrap64. rewrite Z.mod_small; lia.
Qed.

(** ** Reasoning about loops and matrices *)

Lemma bind_ret {S A B} (m : M S A) (f : A → M S B) s a s' :
  m s = (Ret a, s') → (m ≫= f) s = f a s'.
Proof. intros H. unfold mbind, M_bind. by rewrite H. Qed.

(** A loop whose body returns and moves the invariant one step returns and
    ends in the invariant at the length of the list. *)
Lemma for_each_ret {S A} (I : nat → S → Prop) (l : list A)
    (body : A → M S unit) (s : S) :
  I 0%nat s →
  (∀ k x s1, l !! k = Some x → I k s1 →
     ∃ s2, body x s1 = (Ret (), s2) ∧ I (Datatypes.S k) s2) →
  ∃ s', for_each l body s = (Ret (), s') ∧ I (length l) s'.
Proof.
  revert I s. induction l as [|x l IH]; intros I s H0 Hstep.
  - exists s. done.
  - destruct (Hstep 0%nat x s eq_refl H0) as (s1 & Hb & H1).
    destruct (IH (λ k, I (Datatypes.S k)) s1 H1) as (s' & Hl & Hs').
    { intros k y s2 Hk Hs2. apply (Hstep (Datatypes.S k) y s2 Hk Hs2). }
    exists s'. split; [|done].
    simpl. by rewrite (bind_ret _ _ _ _ _ Hb).
Qed.

Lemma for_range_ret {S} (I : nat → S → Prop) (n : nat)
    (body : nat → M S unit) (s : S) :
  I 0%nat s →
  (∀ k s1, (k < n)%nat → I k s1 →
     ∃ s2, body k s1 = (Ret (), s2) ∧ I (Datatypes.S k) s2) →
  ∃ s', for_range n body s = (Ret (), s') ∧ I n s'.
Proof.
  intros H0 Hstep. unfold for_range.
  destruct (for_each_ret I (seq 0 n) body s H0) as (s' & Hr & Hs').
  - intros k x s1 Hk Hs1. apply lookup_seq in Hk as [-> Hlt].
    by apply Hstep.
  - rewrite length_seq in Hs'. eauto.
Qed.

(** A loop preserves what every step of its body preserves, whatever the
    outcome. *)
Lemma for_each_preserves {S A} (P : S → Prop) (l : list A)
    (body : A → M S unit) (s : S) :
  P s →
  (∀ x s1, x ∈ l → P s1 → P (body x s1).2) →
  P (for_each l body s).2.
Proof.
  revert s. induction l as [|x l IH]; intros s Hs Hstep; [done|].
  simpl. unfold mbind, M_bind.
  pose proof (Hstep x s (list_elem_of_here _ _) Hs) as Hx.
  destruct (body x s) as [[[]| |] s1]; simpl in *; [|done..].
  apply IH; [done|]. intros y s2 Hy. apply Hstep. by right.
Qed.

Lemma for_range_preserves {S} (P : S → Prop) (n : nat)
    (body : nat → M S unit) (s : S) :
  P s →
  (∀ k s1, (k < n)%nat → P s1 → P (body k s1).2) →
  P (for_range n body s).2.
Proof.
  intros Hs Hstep. unfold for_range. apply for_each_preserves; [done|].
  intros k s1 Hk. apply Hstep. apply elem_of_seq in Hk. lia.
Qed.

Lemma mget_lookup {A} (m : list (list A)) i j row :
  m !! i = Some row → mget m i j = row !! j.
Proof. intros H. unfold mget. by rewrite H. Qed.

Lemma shaped_mget {A} n k (m : list (list A)) i j :
  shaped n k m → (i < n)%nat → (j < k)%nat → is_Some (mget m i j).
Proof.
  intros [Hn Hrows] Hi Hj.
  destruct (lookup_lt_is_Some_2 m i) as [row Hrow]; [lia|].
  rewrite (mget_lookup _ _ _ _ Hrow). apply lookup_lt_is_Some_2.
  rewrite (Hrows _ _ Hrow). done.
Qed.

Lemma mget_shaped {A} n k (m : list (list A)) i j x :
  shaped n k m → mget m i j = Some x → (i < n)%nat ∧ (j < k)%nat.
Proof.
  intros [Hn Hrows] Hget. unfold mget in Hget.
  destruct (m !! i) as [row|] eqn:Hrow; [|done]. simpl in Hget.
  split.
  - rewrite <- Hn. by eapply lookup_lt_Some.
  - rewrite <- (Hrows _ _ Hrow). by eapply lookup_lt_Some.
Qed.

Lemma shaped_ones n k : shaped n k (ones n k).
Proof.
  split; [apply length_replicate|].
  intros i row Hrow. apply lookup_replicate in Hrow as [-> _].
  apply length_replicate.
Qed.

(** Writing one cell of an array. *)
Lemma mget_insert {A} (m : list (list A)) i j row x i' j' :
  m !! i = Some row → (j < length row)%nat →
  mget (<[i := <[j := x]> row]> m) i' j' =
    if decide (i' = i ∧ j' = j) then Some x else mget m i' j'.
Proof.
  intros Hrow Hj. unfold mget.
  destruct (decide (i' = i)) as [->|Hne].
  - rewrite list_lookup_insert_eq by by eapply lookup_lt_Some. simpl.
    destruct (decide (j' = j)) as [->|Hnj].
    + rewrite list_lookup_insert_eq by done. by rewrite decide_True.
    + rewrite list_lookup_insert_ne by done. rewrite Hrow. simpl.
      rewrite decide_False; [done|]. by intros [_ ?].
  - rewrite list_lookup_insert_ne by done.
    rewrite decide_False; [done|]. by intros [? _].
Qed.

Lemma shaped_insert {A} n k (m : list (list A)) i j row x :
  shaped n k m → m !! i = Some row →
  shaped n k (<[i := <[j := x]> row]> m).
Proof.
  intros [Hn Hrows] Hrow. split; [by rewrite length_insert|].
  intros i' row' Hrow'.
  destruct (decide (i' = i)) as [->|Hne].
  - rewrite list_lookup_insert_eq in Hrow' by by eapply lookup_lt_Some.
    injection Hrow' as <-. rewrite length_insert. by eapply Hrows.
  - rewrite list_lookup_insert_ne in Hrow' by done. by eapply Hrows.
Qed.

Lemma mset_ret n k (m : matrix) i j x :
  shaped n k m → (i < n)%nat → (j < k)%nat →
  ∃ m', mset i j x m = (Ret (), m') ∧ shaped n k m' ∧
    ∀ i' j', mget m' i' j' =
      if decide (i' = i ∧ j' = j) then Some x else mget m i' j'.
Proof.
  intros Hsh Hi Hj. unfold mset.
  destruct (lookup_lt_is_Some_2 m i) as [row Hrow]; [destruct Hsh; lia|].
  rewrite Hrow. pose proof (proj2 Hsh _ _ Hrow) as Hlen.
  rewrite decide_True by lia. eexists. split; [done|]. split.
  - by eapply shaped_insert.
  - intros i' j'. apply mget_insert; [done | lia].
Qed.


(** ** Rounding *)

(** [round] is at most a half below its argument. *)
Lemma py_round_lower (y : Qc) : y - Q2Qc (1 # 2) ≤ Qc_of_Z (py_round y).
Proof.
  unfold py_round.
  pose proof (Qfloor_le y) as Hlo. pose proof (Qlt_floor y) as Hhi.
  rewrite inject_Z_plus in Hhi. change (inject_Z 1) with 1%Q in Hhi.
  repeat case_decide.
  - qc_unfold_in H. qc_unfold_goal. lra.
  - qc_unfold_goal. rewrite inject_Z_plus. change (inject_Z 1) with 1%Q. lra.
  - qc_unfold_in H. qc_unfold_in H0.
    destruct (Z.even _); qc_unfold_goal; try rewrite inject_Z_plus;
      change (inject_Z 1) with 1%Q; lra.
Qed.

(** [round] is at most a half above its argument. *)
Lemma py_round_upper (y : Qc) : Qc_of_Z (py_round y) ≤ y + Q2Qc (1 # 2).
Proof.
  unfold py_round.
  pose proof (Qfloor_le y) as Hlo. pose proof (Qlt_floor y) as Hhi.
  rewrite inject_Z_plus in Hhi. change (inject_Z 1) with 1%Q in Hhi.
  repeat case_decide.
  - qc_unfold_goal. lra.
  - qc_unfold_in H0. qc_unfold_goal. rewrite inject_Z_plus.
    change (inject_Z 1) with 1%Q. lra.
  - qc_unfold_in H. qc_unfold_in H0.
    destruct (Z.even _); qc_unfold_goal; try rewrite inject_Z_plus;
      change (inject_Z 1) with 1%Q; lra.
Qed.



(** Only one integer is the nearest, ties to even. *)
Lemma nearest_even_unique (y : Qc) (k k' : Z) :
  nearest_even y k → nearest_even y k' → k = k'.
Proof.
  intros (Hlo & Hhi & Htie) (Hlo' & Hhi' & Htie').
  assert (k ≤ k' + 1)%Z as H1.
  { apply Z2Qc_inj_le. qc_unfold_in Hhi. qc_unfold_in Hlo'. qc_unfold_goal.
    rewrite inject_Z_plus. change (inject_Z 1) with 1%Q. lra. }
  assert (k' ≤ k + 1)%Z as H2.
  { apply Z2Qc_inj_le. qc_unfold_in Hhi'. qc_unfold_in Hlo. qc_unfold_goal.
    rewrite inject_Z_plus. change (inject_Z 1) with 1%Q. lra. }
  destruct (decide (k = k')) as [|Hne]; [done|]. exfalso.
  assert (∀ a b : Z, b = (a + 1)%Z →
    y - Q2Qc (1 # 2) ≤ Qc_of_Z a → Qc_of_Z b ≤ y + Q2Qc (1 # 2) →
    Qc_of_Z a = y - Q2Qc (1 # 2) ∧ Qc_of_Z b = y + Q2Qc (1 # 2)) as Hends.
  { intros a b -> Ha Hb. qc_unfold_in Ha. qc_unfold_in Hb.
    rewrite inject_Z_plus in Hb. change (inject_Z 1) with 1%Q in Hb.
    split; qc_unfold_goal; try rewrite inject_Z_plus;
      change (inject_Z 1) with 1%Q; lra. }
  destruct (decide (k' = k + 1)%Z) as [E|E].
  - destruct (Hends k k' E Hlo Hhi') as [Ea Eb].
    pose proof (Htie (or_introl Ea)) as Hk.
    pose proof (Htie' (or_intror Eb)) as Hk'.
    rewrite E, Z.add_1_r, Z.even_succ, <- Z.negb_even, Hk in Hk'. done.
  - assert (k = k' + 1)%Z as E' by lia.
    destruct (Hends k' k E' Hlo' Hhi) as [Ea Eb].
    pose proof (Htie' (or_introl Ea)) as Hk'.
    pose proof (Htie (or_intror Eb)) as Hk.
    rewrite E', Z.add_1_r, Z.even_succ, <- Z.negb_even, Hk' in Hk. done.
Qed.

(** [round(x, ndigits)] is a whole number of units of [10^-ndigits], at most
    half a unit away from [x]. *)
Lemma py_round_ndigits_near (q : Qc) (k : nat) :
  py_round_ndigits q k * Qc_of_Z (10 ^ Z.of_nat k)
    = Qc_of_Z (py_round (q * Qc_of_Z (10 ^ Z.of_nat k))) ∧
  q * Qc_of_Z (10 ^ Z.of_nat k) - Q2Qc (1 # 2)
    ≤ py_round_ndigits q k * Qc_of_Z (10 ^ Z.of_nat k) ∧
  py_round_ndigits q k * Qc_of_Z (10 ^ Z.of_nat k)
    ≤ q * Qc_of_Z (10 ^ Z.of_nat k) + Q2Qc (1 # 2).
Proof.
  assert (Qc_of_Z (10 ^ Z.of_nat k) ≠ 0) as Hscale.
  { rewrite <- Z2Qc_inj_0. intros E%Z2Qc_inj.
    pose proof (Z.pow_pos_nonneg 10 (Z.of_nat k)). lia. }
  assert (py_round_ndigits q k * Qc_of_Z (10 ^ Z.of_nat k)
    = Qc_of_Z (py_round (q * Qc_of_Z (10 ^ Z.of_nat k)))) as E.
  { unfold py_round_ndigits. by field. }
  split; [done|]. rewrite E. split.
  - apply py_round_lower.
  - apply py_round_upper.
Qed.


(** Rounding [t / k * i] never gives [t / (k * i)] when [t] is positive and
    [i] is at least [2]: the first is an integer at least [4 m - 1/2] when the
    second is the integer [m]. *)
Lemma py_round_not_average (t : Z) (k i : nat) :
  (0 < t)%Z → (k ≠ 0)%nat → (1 < i)%nat →
  Qc_of_Z (py_round (Qc_of_Z t / Qc_of_Z (Z.of_nat k) * Qc_of_Z (Z.of_nat i)))
    ≠ Qc_of_Z t / (Qc_of_Z (Z.of_nat k) * Qc_of_Z (Z.of_nat i)).
Proof.
  intros Ht Hk Hi Heq.
  assert (0 < Qc_of_Z t) as Ht'.
  { rewrite <- Z2Qc_inj_0. apply (proj1 (Z2Qc_inj_lt _ _)). lia. }
  assert (0 < Qc_of_Z (Z.of_nat k)) as Hk'.
  { rewrite <- Z2Qc_inj_0. apply (proj1 (Z2Qc_inj_lt _ _)). lia. }
  assert (Qc_of_Z 2 ≤ Qc_of_Z (Z.of_nat i)) as Hi'.
  { apply (proj1 (Z2Qc_inj_le _ _)). lia. }
  revert Heq Ht' Hk' Hi'.
  generalize (Qc_of_Z t) (Qc_of_Z (Z.of_nat k)) (Qc_of_Z (Z.of_nat i)).
  intros qt qk qi Heq Ht' Hk' Hi'.
  assert (0 < qt / qk) as Hx.
  { unfold Qcdiv. apply Qcmult_pos_pos; [exact Ht'|]. by apply Qcinv_pos. }
  pose proof (py_round_lower (qt / qk * qi)) as Hlow.
  revert Heq Hlow. generalize (py_round (qt / qk * qi)). intros m Heq Hlow.
  assert (Qc_of_Z m * qi = qt / qk) as Hm.
  { rewrite Heq. field. split; intros E; subst.
    - by apply Qclt_not_eq in Hk'.
    - by vm_compute in Hi'. }
  rewrite <- Hm in Hlow, Hx. clear Heq Hm Ht' Hk' qt qk Ht Hk Hi.
  assert (0 < m)%Z as Hpos.
  { apply Z2Qc_inj_lt. rewrite Z2Qc_inj_0.
    destruct (Qclt_le_dec 0 (Qc_of_Z m)) as [|Hle]; [done|]. exfalso.
    qc_unfold_in Hle. qc_unfold_in Hx. qc_unfold_in Hi'.
    change (inject_Z 2) with 2%Q in Hi'. change (this 0) with 0%Q in *.
    nra. }
  assert (Qc_of_Z 1 ≤ Qc_of_Z m) as H1 by (apply (proj1 (Z2Qc_inj_le _ _)); lia).
  qc_unfold_in Hlow. qc_unfold_in H1. qc_unfold_in Hi'.
  change (inject_Z 2) with 2%Q in Hi'. change (inject_Z 1) with 1%Q in H1.
  revert Hlow H1 Hi'. generalize (inject_Z m) (this qi). intros a b Hlow H1 Hi'.
  assert (2 * a <= a * b)%Q by nra.
  nra.
Qed.

(** ** The heuristic matrix *)

Section Heuristic.

Context (cfg : config).

Lemma heuristic_cell_ret n d i j H :
  shaped n n d → shaped n n H → (i < n)%nat → (j < n)%nat →
  ∃ H', heuristic_cell cfg d i j H = (Ret (), H') ∧ shaped n n H' ∧
    (∀ x, mget d i j = Some x → mget H' i j = Some (heuristic_value cfg i j x)) ∧
    (∀ i' j', ¬ (i' = i ∧ j' = j) → mget H' i' j' = mget H i' j').
Proof.
  intros Hd HH Hi Hj. unfold heuristic_cell, heuristic_value.
  destruct (shaped_mget n n d i j Hd Hi Hj) as [x Hx].
  destruct (decide (i ≠ j)) as [Hne|Heq].
  - destruct (mset_ret n n H i j
      (fround (fdiv (Fin (Qh cfg)) (Fin (Qc_of_Z x))) 4) HH Hi Hj)
      as (H' & Hset & Hsh & Hget).
    exists H'. split.
    { erewrite bind_ret; [exact Hset|]. unfold lift. by rewrite Hx. }
    split; [done|]. split.
    + intros y Hy. rewrite Hx in Hy. injection Hy as <-.
      rewrite Hget. rewrite decide_True by done. by rewrite decide_False.
    + intros i' j' Hother. rewrite Hget. by rewrite decide_False.
  - apply dec_stable in Heq.
    destruct (mset_ret n n H i j fzero HH Hi Hj) as (H' & Hset & Hsh & Hget).
    exists H'. split; [done|]. split; [done|]. split.
    + intros y _. rewrite Hget. by rewrite !decide_True.
    + intros i' j' Hother. rewrite Hget. by rewrite decide_False.
Qed.

(** On a square distance matrix of the global dimension the construction
    returns, and every cell holds the value the source computes for it. *)
Lemma calculate_heuristic_cells n d nv :
  shaped n n d →
  ∃ H, calculate_heuristic cfg n d nv = Ret H ∧ shaped n n H ∧
    ∀ i j x, mget d i j = Some x → mget H i j = Some (heuristic_value cfg i j x).
Proof.
  intros Hd. unfold calculate_heuristic, exec.
  destruct (for_range_ret
    (λ k H, shaped n n H ∧
       ∀ i j x, (i < k)%nat → mget d i j = Some x →
         mget H i j = Some (heuristic_value cfg i j x))
    n (λ i, for_range n (λ j, heuristic_cell cfg d i j)) (ones n n))
    as (H & Hrun & Hsh & Hcells).
  - split; [apply shaped_ones|]. intros; lia.
  - intros i H1 Hi [Hsh1 Hdone].
    destruct (for_range_ret
      (λ k H, shaped n n H ∧
         (∀ i' j x, (i' < i)%nat → mget d i' j = Some x →
            mget H i' j = Some (heuristic_value cfg i' j x)) ∧
         (∀ j x, (j < k)%nat → mget d i j = Some x →
            mget H i j = Some (heuristic_value cfg i j x)))
      n (λ j, heuristic_cell cfg d i j) H1)
      as (H2 & Hrun2 & Hsh2 & Hrows & Hrow).
    + split; [done|]. split; [done|]. intros; lia.
    + intros j H3 Hj (Hsh3 & Hrows3 & Hrow3).
      destruct (heuristic_cell_ret n d i j H3 Hd Hsh3 Hi Hj)
        as (H4 & Hcell & Hsh4 & Hnew & Hold).
      exists H4. split; [done|]. split; [done|]. split.
      * intros i' j' x Hi' Hx. rewrite Hold by lia. by apply Hrows3.
      * intros j' x Hj' Hx.
        destruct (decide (j' = j)) as [->|Hne]; [by apply Hnew|].
        rewrite Hold by (intros [_ ?]; done). apply Hrow3; [lia|done].
    + exists H2. split; [done|]. split; [done|].
      intros i' j x Hi' Hx.
      destruct (decide (i' = i)) as [->|Hne].
      * apply Hrow; [|done]. by destruct (mget_shaped n n d _ _ _ Hd Hx).
      * apply Hrows; [lia|done].
  - rewrite Hrun. exists H. split; [done|]. split; [done|].
    intros i j x Hx. apply Hcells; [|done].
    by destruct (mget_shaped n n d _ _ _ Hd Hx).
Qed.


End Heuristic.

Section HeuristicValues.

Context (cfg : config).


(** C5, as the code has it.  The distance matrix is the numpy integer array
    that [xml_decoder] returns ([edges.astype(int)]), so [Q / d[i][j]]
    divides by a numpy scalar: a zero divisor gives [inf] (for [Q > 0]) and
    a warning, not [ZeroDivisionError].  A zero off-diagonal distance
    therefore does not make the construction fail: the matrix is returned,
    with [inf] in that cell. *)
Theorem calculate_heuristic_zero_distance n (d : list (list Z)) nv :
  shaped n n d → 0 < Qh cfg →
  ∃ H, calculate_heuristic cfg n d nv = Ret H ∧ shaped n n H ∧
    ∀ i j, i ≠ j → mget d i j = Some 0%Z → mget H i j = Some PInf.
Proof.
  intros Hd HQ.
  destruct (calculate_heuristic_cells cfg n d nv Hd) as (H & Hrun & Hsh & Hcells).
  exists H. split; [done|]. split; [done|].
  intros i j Hne Hx. rewrite (Hcells _ _ _ Hx). unfold heuristic_value.
  rewrite decide_False by done. f_equal. unfold fdiv.
  rewrite decide_True by by apply Qc_is_canon.
  rewrite decide_False by (intros E; rewrite E in HQ; by apply Qclt_not_eq in HQ).
  by rewrite decide_True.
Qed.

End HeuristicValues.


(** C5, the claim as stated fails: with the distance from vertex 0 to
    vertex 1 equal to [0], the construction returns a matrix, with [inf] in
    that cell. *)
Lemma calculate_heuristic_zero_distance_returns :
  mget [[0; 0]; [3; 0]]%Z 0 1 = Some 0%Z ∧
  ∃ H, calculate_heuristic source_config 2 [[0; 0]; [3; 0]]%Z 2 = Ret H ∧
    mget H 0 1 = Some PInf.
Proof.
  split; [done|]. eexists. split; [by vm_compute|]. by vm_compute.
Qed.

Lemma calculate_heuristic_zero_distance_witness :
  ∃ H, calculate_heuristic source_config 2 [[0; 0]; [3; 0]]%Z 2 = Ret H ∧
    shaped 2 2 H ∧
    ∀ i j, i ≠ j → mget [[0; 0]; [3; 0]]%Z i j = Some 0%Z →
      mget H i j = Some PInf.
Proof.
  apply (calculate_heuristic_zero_distance source_config 2
    [[0; 0]; [3; 0]]%Z 2).
  - split; [done|]. intros [|[|i]] row Hrow; simplify_eq/=; done.
  - by vm_compute.
Defined.

(** ** The pheromone update *)

(** What a computation and every continuation of it preserve, the bind
    preserves. *)
Lemma bind_preserves {S A B} (P : S → Prop) (m : M S A) (f : A → M S B) s :
  P (m s).2 →
  (∀ a s1, m s = (Ret a, s1) → P s1 → P (f a s1).2) →
  P ((m ≫= f) s).2.
Proof.
  intros Hm Hf. unfold mbind, M_bind.
  destruct (m s) as [[a|e|] s1] eqn:E; simpl in *; auto.
Qed.

Lemma lift_bind_preserves {S A B} (P : S → Prop) (o : outcome A)
    (f : A → M S B) s :
  P s → (∀ a, o = Ret a → P (f a s).2) → P ((lift o ≫= f) s).2.
Proof.
  intros Hs Hf. apply bind_preserves; [done|].
  intros a s1 E _. unfold lift in E. simplify_eq. by apply Hf.
Qed.

Lemma index_ret {A} (o : option A) a : index o = Ret a → o = Some a.
Proof. destruct o; simpl; congruence. Qed.

Lemma mget_fmap {A B} (f : A → B) (m : list (list A)) i j :
  mget ((λ row : list A, f <$> row) <$> m) i j = f <$> mget m i j.
Proof.
  unfold mget. rewrite list_lookup_fmap.
  destruct (m !! i) as [row|]; simpl; [|done].
  by rewrite list_lookup_fmap.
Qed.

(** [madd] changes the cell it is given, and only that one. *)
Lemma madd_state (m : matrix) u v x i j :
  mget (madd u v x m).2 i j =
    match mget m u v with
    | Some old => if decide (i = u ∧ j = v) then Some (fadd old x)
                  else mget m i j
    | None => mget m i j
    end.
Proof.
  unfold madd. destruct (m !! u) as [row|] eqn:Hrow.
  - rewrite (mget_lookup m u v row Hrow).
    destruct (row !! v) as [old|] eqn:Hold; simpl; [|done].
    apply mget_insert; [done|]. by eapply lookup_lt_Some.
  - unfold mget at 2. by rewrite Hrow.
Qed.

Lemma madd_zero_diagonal (m : matrix) u v x :
  u ≠ v → zero_diagonal m → zero_diagonal (madd u v x m).2.
Proof.
  intros Hne Hz i y. rewrite madd_state.
  destruct (mget m u v); [|apply Hz].
  rewrite decide_False; [apply Hz|]. intros [-> ->]. done.
Qed.

Lemma deposit_zero_diagonal path j x (m : matrix) :
  no_self_loop path → zero_diagonal m → zero_diagonal (deposit path j x m).2.
Proof.
  intros Hpath Hz. unfold deposit.
  apply lift_bind_preserves; [done|]. intros u Hu%index_ret.
  apply lift_bind_preserves; [done|]. intros v Hv%index_ret.
  apply madd_zero_diagonal; [|done]. by eapply Hpath.
Qed.

Section Update.

Context (cfg : config).

Lemma deposit_ant_zero_diagonal allPaths pathCosts numVertices elitistIndex i
    (m : matrix) :
  Forall no_self_loop allPaths →
  zero_diagonal m →
  zero_diagonal
    (deposit_ant cfg allPaths pathCosts numVertices elitistIndex i m).2.
Proof.
  intros Hpaths Hz. unfold deposit_ant.
  apply lift_bind_preserves; [done|]. intros path Hpath%index_ret.
  apply lift_bind_preserves; [done|]. intros cost _.
  apply lift_bind_preserves; [done|]. intros delta _.
  assert (no_self_loop path) as Hloop.
  { rewrite Forall_forall in Hpaths. apply Hpaths.
    by eapply list_elem_of_lookup_2. }
  apply for_range_preserves; [done|]. intros j m1 _ Hz1.
  apply bind_preserves; [by apply deposit_zero_diagonal|].
  intros _ m2 _ Hz2.
  destruct (bool_decide (i ∈ elitistIndex) && ELITIST cfg); [|done].
  by apply deposit_zero_diagonal.
Qed.

(** C10.  For every pheromone matrix with zero diagonal and every list of
    paths none of which holds a self-loop edge, [update_pheremone] leaves
    the diagonal at zero: evaporation scales each zero to zero, and each
    deposit and elitist bonus lands on an off-diagonal cell.  The costs are
    not restricted: a zero cost makes the update raise, and the matrix it
    leaves behind has a zero diagonal all the same. *)
Theorem update_pheremone_zero_diagonal allPaths pathCosts numVertices
    elitistIndex (T0 : matrix) :
  zero_diagonal T0 →
  Forall no_self_loop allPaths →
  zero_diagonal
    (update_pheremone cfg allPaths pathCosts numVertices elitistIndex T0).2.
Proof.
  intros Hz Hpaths. unfold update_pheremone.
  apply bind_preserves.
  - simpl. intros i x. unfold scale. rewrite mget_fmap.
    destruct (mget T0 i i) as [y|] eqn:Hy; simpl; [|done].
    intros [= <-]. rewrite (Hz _ _ Hy). unfold fzero. simpl.
    by rewrite Qcmult_0_r.
  - intros _ m1 _ Hz1. apply for_range_preserves; [done|].
    intros i m2 _ Hz2. by apply deposit_ant_zero_diagonal.
Qed.

(** A cell that the deposit loop does not visit ends at [(1 - RHO)] times
    its value before, whatever the outcome of the update. *)
Lemma update_pheremone_off_edges allPaths pathCosts numVertices elitistIndex
    (T0 : matrix) u v :
  ¬ deposited_edge numVertices allPaths u v →
  mget (update_pheremone cfg allPaths pathCosts numVertices elitistIndex T0).2
       u v
    = fmul (Fin (1 - RHO cfg)) <$> mget T0 u v.
Proof.
  intros Hnot. unfold update_pheremone.
  apply (bind_preserves
    (λ m, mget m u v = fmul (Fin (1 - RHO cfg)) <$> mget T0 u v)).
  { simpl. unfold scale. apply mget_fmap. }
  intros _ m1 _ Hm1. apply for_range_preserves; [done|].
  intros i m2 Hi Hm2. unfold deposit_ant.
  apply lift_bind_preserves; [done|]. intros path Hpath%index_ret.
  apply lift_bind_preserves; [done|]. intros cost _.
  apply lift_bind_preserves; [done|]. intros delta _.
  assert (∀ j x (m : matrix), (j < numVertices - 1)%nat →
    mget m u v = fmul (Fin (1 - RHO cfg)) <$> mget T0 u v →
    mget (deposit path j x m).2 u v
      = fmul (Fin (1 - RHO cfg)) <$> mget T0 u v) as Hdep.
  { intros j x m Hj Hm. unfold deposit.
    apply lift_bind_preserves; [done|]. intros a Ha%index_ret.
    apply lift_bind_preserves; [done|]. intros b Hb%index_ret.
    rewrite madd_state. destruct (mget m a b); [|done].
    rewrite decide_False; [done|]. intros [-> ->]. apply Hnot.
    exists path, j. split; [by eapply list_elem_of_lookup_2|done]. }
  apply for_range_preserves; [done|]. intros j m3 Hj Hm3.
  apply bind_preserves; [by apply Hdep|]. intros _ m4 _ Hm4.
  destruct (bool_decide (i ∈ elitistIndex) && ELITIST cfg); [|done].
  by apply Hdep.
Qed.

End Update.

(** C10 at a two-vertex matrix and the tour [0, 1, 0]. *)
Lemma update_pheremone_zero_diagonal_witness :
  zero_diagonal
    (update_pheremone source_config [[0; 1; 0]%nat] [2%Z] 2 []
       (float_matrix [[0; 1]; [1; 0]]%Z)).2.
Proof.
  apply (update_pheremone_zero_diagonal source_config).
  - intros [|[|i]] x Hx; unfold mget in Hx; simplify_eq/=;
      unfold fzero; by rewrite Z2Qc_inj_0.
  - constructor; [|constructor].
    intros [|[|[|j]]] u v Hu Hv; simplify_eq/=; done.
Defined.

(** C1, at the input where the code and the claim part.  One ant, tour
    [0, 1, 2, 0] of cost [10], [RHO = 0.5], every pheromone [1] before: the
    edges [(0, 1)] and [(1, 2)] end at [0.5 + 0.1], but the closing edge
    [(2, 0)] ends at [0.5]: the loop over [range(numVertices - 1)] stops
    one edge short of the cycle, and the closing edge gets no deposit. *)
Theorem update_pheremone_closing_edge :
  (update_pheremone source_config [[0; 1; 2; 0]%nat] [10%Z] 3 []
     example_T3).1 = Ret () ∧
  mget (update_pheremone source_config [[0; 1; 2; 0]%nat] [10%Z] 3 []
          example_T3).2 0 1 = Some (Fin (Q2Qc (3 # 5))) ∧
  mget (update_pheremone source_config [[0; 1; 2; 0]%nat] [10%Z] 3 []
          example_T3).2 1 2 = Some (Fin (Q2Qc (3 # 5))) ∧
  mget (update_pheremone source_config [[0; 1; 2; 0]%nat] [10%Z] 3 []
          example_T3).2 2 0 = Some (Fin (Q2Qc (1 # 2))).
Proof. compute_done. Qed.

(** C6, at the input where the code and the claim part.  Five ants, the
    first on the tour [0, 1, 2, 0] of cost [10], the others on
    [0, 2, 1, 0] of cost [11]; elitism on with factor [0.2].  The elitist
    set is the first ant.  Its edges [(0, 1)] and [(1, 2)] end at
    [0.5 + 0.1 + 10 * 0.2], but its closing edge [(2, 0)] ends at [0.5]: it
    gets neither the deposit nor the elitist bonus. *)
Theorem update_pheremone_elitist_closing_edge :
  let allPaths :=
    [[0; 1; 2; 0]; [0; 2; 1; 0]; [0; 2; 1; 0]; [0; 2; 1; 0]; [0; 2; 1; 0]]%nat
  in
  let pathCosts := [10; 11; 11; 11; 11]%Z in
  let elitistIndex := elitist_index elitist_config pathCosts in
  let r := update_pheremone elitist_config allPaths pathCosts 3 elitistIndex
             example_T3 in
  path_costs example_d3 allPaths = Ret pathCosts ∧
  elitistIndex = [0%nat] ∧
  r.1 = Ret () ∧
  mget r.2 0 1 = Some (Fin (Q2Qc (26 # 10))) ∧
  mget r.2 1 2 = Some (Fin (Q2Qc (26 # 10))) ∧
  mget r.2 2 0 = Some (Fin (Q2Qc (1 # 2))).
Proof. cbv zeta. compute_done. Qed.

(** ** The path of one ant *)

Lemma fsum_zeros (N : vector) : Forall (λ x, x = fzero) N → fsum N = fzero.
Proof.
  unfold fsum. induction 1 as [|x N -> _ IH]; [done|].
  simpl. replace (fadd fzero fzero) with fzero; [done|].
  unfold fzero. simpl. by rewrite Qcplus_0_l.
Qed.

(** The loop over the vertices finds none when every probability is [nan]:
    the cumulative sum is [nan] from the first step on and compares false
    with every draw. *)
Lemma select_nan (P : vector) rand CP vertices :
  Forall (λ x, x = NaN) P →
  Forall (λ i, i < length P)%nat vertices →
  select P rand CP vertices = Ret None.
Proof.
  intros HP. revert CP. induction vertices as [|i rest IH]; intros CP Hv; [done|].
  apply Forall_cons in Hv as [Hi Hrest]. simpl.
  destruct (lookup_lt_is_Some_2 P i Hi) as [p Hp]. rewrite Hp. simpl.
  rewrite Forall_forall in HP.
  rewrite (HP p) by by eapply list_elem_of_lookup_2.
  replace (fadd CP NaN) with NaN by by destruct CP.
  simpl. by apply IH.
Qed.

Lemma ncols_zero_columns path (H H' : matrix) :
  zero_columns path H = Ret H' → ncols H' = ncols H.
Proof.
  unfold zero_columns. case_decide; [|done]. intros [= <-].
  destruct H as [|row H]; [done|]. simpl. by rewrite length_imap.
Qed.

Lemma imap_zero_idempotent (path : list nat) (row : vector) :
  imap (λ j x, if decide (j ∈ path) then fzero else x)
    (imap (λ j x, if decide (j ∈ path) then fzero else x) row) =
  imap (λ j x, if decide (j ∈ path) then fzero else x) row.
Proof.
  apply list_eq. intros j. rewrite !list_lookup_imap.
  destruct (row !! j); simpl; [|done]. by case_decide.
Qed.

(** Zeroing the same columns again changes nothing. *)
Lemma zero_columns_idempotent path (H H' : matrix) :
  zero_columns path H = Ret H' → zero_columns path H' = Ret H'.
Proof.
  intros Hz. pose proof (ncols_zero_columns _ _ _ Hz) as Hn.
  unfold zero_columns in *. rewrite Hn.
  case_decide; [|done]. injection Hz as <-. f_equal.
  rewrite <- list_fmap_compose. apply list_fmap_ext.
  intros _ row _. apply imap_zero_idempotent.
Qed.

Section Construction.

Context (cfg : config) (src : random_source).

Lemma transition_zero (T0 H : matrix) curr N :
  desirability cfg T0 H curr = Ret N →
  Forall (λ x, x = fzero) N →
  ∃ P, transition cfg T0 H curr = Ret P ∧ length P = length N ∧
    Forall (λ x, x = NaN) P.
Proof.
  intros HN Hzero. unfold transition. rewrite HN. simpl.
  rewrite (fsum_zeros _ Hzero). eexists. split; [done|].
  split; [by rewrite length_fmap|].
  apply Forall_fmap. eapply Forall_impl; [exact Hzero|].
  intros x ->. by vm_compute.
Qed.

(** C3, as the code has it.  When the desirability of every vertex is zero
    at a step of the construction, the division [N / den] is [0 / 0] on a
    numpy array: every probability is [nan] (numpy warns, it does not
    raise), the cumulative sum is [nan] and [CP >= rand] is false at every
    vertex, so no vertex is selected whatever the draw.  Nothing has changed
    when the next round of the [while] loop starts, and the loop never ends:
    whatever the fuel, the construction is still running.  There is no
    fallback to a uniform choice. *)
Theorem construct_zero_desirability n (H H' : matrix) path curr N :
  length path ≠ n →
  zero_columns path H = Ret H' →
  length N = n →
  Forall (λ x, x = fzero) N →
  ∀ fuel s, desirability cfg (T s) H' curr = Ret N →
    (construct cfg src fuel n H path curr s).1 = OutOfFuel.
Proof.
  intros Hlen Hz HlenN Hzero fuel. revert H Hz.
  induction fuel as [|fuel IH]; intros H Hz s HN; simpl.
  - by rewrite decide_False.
  - rewrite decide_False by done.
    destruct (transition_zero (T s) H' curr N HN Hzero) as (P & HP & HlenP & Hnan).
    unfold mbind at 1, M_bind, lift at 1. rewrite Hz.
    unfold mbind at 1, M_bind, get.
    unfold mbind at 1, M_bind, lift at 1. rewrite HP.
    unfold mbind at 1, M_bind, random_random.
    unfold mbind at 1, M_bind, lift at 1.
    rewrite select_nan; [|done|].
    + apply IH; [by eapply zero_columns_idempotent|done].
    + apply Forall_forall. intros i Hi%elem_of_seq. lia.
Qed.

End Construction.

(** C3 at three vertices at distance [100000] from each other: the
    heuristic matrix is zero, and the ant that starts at vertex [0] never
    finds a second vertex. *)
Lemma construct_zero_desirability_witness :
  calculate_heuristic source_config 3 example_far3 3
    = Ret (float_matrix [[0; 0; 0]; [0; 0; 0]; [0; 0; 0]]%Z) ∧
  ∀ fuel,
    (construct source_config one_zero_source fuel 3
       (float_matrix [[0; 0; 0]; [0; 0; 0]; [0; 0; 0]]%Z) [0%nat] 0
       (initial_store example_T3)).1 = OutOfFuel.
Proof.
  split; [compute_done|]. intros fuel.
  apply (construct_zero_desirability source_config one_zero_source 3
    (float_matrix [[0; 0; 0]; [0; 0; 0]; [0; 0; 0]]%Z)
    (float_matrix [[0; 0; 0]; [0; 0; 0]; [0; 0; 0]]%Z)
    [0%nat] 0%nat [fzero; fzero; fzero]).
  - done.
  - compute_done.
  - done.
  - repeat constructor.
  - compute_done.
Defined.

(** C2, at the input where the code and the claim part.  Three vertices,
    the ant starts at vertex [0] and its first draw is [0.0]: the cumulative
    sum [0] at vertex [0] already reaches the draw, so the ant moves to
    vertex [0] again.  The finished path visits vertex [0] twice before the
    closing step and never visits vertex [2]. *)
Theorem ant_revisits_on_zero_draw :
  valid_source one_zero_source ∧
  calculate_heuristic source_config 3 example_unit3 3 = Ret example_H3 ∧
  (ant source_config one_zero_source 3 example_H3 3
     (initial_store example_T3)).1 = Ret [0; 0; 1; 0]%nat.
Proof.
  split; [|split; compute_done].
  split; [intros; simpl; lia|].
  intros p. simpl. case_decide; split; by vm_compute.
Qed.

(** ** Rules for the two correctness statements *)

Lemma returns_ret {S A} (a : A) (s : S) (Q : A → S → Prop) :
  Q a s → returns (mret a) s Q.
Proof. intros HQ. by exists a, s. Qed.

Lemma returns_lift {S A} (o : outcome A) a (s : S) (Q : A → S → Prop) :
  o = Ret a → Q a s → returns (lift o) s Q.
Proof. intros -> HQ. by exists a, s. Qed.

Lemma returns_bind {S A B} (m : M S A) (f : A → M S B) s (Q : B → S → Prop) :
  returns m s (λ a s1, returns (f a) s1 Q) → returns (m ≫= f) s Q.
Proof.
  intros (a & s1 & Hm & b & s2 & Hf & HQ). exists b, s2. split; [|done].
  by rewrite (bind_ret _ _ _ _ _ Hm).
Qed.

Lemma returns_weaken {S A} (m : M S A) s (Q Q' : A → S → Prop) :
  returns m s Q → (∀ a s', Q a s' → Q' a s') → returns m s Q'.
Proof. intros (a & s' & Hm & HQ) Himp. exists a, s'. auto. Qed.

Lemma returns_for_fold {S A B} (I : nat → B → S → Prop) (l : list A)
    (body : A → B → M S B) b s :
  I 0%nat b s →
  (∀ k x b1 s1, l !! k = Some x → I k b1 s1 →
     returns (body x b1) s1 (I (Datatypes.S k))) →
  returns (for_fold l body b) s (I (length l)).
Proof.
  revert I b s. induction l as [|x l IH]; intros I b s H0 Hstep.
  - by apply returns_ret.
  - simpl. apply returns_bind.
    eapply returns_weaken; [by apply (Hstep 0%nat x b s)|].
    intros b1 s1 H1. apply (IH (λ k, I (Datatypes.S k))); [done|].
    intros k y b2 s2 Hk. by apply (Hstep (Datatypes.S k)).
Qed.

Lemma when_returns_ret {S A} (a : A) (s : S) (Q : A → S → Prop) :
  Q a s → when_returns (mret a) s Q.
Proof. intros HQ a' s' [= <- <-]. done. Qed.

Lemma when_returns_lift {S A} (o : outcome A) (s : S) (Q : A → S → Prop) :
  (∀ a, o = Ret a → Q a s) → when_returns (lift o) s Q.
Proof. intros HQ a s' [= -> <-]. by apply HQ. Qed.

Lemma when_returns_bind {S A B} (m : M S A) (f : A → M S B) s
    (Q : B → S → Prop) :
  when_returns m s (λ a s1, when_returns (f a) s1 Q) →
  when_returns (m ≫= f) s Q.
Proof.
  intros Hm b s2. unfold mbind, M_bind.
  destruct (m s) as [[a|e|] s1] eqn:E; [|done..].
  intros Hf. by eapply Hm.
Qed.

Lemma when_returns_weaken {S A} (m : M S A) s (Q Q' : A → S → Prop) :
  when_returns m s Q → (∀ a s', Q a s' → Q' a s') → when_returns m s Q'.
Proof. intros Hm Himp a s' E. auto. Qed.

Lemma when_returns_for_fold {S A B} (I : nat → B → S → Prop) (l : list A)
    (body : A → B → M S B) b s :
  I 0%nat b s →
  (∀ k x b1 s1, l !! k = Some x → I k b1 s1 →
     when_returns (body x b1) s1 (I (Datatypes.S k))) →
  when_returns (for_fold l body b) s (I (length l)).
Proof.
  revert I b s. induction l as [|x l IH]; intros I b s H0 Hstep.
  - by apply when_returns_ret.
  - simpl. apply when_returns_bind.
    eapply when_returns_weaken; [by apply (Hstep 0%nat x b s)|].
    intros b1 s1 H1. apply (IH (λ k, I (Datatypes.S k))); [done|].
    intros k y b2 s2 Hk. by apply (Hstep (Datatypes.S k)).
Qed.

(** What every outcome of a computation satisfies, its returns satisfy. *)
Lemma when_returns_state {S A} (P : S → Prop) (m : M S A) s :
  P (m s).2 → when_returns m s (λ _ s', P s').
Proof. intros HP a s' E. by rewrite E in HP. Qed.

(** ** Python lists *)

Lemma zsum_app (l1 l2 : list Z) : zsum (l1 ++ l2) = (zsum l1 + zsum l2)%Z.
Proof. induction l1 as [|x l1 IH]; simpl; lia. Qed.

Lemma total_cost_snoc (h : list colony) (c : colony) :
  total_cost (h ++ [c]) = (total_cost h + zsum (c.*1))%Z.
Proof.
  unfold total_cost. rewrite fmap_app, zsum_app. simpl. lia.
Qed.

Lemma insert_sorted_perm {A} (key : A → Z) x (l : list A) :
  insert_sorted key x l ≡ₚ x :: l.
Proof.
  induction l as [|y l IH]; simpl; [done|].
  case_decide; [done|]. rewrite IH. apply Permutation_swap.
Qed.

(** The sorted list holds the elements of the list it sorts. *)
Lemma sorted_perm {A} (key : A → Z) (l : list A) : sorted key l ≡ₚ l.
Proof.
  induction l as [|x l IH]; simpl; [done|].
  rewrite insert_sorted_perm. by rewrite IH.
Qed.

Lemma sorted_head_is_Some {A} (key : A → Z) (l : list A) :
  l ≠ [] → is_Some (head (sorted key l)).
Proof.
  intros Hl. destruct (sorted key l) as [|x l'] eqn:E; [|by eexists].
  pose proof (sorted_perm key l) as Hp. rewrite E in Hp.
  apply Permutation_nil_l in Hp. done.
Qed.

Lemma sorted_last_is_Some {A} (key : A → Z) (l : list A) :
  l ≠ [] → is_Some (last (sorted key l)).
Proof.
  intros Hl. rewrite last_lookup. apply lookup_lt_is_Some_2.
  rewrite (Permutation_length (sorted_perm key l)).
  destruct l; simpl; [done|lia].
Qed.

(** ** One iteration, when it returns *)

Section Iteration.

Context (cfg : config) (d : list (list Z)) (src : random_source).

(** Building a path reads [T] and draws random numbers: it changes neither
    the pheromone matrix nor the record of the colonies. *)
Lemma construct_framed fuel n H path curr s0 s :
  framed s0 s → framed s0 (construct cfg src fuel n H path curr s).2.
Proof.
  revert H path curr s. induction fuel as [|fuel IH]; intros H path curr s Hs;
    simpl; case_decide; try done.
  apply lift_bind_preserves; [done|]. intros H' _.
  apply bind_preserves; [done|]. intros s1 s2 [= <- <-] _.
  apply lift_bind_preserves; [done|]. intros P _.
  apply bind_preserves; [done|]. intros rand s3 [= <- <-] _.
  apply lift_bind_preserves; [done|]. intros [i|] _; by apply IH.
Qed.

Lemma ant_framed fuel H1 n s0 s :
  framed s0 s → framed s0 (ant cfg src fuel H1 n s).2.
Proof.
  intros Hs. unfold ant. apply bind_preserves.
  - unfold random_randint. by destruct n.
  - intros start s1 _ Hs1. apply bind_preserves; [by apply construct_framed|].
    done.
Qed.

Lemma on_T_history {A} (m : M matrix A) s :
  history (on_T m s).2 = history s.
Proof. unfold on_T. by destruct (m (T s)). Qed.

Lemma path_costs_length allPaths pathCosts :
  path_costs d allPaths = Ret pathCosts → length pathCosts = length allPaths.
Proof.
  revert pathCosts. induction allPaths as [|path rest IH]; intros pathCosts; simpl.
  - by intros [= <-].
  - destruct (calculate_path_cost d path) as [c| |]; simpl; [|done..].
    destruct (path_costs d rest) as [cs| |]; simpl; [|done..].
    intros [= <-]. simpl. by rewrite (IH cs).
Qed.

(** What one iteration has done when it returns: [K] ants built a path
    each, the paths were costed, the best and the worst of the sorted pairs
    went into the tracker, and the colony was recorded. *)
Lemma iteration_when_returns fuel H1 n st s :
  when_returns (iteration cfg d src fuel H1 n st) s (λ st' s',
    ∃ allPaths pathCosts best worst,
      length allPaths = K cfg ∧
      path_costs d allPaths = Ret pathCosts ∧
      head (sorted fst (zip pathCosts allPaths)) = Some best ∧
      last (sorted fst (zip pathCosts allPaths)) = Some worst ∧
      st' = track_worst (track_best (add_to_avg st pathCosts) best) worst ∧
      history s' = history s ++ [zip pathCosts allPaths]).
Proof.
  unfold iteration. apply when_returns_bind.
  eapply when_returns_weaken.
  { apply (when_returns_for_fold
      (λ k allPaths s1, length allPaths = k ∧ framed s s1)).
    - done.
    - intros k _ allPaths s1 _ [Hlen Hfr]. apply when_returns_bind.
      eapply when_returns_weaken;
        [apply (when_returns_state (framed s)); by apply ant_framed|].
      intros path s2 Hfr2. apply when_returns_ret.
      split; [|done]. rewrite length_app. simpl. lia. }
  intros allPaths s1 [Hlen [_ Hh1]]. rewrite length_seq in Hlen.
  apply when_returns_bind, when_returns_lift. intros pathCosts Hcosts.
  apply when_returns_bind. eapply when_returns_weaken.
  { apply (when_returns_state (λ s', history s' = history s)).
    rewrite <- Hh1. destruct (ELITIST cfg); apply on_T_history. }
  intros u s2 Hh2. simpl in Hh2.
  apply when_returns_bind, when_returns_lift. intros best Hbest%index_ret.
  apply when_returns_bind, when_returns_lift. intros worst Hworst%index_ret.
  apply when_returns_bind. intros [] s3 E.
  unfold record_colony in E. injection E as <-.
  apply when_returns_ret. exists allPaths, pathCosts, best, worst.
  simpl. by rewrite Hh2.
Qed.

End Iteration.

(** ** A whole run, when it returns *)

Section Run.

Context (cfg : config) (d : list (list Z)) (src : random_source).

(** What the loop over the iterations has done when it returns. *)
Lemma iterations_when_returns fuel H1 n s0 :
  when_returns
    (for_fold (seq 0 (ITER cfg))
       (λ _ st, iteration cfg d src fuel H1 n st) initial_tracker) s0
    (λ st s, ∃ hs,
       history s = history s0 ++ hs ∧
       length hs = ITER cfg ∧
       Forall (λ c : colony, length c = K cfg) hs ∧
       (hs ≠ [] → K cfg ≠ 0%nat) ∧
       avg st = total_cost hs ∧
       (Forall (Forall (λ cp : Z * list nat, (cp.1 ≤ 10)%Z)) hs →
        worsePathCost st = 10%Z ∧ worstPath st = []) ∧
       (Forall (Forall (λ cp : Z * list nat, (1000000000 ≤ cp.1)%Z)) hs →
        bestPathCost st = 1000000000%Z ∧ bestPath st = [])).
Proof.
  eapply when_returns_weaken.
  { apply (when_returns_for_fold (λ k st s, ∃ hs,
      history s = history s0 ++ hs ∧
      length hs = k ∧
      Forall (λ c : colony, length c = K cfg) hs ∧
      (hs ≠ [] → K cfg ≠ 0%nat) ∧
      avg st = total_cost hs ∧
      (Forall (Forall (λ cp : Z * list nat, (cp.1 ≤ 10)%Z)) hs →
       worsePathCost st = 10%Z ∧ worstPath st = []) ∧
      (Forall (Forall (λ cp : Z * list nat, (1000000000 ≤ cp.1)%Z)) hs →
       bestPathCost st = 1000000000%Z ∧ bestPath st = []))).
    - exists []. rewrite app_nil_r. by repeat split.
    - intros k _ st s _ (hs & Hh & Hlen & HK & HK0 & Havg & Hworst & Hbst).
      eapply when_returns_weaken; [apply iteration_when_returns|].
      intros st' s' (allPaths & pathCosts & best & worst & HlenP & Hcosts
                     & Hbest & Hlast & -> & Hh').
      pose proof (path_costs_length d _ _ Hcosts) as HlenC.
      exists (hs ++ [zip pathCosts allPaths]).
      split; [by rewrite Hh', Hh, (assoc_L (++))|].
      split; [rewrite length_app; simpl; lia|].
      assert (length (zip pathCosts allPaths) = K cfg) as Hzip.
      { rewrite length_zip_with. lia. }
      split; [apply Forall_app; split; [done|by constructor]|].
      split.
      { intros _ HK1. rewrite HK1 in Hzip.
        apply nil_length_inv in Hzip. rewrite Hzip in Hbest. done. }
      destruct best as [bCost bPath], worst as [wCost wPath].
      split.
      { rewrite total_cost_snoc, fst_zip by lia.
        unfold track_worst, track_best, add_to_avg.
        repeat case_decide; simpl; lia. }
      split.
      { intros [Hhs Hc]%Forall_app.
        rewrite Forall_singleton in Hc. destruct (Hworst Hhs) as [Hw1 Hw2].
        assert (wCost ≤ 10)%Z as Hle.
        { apply last_Some_elem_of in Hlast.
          rewrite (sorted_perm fst (zip pathCosts allPaths)) in Hlast.
          rewrite Forall_forall in Hc. by apply (Hc (wCost, wPath)). }
        unfold track_worst, track_best, add_to_avg.
        repeat case_decide; simpl in *; try done; lia. }
      intros [Hhs Hc]%Forall_app.
      rewrite Forall_singleton in Hc. destruct (Hbst Hhs) as [Hb1 Hb2].
      assert (1000000000 ≤ bCost)%Z as Hle.
      { apply head_Some_elem_of in Hbest.
        rewrite (sorted_perm fst (zip pathCosts allPaths)) in Hbest.
        rewrite Forall_forall in Hc. by apply (Hc (bCost, bPath)). }
      unfold track_worst, track_best, add_to_avg.
      repeat case_decide; simpl in *; try done; lia. }
  intros st s. by rewrite length_seq.
Qed.

(** What [ant_colony_optimisation] returns, when it returns. *)
Lemma ant_colony_optimisation_when_returns fuel H1 n s0 :
  when_returns (ant_colony_optimisation cfg d src fuel H1 n) s0
    (λ r s, ∃ hs bc bp wc wp,
       history s = history s0 ++ hs ∧
       length hs = ITER cfg ∧
       Forall (λ c : colony, length c = K cfg) hs ∧
       (hs ≠ [] → K cfg ≠ 0%nat) ∧
       average cfg (total_cost hs) = Ret r.2 ∧
       r = (bc, bp, wc, wp, r.2) ∧
       (Forall (Forall (λ cp : Z * list nat, (cp.1 ≤ 10)%Z)) hs →
        wc = 10%Z ∧ wp = []) ∧
       (Forall (Forall (λ cp : Z * list nat, (1000000000 ≤ cp.1)%Z)) hs →
        bc = 1000000000%Z ∧ bp = [])).
Proof.
  unfold ant_colony_optimisation. apply when_returns_bind.
  eapply when_returns_weaken; [apply iterations_when_returns|].
  intros st s (hs & Hh & Hlen & HK & HK0 & Havg & Hworst & Hbst).
  apply when_returns_bind, when_returns_lift. intros a Ha.
  apply when_returns_ret.
  exists hs, (bestPathCost st), (bestPath st), (worsePathCost st), (worstPath st).
  rewrite <- Havg. done.
Qed.

(** C9.  The worst-cost tracker starts at [10] and moves only when an
    iteration's highest cost is strictly greater (the best-cost tracker
    starts at [1000000000] and moves only when an iteration's lowest cost is
    strictly smaller: [best_tracker_sentinel] below).  So when a run returns
    and no tour of any of its iterations cost more than [10], the worst path
    it returns is the empty list and the worst cost is [10] itself. *)
Theorem worst_tracker_sentinel fuel H1 n T0 bc bp wc wp a s' :
  ant_colony_optimisation cfg d src fuel H1 n (initial_store T0)
    = (Ret (bc, bp, wc, wp, a), s') →
  Forall (Forall (λ cp : Z * list nat, (cp.1 ≤ 10)%Z)) (history s') →
  wc = 10%Z ∧ wp = [].
Proof.
  intros Hrun Hcosts.
  destruct (ant_colony_optimisation_when_returns fuel H1 n _ _ _ Hrun)
    as (hs & bc' & bp' & wc' & wp' & Hh & _ & _ & _ & _ & Hr & Hworst & _).
  simpl in Hh, Hr. injection Hr as -> -> -> ->. rewrite <- Hh in Hworst. auto.
Qed.

(** X16.  The best-cost tracker, likewise: it starts at [1000000000] and
    moves only when an iteration's lowest cost is strictly smaller.  So when
    a run returns and no tour of any of its iterations cost less than
    [1000000000], the best path it returns is the empty list and the best
    cost is [1000000000] itself. *)
Lemma best_tracker_sentinel fuel H1 n T0 bc bp wc wp a s' :
  ant_colony_optimisation cfg d src fuel H1 n (initial_store T0)
    = (Ret (bc, bp, wc, wp, a), s') →
  Forall (Forall (λ cp : Z * list nat, (1000000000 ≤ cp.1)%Z)) (history s') →
  bc = 1000000000%Z ∧ bp = [].
Proof.
  intros Hrun Hcosts.
  destruct (ant_colony_optimisation_when_returns fuel H1 n _ _ _ Hrun)
    as (hs & bc' & bp' & wc' & wp' & Hh & _ & _ & _ & _ & Hr & _ & Hbst).
  simpl in Hh, Hr. injection Hr as -> -> -> ->. rewrite <- Hh in Hbst. auto.
Qed.

(** C8.  When a run of more than one iteration returns and the costs of its
    tours sum to a positive total, the run has recorded [K * ITER] tours and
    the average it returns, [round(total / K * ITER)], is not the average
    cost of a tour, [total / (K * ITER)]. *)
Theorem average_is_not_per_tour fuel H1 n T0 bc bp wc wp a s' :
  ant_colony_optimisation cfg d src fuel H1 n (initial_store T0)
    = (Ret (bc, bp, wc, wp, a), s') →
  (1 < ITER cfg)%nat →
  (0 < total_cost (history s'))%Z →
  length (concat (history s')) = (K cfg * ITER cfg)%nat ∧
  Qc_of_Z a ≠
    Qc_of_Z (total_cost (history s')) /
      (Qc_of_Z (Z.of_nat (K cfg)) * Qc_of_Z (Z.of_nat (ITER cfg))).
Proof.
  intros Hrun Hiter Htotal.
  destruct (ant_colony_optimisation_when_returns fuel H1 n _ _ _ Hrun)
    as (hs & bc' & bp' & wc' & wp' & Hh & Hlen & HK & HK0 & Havg & _).
  simpl in Hh, Havg. rewrite <- Hh in *. clear Hh hs. split.
  - rewrite <- Hlen. clear -HK. induction HK as [|c h Hc _ IH]; simpl; [lia|].
    rewrite length_app, IH, Hc. lia.
  - unfold average in Havg. case_decide as HK1.
    { exfalso. apply HK0; [|done]. intros E. rewrite E in Hlen. simpl in Hlen. lia. }
    injection Havg as <-. by apply py_round_not_average.
Qed.

End Run.

(** ** The columns of the visited vertices *)

Lemma shaped_ncols {A} n (m : list (list A)) :
  (0 < n)%nat → shaped n n m → ncols m = n.
Proof.
  intros Hn [Hlen Hrows]. destruct m as [|row m]; simpl in *; [lia|].
  by apply (Hrows 0%nat).
Qed.

Lemma zero_columns_ret n (H : matrix) path :
  (0 < n)%nat → shaped n n H → Forall (λ p, p < n)%nat path →
  ∃ H', zero_columns path H = Ret H' ∧ shaped n n H' ∧
    ∀ i j, mget H' i j =
      (λ x, if decide (j ∈ path) then fzero else x) <$> mget H i j.
Proof.
  intros Hn Hsh Hpath. unfold zero_columns.
  rewrite (shaped_ncols n H Hn Hsh). rewrite decide_True by done.
  eexists. split; [done|]. split.
  - destruct Hsh as [Hlen Hrows]. split; [by rewrite length_fmap|].
    intros i row. rewrite list_lookup_fmap.
    destruct (H !! i) as [row0|] eqn:E; simpl; [|done].
    intros [= <-]. rewrite length_imap. by eapply Hrows.
  - intros i j. unfold mget. rewrite list_lookup_fmap.
    destruct (H !! i) as [row|]; simpl; [|done].
    by rewrite list_lookup_imap.
Qed.

Lemma fpow_fin (q : Qc) (k : nat) : fpow (Fin q) k = Fin (q ^ k).
Proof. induction k as [|k IH]; simpl; [done|]. by rewrite IH. Qed.

Lemma construct_unfold cfg src fuel n H path curr :
  construct cfg src (Datatypes.S fuel) n H path curr =
    if decide (length path = n) then mret path
    else
      H' ← lift (zero_columns path H);
      s ← get;
      P ← lift (transition cfg (T s) H' curr);
      rand ← random_random src;
      choice ← lift (select P rand fzero (seq 0 n));
      match choice with
      | Some i => construct cfg src fuel n H' (path ++ [i]) i
      | None => construct cfg src fuel n H' path curr
      end.
Proof. done. Qed.

(** ** The cost of a tour *)

Lemma tour_length n path : tour n path → length path = Datatypes.S n.
Proof.
  intros (start & body & -> & Hlen & _). simpl in *.
  rewrite length_app. simpl. lia.
Qed.

Lemma tour_lookup n path j :
  tour n path → (j ≤ n)%nat → ∃ u, path !! j = Some u ∧ (u < n)%nat.
Proof.
  intros (start & body & -> & Hlen & _ & Hlt) Hj.
  assert (Forall (λ v, v < n)%nat (start :: body ++ [start])) as Hall.
  { apply Forall_cons in Hlt as [Hs Hb]. apply Forall_cons. split; [done|].
    apply Forall_app. split; [done|]. by apply Forall_singleton. }
  destruct (lookup_lt_is_Some_2 (start :: body ++ [start]) j) as [u Hu].
  { simpl in *. rewrite length_app. simpl. lia. }
  exists u. split; [done|]. rewrite Forall_forall in Hall.
  apply Hall. by eapply list_elem_of_lookup_2.
Qed.

(** The edges of a tour over at least two vertices join different vertices. *)
Lemma tour_edge n path j u v :
  tour n path → (2 ≤ n)%nat →
  path !! j = Some u → path !! Datatypes.S j = Some v → u ≠ v.
Proof.
  intros (start & body & -> & Hlen & Hnd & _) Hn Hu Hv ->.
  simpl in Hlen. simpl in Hv.
  destruct (decide (j < length body)%nat) as [Hj|Hj].
  - rewrite lookup_app_l in Hv by done.
    assert ((start :: body) !! j = Some v) as Hu'.
    { destruct j as [|j]; [done|]. simpl in *.
      rewrite lookup_app_l in Hu by lia. done. }
    assert ((start :: body) !! Datatypes.S j = Some v) as Hv' by done.
    pose proof (NoDup_lookup _ _ _ _ Hnd Hu' Hv'). lia.
  - assert (j = length body) as ->.
    { apply lookup_lt_Some in Hv. rewrite length_app in Hv. simpl in Hv. lia. }
    rewrite lookup_app_r in Hv by lia.
    replace (length body - length body)%nat with 0%nat in Hv by lia.
    simpl in Hv. injection Hv as <-.
    assert ((start :: body) !! length body = Some start) as Hu'.
    { destruct (length body) as [|k] eqn:E; [lia|]. simpl in *.
      rewrite lookup_app_l in Hu by lia. done. }
    assert ((start :: body) !! 0%nat = Some start) as Hv' by done.
    pose proof (NoDup_lookup _ _ _ _ Hnd Hu' Hv'). lia.
Qed.

(** A tour is a Hamiltonian cycle in the words of the specification: [n + 1]
    vertices, the first equal to the last, the first [n] a permutation of
    [0, ..., n - 1]. *)
Lemma tour_hamiltonian n path :
  tour n path →
  length path = Datatypes.S n ∧ head path = last path ∧
  take n path ≡ₚ seq 0 n.
Proof.
  intros Htour. split; [by eapply tour_length|].
  destruct Htour as (start & body & -> & Hlen & Hnd & Hlt). split.
  - rewrite app_comm_cons, last_snoc. done.
  - rewrite app_comm_cons, take_app_length' by done.
    symmetry. apply submseteq_length_Permutation.
    + apply NoDup_submseteq; [apply NoDup_seq|].
      intros j Hj%elem_of_seq.
      destruct (decide (j ∈ start :: body)) as [|Hnot]; [done|]. exfalso.
      assert (NoDup (j :: start :: body)) as Hnd' by by constructor.
      assert (j :: start :: body ⊆+ seq 0 n) as Hsub.
      { apply NoDup_submseteq; [done|]. intros x Hx. apply elem_of_seq.
        apply elem_of_cons in Hx as [->|Hx]; [lia|].
        rewrite Forall_forall in Hlt. specialize (Hlt x Hx). lia. }
      apply submseteq_length in Hsub. rewrite length_seq in Hsub.
      simpl in *. lia.
    + rewrite length_seq. lia.
Qed.

Lemma zsum_bounds (B : Z) (xs : list Z) :
  Forall (λ x, 0 < x ≤ B)%Z xs → xs ≠ [] →
  (0 < zsum xs ≤ Z.of_nat (length xs) * B)%Z.
Proof.
  induction 1 as [|x xs Hx Hxs IH]; intros Hne; [done|].
  simpl zsum. rewrite length_cons.
  destruct xs as [|y xs]; [simpl; lia|].
  assert (y :: xs ≠ []) as Hne' by done.
  specialize (IH Hne'). lia.
Qed.

Section Costs.

Context (n : nat) (d : list (list Z)) (Hd : good_distances n d).
Context (Hn : (2 ≤ n)%nat).

Lemma path_entries_ret B (edges : list (nat * nat)) :
  (∀ i j x, i ≠ j → mget d i j = Some x → (0 < x ≤ B)%Z) →
  Forall (λ e, e.1 ≠ e.2 ∧ (e.1 < n)%nat ∧ (e.2 < n)%nat) edges →
  ∃ xs, path_entries d edges = Ret xs ∧ length xs = length edges ∧
    Forall (λ x, 0 < x ≤ B)%Z xs.
Proof.
  intros HB. induction 1 as [|[u v] edges (Hne & Hu & Hv) _ IH]; simpl.
  - by exists [].
  - destruct (shaped_mget n n d u v (proj1 Hd) Hu Hv) as [x Hx].
    destruct IH as (xs & -> & Hlen & Hxs). rewrite Hx. simpl.
    exists (x :: xs). split; [done|]. split; [simpl; lia|].
    constructor; [by eapply HB|done].
Qed.

End Costs.

(** ** Loops over a range that return *)

Lemma returns_for_range {S} (I : nat → S → Prop) (n : nat)
    (body : nat → M S unit) (s : S) :
  I 0%nat s →
  (∀ k s1, (k < n)%nat → I k s1 →
     returns (body k) s1 (λ _ s2, I (Datatypes.S k) s2)) →
  returns (for_range n body) s (λ _ s', I n s').
Proof.
  intros H0 Hstep.
  destruct (for_range_ret I n body s H0) as (s' & Hr & Hs').
  - intros k s1 Hk Hs1. destruct (Hstep k s1 Hk Hs1) as ([] & s2 & Hb & H2).
    by exists s2.
  - by exists (), s'.
Qed.

(** ** The properties at concrete inputs *)

Lemma half_source_valid : valid_source half_source.
Proof. split; [intros; simpl; lia|]. intros p. split; by vm_compute. Qed.

Lemma half_source_positive : positive_draws half_source.
Proof. intros p. by vm_compute. Qed.

Lemma example_H3_shaped : shaped 3 3 example_H3.
Proof.
  split; [done|]. intros [|[|[|i]]] row Hrow; simplify_eq/=; done.
Qed.

Lemma example_T3_good : good_pheromone 3 example_T3.
Proof.
  split.
  - split; [done|]. intros [|[|[|i]]] row Hrow; simplify_eq/=; done.
  - intros [|[|[|i]]] [|[|[|j]]] x Hx; unfold mget in Hx;
      simplify_eq/=; eexists; (split; [done|]); intros Hne;
      first [done | by vm_compute].
Qed.


(** C9 on three vertices at distance [1]: every tour costs [3]. *)
Lemma worst_tracker_sentinel_witness :
  ∃ bc bp wc wp a s',
    ant_colony_optimisation small_config example_unit3 half_source 2
      example_H3 3 (initial_store example_T3)
      = (Ret (bc, bp, wc, wp, a), s') ∧
    Forall (Forall (λ cp : Z * list nat, (cp.1 ≤ 10)%Z)) (history s') ∧
    wc = 10%Z ∧ wp = [].
Proof.
  eexists _, _, _, _, _, _.
  split; [by vm_compute|]. split; [by repeat constructor|].
  eapply (worst_tracker_sentinel small_config example_unit3 half_source 2
    example_H3 3 example_T3); [by vm_compute|by repeat constructor].
Defined.

(** C8 on the same run: four tours of cost [3]; the run returns
    [round(12 / 2 * 2) = 12], the average cost of a tour is [3]. *)
Lemma average_is_not_per_tour_witness :
  ∃ bc bp wc wp a s',
    ant_colony_optimisation small_config example_unit3 half_source 2
      example_H3 3 (initial_store example_T3)
      = (Ret (bc, bp, wc, wp, a), s') ∧
    (1 < ITER small_config)%nat ∧
    (0 < total_cost (history s'))%Z ∧
    length (concat (history s')) = (K small_config * ITER small_config)%nat ∧
    Qc_of_Z a ≠
      Qc_of_Z (total_cost (history s')) /
        (Qc_of_Z (Z.of_nat (K small_config))
         * Qc_of_Z (Z.of_nat (ITER small_config))).
Proof.
  eexists _, _, _, _, _, _.
  split; [by vm_compute|]. split; [simpl; lia|]. split; [by vm_compute|].
  eapply (average_is_not_per_tour small_config example_unit3 half_source 2
    example_H3 3 example_T3); [by vm_compute|simpl; lia|by vm_compute].
Defined.

(** ** The closing edge of a tour *)

(** The deposit loop never reaches the closing edge of a tour: the last
    vertex before the return to the start occurs once among the first [n]
    positions, and the loop stops before it. *)
Lemma tour_closing_edge_not_deposited n path u v :
  tour n path →
  path !! (n - 1)%nat = Some u → path !! n = Some v →
  ¬ deposited_edge n [path] u v.
Proof.
  intros (start & body & -> & Hlen & Hnd & _) Hu Hv (p & j & Hp & Hj & Hju & _).
  apply list_elem_of_singleton in Hp as ->.
  rewrite app_comm_cons in Hu, Hju.
  rewrite lookup_app_l in Hu by lia. rewrite lookup_app_l in Hju by lia.
  pose proof (NoDup_lookup _ _ _ _ Hnd Hu Hju). lia.
Qed.

(** X7.  When a single tour is deposited, the cell of its closing edge ends
    at [(1 - RHO)] times its value before: it receives neither a deposit nor
    an elitist bonus. *)
Lemma update_pheremone_single_tour cfg n path cost elitistIndex
    (T0 : matrix) u v :
  tour n path →
  path !! (n - 1)%nat = Some u → path !! n = Some v →
  mget (update_pheremone cfg [path] [cost] n elitistIndex T0).2 u v
    = fmul (Fin (1 - RHO cfg)) <$> mget T0 u v.
Proof.
  intros Htour Hu Hv. apply update_pheremone_off_edges.
  by eapply tour_closing_edge_not_deposited.
Qed.

(** ** The cost of a path *)

Lemma path_entries_app (m : list (list Z)) (e1 e2 : list (nat * nat)) :
  path_entries m (e1 ++ e2) =
    xs ← path_entries m e1; ys ← path_entries m e2; Ret (xs ++ ys).
Proof.
  induction e1 as [|[u v] e1 IH]; simpl.
  - by destruct (path_entries m e2).
  - destruct (mget m u v) as [x|]; simpl; [|done]. rewrite IH.
    destruct (path_entries m e1) as [xs| |]; simpl; [|done..].
    by destruct (path_entries m e2).
Qed.

(** The pairs of consecutive vertices of a path: the slices [path[:-1]] and
    [path[1:]] pair up position [j] with position [j + 1]. *)
Lemma path_edges_lookup (path : list nat) j u v :
  zip (take (length path - 1) path) (drop 1 path) !! j = Some (u, v) ↔
  path !! j = Some u ∧ path !! Datatypes.S j = Some v.
Proof.
  rewrite lookup_zip_with_Some. split.
  - intros (u' & v' & [= <- <-] & Hu & Hv).
    apply lookup_take_Some in Hu as [Hu _]. by rewrite lookup_drop in Hv.
  - intros [Hu Hv]. exists u, v. split; [done|].
    rewrite lookup_drop. split; [|done].
    apply lookup_take_Some. split; [done|].
    apply lookup_lt_Some in Hv. lia.
Qed.

Lemma path_edges_length (path : list nat) :
  length (zip (take (length path - 1) path) (drop 1 path))
    = (length path - 1)%nat.
Proof. rewrite length_zip_with, length_take, length_drop. lia. Qed.

Lemma path_entries_outcome (m : list (list Z)) (edges : list (nat * nat)) :
  match path_entries m edges with
  | Ret xs =>
      length xs = length edges ∧
      ∀ j x, xs !! j = Some x →
        ∃ u v, edges !! j = Some (u, v) ∧ mget m u v = Some x
  | Raise e =>
      e = IndexError ∧ ∃ j u v, edges !! j = Some (u, v) ∧ mget m u v = None
  | OutOfFuel => False
  end.
Proof.
  induction edges as [|[u v] edges IH]; simpl.
  - split; [done|]. intros j x Hj. done.
  - destruct (mget m u v) as [x|] eqn:Hx; simpl.
    + destruct (path_entries m edges) as [xs|e|]; simpl; [| |done].
      * destruct IH as [Hlen IH]. split; [simpl; lia|].
        intros [|j] y Hj; simpl in *.
        -- exists u, v. naive_solver.
        -- by apply IH.
      * destruct IH as [-> (j & u' & v' & Hj & Hnone)]. split; [done|].
        by exists (Datatypes.S j), u', v'.
    + split; [done|]. by exists 0%nat, u, v.
Qed.

(** X1.  The cost of a path is the wrapped sum of the matrix entries at its
    consecutive pairs of vertices, the closing pair included; the only way
    to fail is [IndexError], at a pair that is not a cell of the matrix. *)
Theorem calculate_path_cost_outcome (matrix : list (list Z))
    (path : list nat) :
  match calculate_path_cost matrix path with
  | Ret c =>
      ∃ xs, length xs = (length path - 1)%nat ∧
        (∀ j x, xs !! j = Some x →
           ∃ u v, path !! j = Some u ∧ path !! Datatypes.S j = Some v ∧
             mget matrix u v = Some x) ∧
        c = wrap64 (zsum xs)
  | Raise e =>
      e = IndexError ∧
      ∃ j u v, path !! j = Some u ∧ path !! Datatypes.S j = Some v ∧
        mget matrix u v = None
  | OutOfFuel => False
  end.
Proof.
  unfold calculate_path_cost.
  pose proof (path_entries_outcome matrix
    (zip (take (length path - 1) path) (drop 1 path))) as Hout.
  destruct (path_entries matrix _) as [xs|e|]; simpl; [| |done].
  - destruct Hout as [Hlen Hxs]. exists xs.
    rewrite path_edges_length in Hlen. split; [done|]. split; [|done].
    intros j x Hj. destruct (Hxs j x Hj) as (u & v & He & Hm).
    apply path_edges_lookup in He as [Hu Hv]. by exists u, v.
  - destruct Hout as [-> (j & u & v & He & Hm)]. split; [done|].
    apply path_edges_lookup in He as [Hu Hv]. by exists j, u, v.
Qed.

Lemma path_edges_cons (a b : nat) (l : list nat) :
  zip (take (length (a :: b :: l) - 1) (a :: b :: l)) (drop 1 (a :: b :: l))
    = (a, b) :: zip (take (length (b :: l) - 1) (b :: l)) (drop 1 (b :: l)).
Proof.
  simpl. f_equal. by rewrite Nat.sub_0_r.
Qed.

Lemma path_edges_snoc (l : list nat) (a b : nat) :
  zip (take (length (l ++ [a; b]) - 1) (l ++ [a; b])) (drop 1 (l ++ [a; b]))
    = zip (take (length (l ++ [a]) - 1) (l ++ [a])) (drop 1 (l ++ [a]))
      ++ [(a, b)].
Proof.
  induction l as [|x l IH].
  - done.
  - destruct l as [|y l].
    + done.
    + change ((x :: y :: l) ++ [a; b]) with (x :: y :: (l ++ [a; b])).
      change ((x :: y :: l) ++ [a]) with (x :: y :: (l ++ [a])).
      rewrite !path_edges_cons.
      change (y :: (l ++ [a; b])) with ((y :: l) ++ [a; b]).
      change (y :: (l ++ [a])) with ((y :: l) ++ [a]).
      by rewrite IH.
Qed.

(** X2.  The cost of a cycle does not depend on the vertex it starts from:
    the cycle [a, b, ..., a] and the same cycle started at [b] have the same
    outcome, wrap-around and failure included. *)
Theorem calculate_path_cost_rotate (matrix : list (list Z)) (a b : nat)
    (rest : list nat) :
  calculate_path_cost matrix (a :: b :: rest ++ [a])
    = calculate_path_cost matrix (b :: rest ++ [a; b]).
Proof.
  unfold calculate_path_cost.
  change (a :: b :: rest ++ [a]) with (a :: b :: (rest ++ [a])).
  rewrite path_edges_cons.
  change (b :: rest ++ [a; b]) with ((b :: rest) ++ [a; b]).
  rewrite path_edges_snoc.
  change ((b :: rest) ++ [a]) with (b :: (rest ++ [a])).
  generalize (zip (take (length (b :: (rest ++ [a])) - 1) (b :: (rest ++ [a])))
                (drop 1 (b :: (rest ++ [a])))).
  intros edges. rewrite path_entries_app. simpl.
  pose proof (path_entries_outcome matrix edges) as Hout.
  destruct (mget matrix a b) as [x|]; simpl.
  - destruct (path_entries matrix edges) as [xs|e|]; simpl; [|done..].
    rewrite zsum_app. simpl. do 2 f_equal. lia.
  - destruct (path_entries matrix edges) as [xs|e|]; simpl; [done| |done].
    by destruct Hout as [-> _].
Qed.

Lemma zsum_lower (xs : list Z) :
  Forall (λ x, 0 < x)%Z xs → (Z.of_nat (length xs) ≤ zsum xs)%Z.
Proof. induction 1; simpl; lia. Qed.

(** X3.  On a distance matrix whose off-diagonal entries lie in [1..B], with
    [n * B] below [2^63], the cost of a tour is returned without wrap-around
    and lies between [n] and [n * B]. *)
Theorem calculate_path_cost_tour_bounds (n : nat) (d : list (list Z)) (B : Z)
    (path : list nat) :
  (2 ≤ n)%nat → shaped n n d → (Z.of_nat n * B < 2 ^ 63)%Z →
  (∀ i j x, i ≠ j → mget d i j = Some x → (0 < x ≤ B)%Z) →
  tour n path →
  ∃ c, calculate_path_cost d path = Ret c ∧
    (Z.of_nat n ≤ c ≤ Z.of_nat n * B)%Z.
Proof.
  intros Hn Hsh HB Hpos Htour.
  assert (good_distances n d) as Hd by (split; [done|by exists B]).
  pose proof (tour_length n path Htour) as Hlen.
  set (edges := zip (take (length path - 1) path) (drop 1 path)).
  assert (length edges = n) as Hedges.
  { unfold edges. rewrite path_edges_length. lia. }
  destruct (path_entries_ret n d Hd Hn B edges Hpos) as (xs & Hxs & Hlxs & Hbound).
  { apply Forall_lookup. intros j [u v] Hj.
    apply path_edges_lookup in Hj as [Hu Hv].
    destruct (tour_lookup n path j Htour) as (u0 & Hu0 & Hlt0).
    { apply lookup_lt_Some in Hv. lia. }
    destruct (tour_lookup n path (Datatypes.S j) Htour) as (v0 & Hv0 & Hlt1).
    { apply lookup_lt_Some in Hv. lia. }
    simplify_eq. simpl. split; [|done]. by eapply tour_edge. }
  unfold calculate_path_cost. fold edges. rewrite Hxs. simpl.
  destruct (zsum_bounds B xs Hbound) as [Hlo Hhi].
  { intros ->. simpl in Hlxs. lia. }
  assert (Z.of_nat (length xs) ≤ zsum xs)%Z as Hlow.
  { apply zsum_lower. eapply Forall_impl; [done|]. simpl. lia. }
  rewrite Hlxs, Hedges in Hhi, Hlow.
  eexists. split; [done|]. rewrite wrap64_small; lia.
Qed.

Lemma tour_3_012 : tour 3 [0; 1; 2; 0]%nat.
Proof.
  exists 0%nat, [1; 2]%nat. split; [done|]. split; [done|].
  split; [|repeat constructor].
  apply (bool_decide_unpack _). by vm_compute.
Qed.

Lemma calculate_path_cost_tour_bounds_witness :
  ∃ c, calculate_path_cost example_d3 [0; 1; 2; 0]%nat = Ret c ∧
    (Z.of_nat 3 ≤ c ≤ Z.of_nat 3 * 6)%Z.
Proof.
  apply (calculate_path_cost_tour_bounds 3 example_d3 6 [0; 1; 2; 0]%nat).
  - lia.
  - split; [done|]. by intros [|[|[|i]]] row [= <-].
  - lia.
  - intros [|[|[|i]]] [|[|[|j]]] x Hne Hx; unfold mget in Hx;
      simplify_eq/=; lia.
  - apply tour_3_012.
Defined.

(** ** The pheromone update, cell by cell *)

Lemma when_returns_for_each {S A} (I : nat → S → Prop) (l : list A)
    (body : A → M S unit) (s : S) :
  I 0%nat s →
  (∀ k x s1, l !! k = Some x → I k s1 →
     when_returns (body x) s1 (λ _ s2, I (Datatypes.S k) s2)) →
  when_returns (for_each l body) s (λ _ s', I (length l) s').
Proof.
  revert I s. induction l as [|x l IH]; intros I s H0 Hstep; simpl.
  - by apply when_returns_ret.
  - apply when_returns_bind. eapply when_returns_weaken.
    { by apply (Hstep 0%nat x s). }
    intros u s1 H1. simpl in H1. apply (IH (λ k, I (Datatypes.S k))); [done|].
    intros k y s2 Hk. by apply (Hstep (Datatypes.S k)).
Qed.

Lemma when_returns_for_range {S} (I : nat → S → Prop) (n : nat)
    (body : nat → M S unit) (s : S) :
  I 0%nat s →
  (∀ k s1, (k < n)%nat → I k s1 →
     when_returns (body k) s1 (λ _ s2, I (Datatypes.S k) s2)) →
  when_returns (for_range n body) s (λ _ s', I n s').
Proof.
  intros H0 Hstep. unfold for_range.
  pose proof (when_returns_for_each I (seq 0 n) body s H0) as Hloop.
  rewrite length_seq in Hloop. apply Hloop.
  intros k x s1 Hk. apply lookup_seq in Hk as [-> Hk]. by apply Hstep.
Qed.

Lemma qsum_snoc (l : list Qc) (x : Qc) : qsum (l ++ [x]) = qsum l + x.
Proof.
  induction l as [|y l IH]; simpl.
  - ring.
  - rewrite IH. ring.
Qed.

Lemma madd_cell (m m' : matrix) a b x u v old :
  madd a b (Fin x) m = (Ret (), m') → mget m u v = Some (Fin old) →
  mget m' u v
    = Some (Fin (old + if bool_decide (u = a ∧ v = b) then x else 0)).
Proof.
  intros E Hold. pose proof (madd_state m a b (Fin x) u v) as Hst.
  rewrite E in Hst. simpl in Hst. rewrite Hst.
  destruct (mget m a b) as [y|] eqn:Hab.
  - case_decide as Huv.
    + destruct Huv as [-> ->]. rewrite Hab in Hold. injection Hold as ->.
      by rewrite bool_decide_true.
    + rewrite bool_decide_false by done. by rewrite Hold, Qcplus_0_r.
  - exfalso. unfold madd in E. unfold mget in Hab.
    destruct (m !! a) as [row|]; simpl in Hab; [|done].
    by destruct (row !! b).
Qed.

Lemma deposit_cell (path : list nat) j x (m m' : matrix) u v old :
  deposit path j (Fin x) m = (Ret (), m') → mget m u v = Some (Fin old) →
  mget m' u v =
    Some (Fin (old +
      if bool_decide (path !! j = Some u ∧ path !! (j + 1)%nat = Some v)
      then x else 0)).
Proof.
  unfold deposit. intros E Hold. unfold mbind, M_bind, lift in E.
  destruct (path !! j) as [a|] eqn:Ha; simpl in E; [|done].
  destruct (path !! (j + 1)%nat) as [b|] eqn:Hb; simpl in E; [|done].
  rewrite (madd_cell _ _ _ _ _ _ _ _ E Hold). do 3 f_equal.
  rewrite (bool_decide_ext (u = a ∧ v = b) (Some a = Some u ∧ Some b = Some v));
    [done|].
  split; intros [? ?]; split; congruence.
Qed.

Lemma edge_count_step (path : list nat) (u v j : nat) :
  length (filter (λ j, path !! j = Some u ∧ path !! (j + 1)%nat = Some v)
            (seq 0 (Datatypes.S j)))
  = (length (filter (λ j, path !! j = Some u ∧ path !! (j + 1)%nat = Some v)
               (seq 0 j))
     + if bool_decide (path !! j = Some u ∧ path !! (j + 1)%nat = Some v)
       then 1 else 0)%nat.
Proof.
  rewrite seq_S, filter_app, length_app. f_equal. simpl.
  rewrite filter_cons, filter_nil.
  case_decide; [by rewrite bool_decide_true|by rewrite bool_decide_false].
Qed.

Lemma deposit_ant_cell cfg allPaths pathCosts n elitistIndex i
    (m m' : matrix) u v old path :
  allPaths !! i = Some path →
  deposit_ant cfg allPaths pathCosts n elitistIndex i m = (Ret (), m') →
  mget m u v = Some (Fin old) →
  mget m' u v =
    Some (Fin (old + Qc_of_Z (Z.of_nat (edge_count n path u v))
                     * ant_deposit cfg elitistIndex i
                         (default 0%Z (pathCosts !! i)))).
Proof.
  intros Hpath E Hold. revert E. unfold deposit_ant.
  unfold mbind at 1, M_bind at 1, lift at 1. rewrite Hpath. simpl.
  unfold mbind at 1, M_bind at 1, lift at 1.
  destruct (pathCosts !! i) as [cost|]; simpl; [|done].
  unfold mbind at 1, M_bind at 1, lift at 1. unfold reciprocal.
  case_decide as Hcost; simpl; [done|].
  remember (ant_deposit cfg elitistIndex i cost) as dep eqn:Hdep.
  intros E.
  apply (when_returns_for_range
    (λ j m1, mget m1 u v =
       Some (Fin (old + Qc_of_Z (Z.of_nat (length (filter
         (λ j, path !! j = Some u ∧ path !! (j + 1)%nat = Some v)
         (seq 0 j)))) * dep)))) in E; [done| |].
  { simpl. rewrite Hold. do 2 f_equal.
    change (Z.of_nat 0) with 0%Z. rewrite Z2Qc_inj_0. ring. }
  intros j m1 Hj Hm1. apply when_returns_bind.
  intros [] m2 E1. pose proof (deposit_cell _ _ _ _ _ _ _ _ E1 Hm1) as Hm2.
  intros [] m3 E2. rewrite edge_count_step.
  assert (mget m3 u v = Some (Fin
    (old + Qc_of_Z (Z.of_nat (length (filter
         (λ j, path !! j = Some u ∧ path !! (j + 1)%nat = Some v)
         (seq 0 j)))) * dep
     + (if bool_decide (path !! j = Some u ∧ path !! (j + 1)%nat = Some v)
        then dep else 0)))) as ->.
  { rewrite Hdep at 2. unfold ant_deposit.
    destruct (bool_decide (i ∈ elitistIndex) && ELITIST cfg).
    - rewrite (deposit_cell _ _ _ _ _ _ _ _ E2 Hm2). do 2 f_equal.
      case_bool_decide; ring.
    - injection E2 as <-. rewrite Hm2. do 2 f_equal.
      case_bool_decide; ring. }
  do 2 f_equal. rewrite Nat2Z.inj_add, Z2Qc_inj_add.
  destruct (bool_decide (path !! j = Some u ∧ path !! (j + 1)%nat = Some v)).
  - change (Z.of_nat 1) with 1%Z. rewrite Z2Qc_inj_1. ring.
  - change (Z.of_nat 0) with 0%Z. rewrite Z2Qc_inj_0. ring.
Qed.

(** X4.  When the update returns, a finite cell ends at [(1 - RHO)] times its
    old value plus, for every ant, its deposit (and elitist bonus) once for
    each position of the first [numVertices - 1] at which its path takes
    that edge. *)
Theorem update_pheremone_cell cfg allPaths pathCosts numVertices elitistIndex
    (T0 T' : matrix) u v q :
  update_pheremone cfg allPaths pathCosts numVertices elitistIndex T0
    = (Ret (), T') →
  mget T0 u v = Some (Fin q) →
  mget T' u v =
    Some (Fin ((1 - RHO cfg) * q
               + deposits cfg numVertices allPaths pathCosts elitistIndex
                   u v)).
Proof.
  unfold update_pheremone. intros E Hq.
  unfold mbind, M_bind, modify in E. simpl in E.
  set (terms := imap (λ i path,
          Qc_of_Z (Z.of_nat (edge_count numVertices path u v))
          * ant_deposit cfg elitistIndex i (default 0%Z (pathCosts !! i)))
        allPaths).
  apply (when_returns_for_range
    (λ k m, mget m u v =
       Some (Fin ((1 - RHO cfg) * q + qsum (take k terms))))) in E.
  - rewrite E. unfold deposits. fold terms.
    rewrite take_ge; [done|]. unfold terms. by rewrite length_imap.
  - simpl. unfold scale. rewrite mget_fmap, Hq. simpl. do 2 f_equal. ring.
  - intros i m1 Hi Hm1 [] m2 E1.
    destruct (lookup_lt_is_Some_2 allPaths i Hi) as [path Hpath].
    rewrite (deposit_ant_cell _ _ _ _ _ _ _ _ _ _ _ path Hpath E1 Hm1).
    rewrite (take_S_r terms i
      (Qc_of_Z (Z.of_nat (edge_count numVertices path u v))
       * ant_deposit cfg elitistIndex i (default 0%Z (pathCosts !! i)))).
    + rewrite qsum_snoc. do 2 f_equal. ring.
    + unfold terms. by rewrite list_lookup_imap, Hpath.
Qed.

Lemma update_pheremone_cell_witness :
  ∃ T', update_pheremone source_config [[0; 1; 2; 0]%nat] [10%Z] 3 []
          example_T3 = (Ret (), T') ∧
    mget example_T3 0 1 = Some (Fin (Qc_of_Z 1)) ∧
    mget T' 0 1 =
      Some (Fin ((1 - RHO source_config) * Qc_of_Z 1
                 + deposits source_config 3 [[0; 1; 2; 0]%nat] [10%Z] []
                     0 1)).
Proof.
  eexists. split; [by vm_compute|]. split; [done|].
  eapply (update_pheremone_cell source_config [[0; 1; 2; 0]%nat] [10%Z] 3 []
            example_T3); [by vm_compute|done].
Defined.

(** ** When the pheromone update returns *)

Lemma madd_cells (m : matrix) a b x u v :
  is_Some (mget (madd a b x m).2 u v) ↔ is_Some (mget m u v).
Proof.
  rewrite madd_state. destruct (mget m a b) as [old|] eqn:Hab; [|done].
  case_decide as Huv; [|done]. destruct Huv as [-> ->]. by rewrite Hab.
Qed.

Lemma deposit_inv (path : list nat) j x (m m' : matrix) :
  deposit path j x m = (Ret (), m') →
  (∃ u v, path !! j = Some u ∧ path !! (j + 1)%nat = Some v ∧
     is_Some (mget m u v)) ∧
  ∀ a b, is_Some (mget m' a b) ↔ is_Some (mget m a b).
Proof.
  unfold deposit. intros E. unfold mbind, M_bind, lift in E.
  destruct (path !! j) as [u|] eqn:Hu; simpl in E; [|done].
  destruct (path !! (j + 1)%nat) as [v|] eqn:Hv; simpl in E; [|done].
  split.
  - exists u, v. split; [done|]. split; [done|].
    unfold madd in E. unfold mget.
    destruct (m !! u) as [row|]; simpl; [|done].
    by destruct (row !! v).
  - intros a b. rewrite <- (madd_cells m u v x a b). by rewrite E.
Qed.

Lemma deposit_ok (path : list nat) j x (m : matrix) u v :
  path !! j = Some u → path !! (j + 1)%nat = Some v → is_Some (mget m u v) →
  ∃ m', deposit path j x m = (Ret (), m') ∧
    ∀ a b, is_Some (mget m' a b) ↔ is_Some (mget m a b).
Proof.
  intros Hu Hv [old Hold]. unfold deposit, mbind, M_bind, lift.
  rewrite Hu, Hv. simpl.
  exists (madd u v x m).2. split; [|intros a b; apply madd_cells].
  unfold madd. unfold mget in Hold.
  destruct (m !! u) as [row|]; simpl in Hold; [|done].
  by rewrite Hold.
Qed.

Lemma scale_cells (c : float) (m : matrix) u v :
  is_Some (mget (scale c m) u v) ↔ is_Some (mget m u v).
Proof. unfold scale. rewrite mget_fmap. apply fmap_is_Some. Qed.

Lemma deposit_ant_inv cfg allPaths pathCosts n elitistIndex i
    (T0 m m' : matrix) path :
  allPaths !! i = Some path →
  (∀ a b, is_Some (mget m a b) ↔ is_Some (mget T0 a b)) →
  deposit_ant cfg allPaths pathCosts n elitistIndex i m = (Ret (), m') →
  (∀ a b, is_Some (mget m' a b) ↔ is_Some (mget T0 a b)) ∧
  (∃ cost, pathCosts !! i = Some cost ∧ cost ≠ 0%Z) ∧
  ∀ j, (j < n - 1)%nat →
    ∃ u v, path !! j = Some u ∧ path !! (j + 1)%nat = Some v ∧
      is_Some (mget T0 u v).
Proof.
  intros Hpath Hm. unfold deposit_ant.
  unfold mbind at 1, M_bind at 1, lift at 1. rewrite Hpath. simpl.
  unfold mbind at 1, M_bind at 1, lift at 1.
  destruct (pathCosts !! i) as [cost|]; simpl; [|done].
  unfold mbind at 1, M_bind at 1, lift at 1. unfold reciprocal.
  case_decide as Hcost; simpl; [done|]. intros E.
  apply (when_returns_for_range
    (λ k m1, (∀ a b, is_Some (mget m1 a b) ↔ is_Some (mget T0 a b)) ∧
       ∀ j, (j < k)%nat →
         ∃ u v, path !! j = Some u ∧ path !! (j + 1)%nat = Some v ∧
           is_Some (mget T0 u v))) in E.
  - destruct E as [Hm' Hj]. split; [done|]. split; [by exists cost|done].
  - split; [done|]. intros j Hj. lia.
  - intros j m1 Hj [Hm1 Hbelow]. apply when_returns_bind.
    intros [] m2 E1. apply deposit_inv in E1 as [(u & v & Hu & Hv & Huv) Hm2].
    assert (∀ a b, is_Some (mget m2 a b) ↔ is_Some (mget T0 a b)) as Hm2'.
    { intros a b. by rewrite Hm2. }
    assert (∀ j', (j' < Datatypes.S j)%nat →
      ∃ u v, path !! j' = Some u ∧ path !! (j' + 1)%nat = Some v ∧
        is_Some (mget T0 u v)) as Hnext.
    { intros j' Hj'. destruct (decide (j' = j)) as [->|Hne].
      - exists u, v. by rewrite <- Hm1.
      - apply Hbelow. lia. }
    destruct (bool_decide (i ∈ elitistIndex) && ELITIST cfg).
    + intros [] m3 E2. apply deposit_inv in E2 as [_ Hm3].
      split; [|done]. intros a b. by rewrite Hm3.
    + intros [] m3 [= <-]. done.
Qed.

Lemma deposit_ant_ok cfg allPaths pathCosts n elitistIndex i
    (T0 m : matrix) path :
  update_defined n allPaths pathCosts T0 →
  allPaths !! i = Some path →
  (∀ a b, is_Some (mget m a b) ↔ is_Some (mget T0 a b)) →
  returns (deposit_ant cfg allPaths pathCosts n elitistIndex i) m
    (λ _ m', ∀ a b, is_Some (mget m' a b) ↔ is_Some (mget T0 a b)).
Proof.
  intros Hdef Hpath Hm. destruct (Hdef i path Hpath) as [(cost & Hc & Hne) Hj].
  unfold deposit_ant.
  apply returns_bind. eapply returns_lift; [by rewrite Hpath|].
  apply returns_bind. eapply returns_lift; [by rewrite Hc|].
  apply returns_bind. eapply returns_lift.
  { unfold reciprocal. by rewrite decide_False. }
  apply (returns_for_range
    (λ _ m1, ∀ a b, is_Some (mget m1 a b) ↔ is_Some (mget T0 a b))); [done|].
  intros j m1 Hjlt Hm1. destruct (Hj j Hjlt) as (u & v & Hu & Hv & Huv).
  apply returns_bind.
  destruct (deposit_ok path j (Fin (1 / Qc_of_Z cost)) m1 u v Hu Hv)
    as (m2 & E2 & Hm2); [by rewrite Hm1|].
  exists (), m2. split; [done|].
  assert (∀ a b, is_Some (mget m2 a b) ↔ is_Some (mget T0 a b)) as Hm2'.
  { intros a b. by rewrite Hm2. }
  destruct (bool_decide (i ∈ elitistIndex) && ELITIST cfg).
  - destruct (deposit_ok path j (Fin (Qc_of_Z cost * ELITISTFACTOR cfg))
      m2 u v Hu Hv) as (m3 & E3 & Hm3); [by rewrite Hm2'|].
    exists (), m3. split; [done|]. intros a b. by rewrite Hm3.
  - by apply returns_ret.
Qed.

Lemma bind_returns_or_raises {S A B} (m : M S A) (f : A → M S B) s :
  returns_or_raises (m s).1 →
  (∀ a s1, returns_or_raises (f a s1).1) →
  returns_or_raises ((m ≫= f) s).1.
Proof.
  intros Hm Hf. unfold mbind, M_bind.
  destruct (m s) as [[a|e|] s1]; simpl in *; auto.
Qed.

Lemma for_each_returns_or_raises {S A} (l : list A) (body : A → M S unit) s :
  (∀ x s1, returns_or_raises (body x s1).1) →
  returns_or_raises (for_each l body s).1.
Proof.
  intros Hbody. revert s. induction l as [|x l IH]; intros s; simpl; [done|].
  apply bind_returns_or_raises; [apply Hbody|]. intros _ s1. apply IH.
Qed.

Lemma index_returns_or_raises {S A} (o : option A) (s : S) :
  returns_or_raises (lift (index o) s).1.
Proof. destruct o; simpl; auto. Qed.

Lemma deposit_returns_or_raises (path : list nat) j x (m : matrix) :
  returns_or_raises (deposit path j x m).1.
Proof.
  unfold deposit.
  apply bind_returns_or_raises; [apply index_returns_or_raises|].
  intros u m1.
  apply bind_returns_or_raises; [apply index_returns_or_raises|].
  intros v m2. unfold madd.
  destruct (m2 !! u) as [row|]; simpl; [|auto].
  destruct (row !! v); simpl; auto.
Qed.

Lemma deposit_ant_returns_or_raises cfg allPaths pathCosts n elitistIndex i
    (m : matrix) :
  returns_or_raises
    (deposit_ant cfg allPaths pathCosts n elitistIndex i m).1.
Proof.
  unfold deposit_ant.
  apply bind_returns_or_raises; [apply index_returns_or_raises|].
  intros path m1.
  apply bind_returns_or_raises; [apply index_returns_or_raises|].
  intros cost m2. apply bind_returns_or_raises.
  { unfold lift, reciprocal. case_decide; simpl; auto. }
  intros delta m3. apply for_each_returns_or_raises. intros j m4.
  apply bind_returns_or_raises; [apply deposit_returns_or_raises|].
  intros _ m5.
  destruct (bool_decide (i ∈ elitistIndex) && ELITIST cfg);
    [apply deposit_returns_or_raises|done].
Qed.

Lemma update_pheremone_defined_iff cfg allPaths pathCosts numVertices
    elitistIndex (T0 : matrix) :
  (update_pheremone cfg allPaths pathCosts numVertices elitistIndex T0).1
    = Ret () ↔
  update_defined numVertices allPaths pathCosts T0.
Proof.
  unfold update_pheremone. split.
  - destruct ((modify (scale (Fin (1 - RHO cfg)));;
               for_range (length allPaths)
                 (deposit_ant cfg allPaths pathCosts numVertices elitistIndex))
              T0) as [o T'] eqn:E.
    simpl. intros ->. unfold mbind, M_bind, modify in E. simpl in E.
    apply (when_returns_for_range
      (λ k m, (∀ a b, is_Some (mget m a b) ↔ is_Some (mget T0 a b)) ∧
         ∀ i path, (i < k)%nat → allPaths !! i = Some path →
           (∃ cost, pathCosts !! i = Some cost ∧ cost ≠ 0%Z) ∧
           ∀ j, (j < numVertices - 1)%nat →
             ∃ u v, path !! j = Some u ∧ path !! (j + 1)%nat = Some v ∧
               is_Some (mget T0 u v))) in E.
    + destruct E as [_ Hall]. intros i path Hpath. apply Hall; [|done].
      by eapply lookup_lt_Some.
    + split; [intros a b; apply scale_cells|]. intros i path Hi. lia.
    + intros i m1 Hi [Hm1 Hbelow] [] m2 E1.
      destruct (lookup_lt_is_Some_2 allPaths i Hi) as [path Hpath].
      destruct (deposit_ant_inv _ _ _ _ _ _ _ _ _ _ Hpath Hm1 E1)
        as (Hm2 & Hcost & Hedges).
      split; [done|]. intros i' path' Hi' Hpath'.
      destruct (decide (i' = i)) as [->|Hne].
      * rewrite Hpath in Hpath'. by injection Hpath' as <-.
      * apply Hbelow; [lia|done].
  - intros Hdef.
    assert (returns
      (modify (scale (Fin (1 - RHO cfg)));;
       for_range (length allPaths)
         (deposit_ant cfg allPaths pathCosts numVertices elitistIndex)) T0
      (λ _ _, True)) as ([] & T' & -> & _); [|done].
    apply returns_bind. eexists _, _. split; [done|].
    eapply returns_weaken.
    { apply (returns_for_range
        (λ _ m, ∀ a b, is_Some (mget m a b) ↔ is_Some (mget T0 a b))).
      - intros a b. apply scale_cells.
      - intros i m1 Hi Hm1.
        destruct (lookup_lt_is_Some_2 allPaths i Hi) as [path Hpath].
        by eapply deposit_ant_ok. }
    done.
Qed.

(** X5.  The update returns exactly when every path has a nonzero cost and
    its first [numVertices] positions hold vertices whose consecutive pairs
    are cells of the matrix; otherwise it raises [ZeroDivisionError] or
    [IndexError]. *)
Theorem update_pheremone_returns_iff cfg allPaths pathCosts numVertices
    elitistIndex (T0 : matrix) :
  ((update_pheremone cfg allPaths pathCosts numVertices elitistIndex T0).1
     = Ret () ↔
   update_defined numVertices allPaths pathCosts T0) ∧
  ((update_pheremone cfg allPaths pathCosts numVertices elitistIndex T0).1
     = Ret () ∨
   (update_pheremone cfg allPaths pathCosts numVertices elitistIndex T0).1
     = Raise ZeroDivisionError ∨
   (update_pheremone cfg allPaths pathCosts numVertices elitistIndex T0).1
     = Raise IndexError).
Proof.
  split; [apply update_pheremone_defined_iff|].
  assert (returns_or_raises
    (update_pheremone cfg allPaths pathCosts numVertices elitistIndex T0).1)
    as Hout.
  { unfold update_pheremone. apply bind_returns_or_raises; [done|].
    intros _ m1. apply for_each_returns_or_raises. intros i m2.
    apply deposit_ant_returns_or_raises. }
  destruct (update_pheremone cfg allPaths pathCosts numVertices elitistIndex
              T0).1 as [[]|e|]; simpl in Hout.
  - by left.
  - right. destruct Hout as [->| ->]; auto.
  - done.
Qed.

(** ** The pheromone update on tours *)

Lemma update_pheremone_single_tour_witness :
  tour 3 [0; 1; 2; 0]%nat ∧
  [0; 1; 2; 0]%nat !! (3 - 1)%nat = Some 2%nat ∧
  [0; 1; 2; 0]%nat !! 3%nat = Some 0%nat ∧
  mget (update_pheremone source_config [[0; 1; 2; 0]%nat] [10%Z] 3 []
          example_T3).2 2 0
    = fmul (Fin (1 - RHO source_config)) <$> mget example_T3 2 0.
Proof.
  split; [apply tour_3_012|]. split; [done|]. split; [done|].
  by apply (update_pheremone_single_tour source_config 3 [0; 1; 2; 0]%nat 10
              [] example_T3 2 0 tour_3_012).
Defined.

(** ** The heuristic of a long edge *)

(** [round] sends everything in [(0, 1/2]] to [0]: the tie at one half goes
    to the even neighbour. *)
Lemma py_round_small (y : Qc) : 0 < y → y ≤ Q2Qc (1 # 2) → py_round y = 0%Z.
Proof.
  intros Hpos Hle. unfold py_round.
  pose proof (Qfloor_le y) as Hlo. pose proof (Qlt_floor y) as Hhi.
  rewrite inject_Z_plus in Hhi. change (inject_Z 1) with 1%Q in Hhi.
  qc_unfold_in Hpos. qc_unfold_in Hle.
  assert (Qfloor y = 0%Z) as ->.
  { assert (Qfloor y < 1)%Z.
    { rewrite Zlt_Qlt. change (inject_Z 1) with 1%Q. lra. }
    assert (-1 < Qfloor y)%Z.
    { rewrite Zlt_Qlt. change (inject_Z (-1)) with (-1)%Q. lra. }
    lia. }
  repeat case_decide; try done.
  qc_unfold_in H0. change (inject_Z 0) with 0%Q in H0. lra.
Qed.

Lemma py_round_large (y : Qc) : Q2Qc (1 # 2) < y → (0 < py_round y)%Z.
Proof.
  intros Hgt. pose proof (py_round_lower y) as Hlo.
  apply Z2Qc_inj_lt. rewrite Z2Qc_inj_0.
  qc_unfold_in Hgt. qc_unfold_in Hlo. qc_unfold_goal. lra.
Qed.

Lemma heuristic_value_threshold cfg (i j : nat) (x : Z) :
  i ≠ j → 0 < Qh cfg → (0 < x)%Z →
  ∃ q, heuristic_value cfg i j x = Fin q ∧ 0 ≤ q ∧
    (0 < q ↔ Qc_of_Z x < Qc_of_Z 20000 * Qh cfg).
Proof.
  intros Hne HQ Hx. unfold heuristic_value. rewrite decide_False by done.
  assert (0 < Qc_of_Z x) as HX.
  { rewrite <- Z2Qc_inj_0. by apply (proj1 (Z2Qc_inj_lt _ _)). }
  assert (Qc_of_Z x ≠ 0) as HX0.
  { intros E. rewrite E in HX. by apply Qclt_not_eq in HX. }
  unfold fdiv. rewrite decide_False by done. simpl.
  eexists. split; [done|]. unfold py_round_ndigits.
  change (10 ^ Z.of_nat 4)%Z with 10000%Z.
  generalize HX HX0. generalize (Qc_of_Z x). clear HX HX0. intros X HX HX0.
  set (y := Qh cfg / X * Qc_of_Z 10000).
  assert (y * X = Qh cfg * Qc_of_Z 10000) as Ey.
  { unfold y. by field. }
  assert (0 < y) as Hy.
  { unfold y. apply Qcmult_pos_pos.
    2: { rewrite <- Z2Qc_inj_0. apply (proj1 (Z2Qc_inj_lt _ _)). lia. }
    unfold Qcdiv. apply Qcmult_pos_pos; [done|by apply Qcinv_pos]. }
  assert (∀ r : Z, Qc_of_Z r / Qc_of_Z 10000 * Qc_of_Z 10000 = Qc_of_Z r)
    as Hscale.
  { intros r. field. rewrite <- Z2Qc_inj_0. intros E%Z2Qc_inj. lia. }
  destruct (Qclt_le_dec (Q2Qc (1 # 2)) y) as [Hbig|Hsmall].
  - pose proof (py_round_large y Hbig) as Hr.
    apply (proj1 (Z2Qc_inj_lt _ _)) in Hr. rewrite Z2Qc_inj_0 in Hr.
    assert (0 < Qc_of_Z (py_round y) / Qc_of_Z 10000) as Hq.
    { unfold Qcdiv. apply Qcmult_pos_pos; [done|]. by apply Qcinv_pos. }
    split; [by apply Qclt_le_weak|]. split; [intros _|done].
    qc_unfold_in Ey. qc_unfold_in Hbig. qc_unfold_in HX. qc_unfold_goal.
    change (inject_Z 10000) with 10000%Q in Ey.
    change (inject_Z 20000) with 20000%Q. nra.
  - rewrite (py_round_small y Hy Hsmall).
    assert (Qc_of_Z 0 / Qc_of_Z 10000 = 0) as ->.
    { unfold Qcdiv. rewrite Z2Qc_inj_0. apply Qcmult_0_l. }
    split; [done|]. split; [intros H0; by apply Qclt_not_eq in H0|].
    intros Hlt. exfalso.
    qc_unfold_in Ey. qc_unfold_in Hsmall. qc_unfold_in HX. qc_unfold_in Hlt.
    qc_unfold_in Hy.
    change (inject_Z 10000) with 10000%Q in Ey.
    change (inject_Z 20000) with 20000%Q in Hlt. nra.
Qed.

(** X8.  With a positive [Q] and positive distances, the heuristic of an edge
    is a non-negative finite number, and it is positive exactly when the
    distance is below [20000 * Q]: from there on [Q / d] rounds to [0.0] at
    four decimals, the tie at [0.00005] included. *)
Theorem calculate_heuristic_threshold cfg n (d : list (list Z)) nv :
  shaped n n d → 0 < Qh cfg →
  (∀ i j x, i ≠ j → mget d i j = Some x → (0 < x)%Z) →
  ∃ H, calculate_heuristic cfg n d nv = Ret H ∧ shaped n n H ∧
    ∀ i j x, i ≠ j → mget d i j = Some x →
      ∃ q, mget H i j = Some (Fin q) ∧ 0 ≤ q ∧
        (0 < q ↔ Qc_of_Z x < Qc_of_Z 20000 * Qh cfg).
Proof.
  intros Hd HQ Hpos.
  destruct (calculate_heuristic_cells cfg n d nv Hd)
    as (H & Hrun & Hsh & Hcells).
  exists H. split; [done|]. split; [done|].
  intros i j x Hne Hx. rewrite (Hcells _ _ _ Hx).
  destruct (heuristic_value_threshold cfg i j x Hne HQ (Hpos _ _ _ Hne Hx))
    as (q & -> & Hq). by exists q.
Qed.

Lemma calculate_heuristic_threshold_witness :
  ∃ H, calculate_heuristic source_config 3 example_far3 3 = Ret H ∧
    shaped 3 3 H ∧
    ∀ i j x, i ≠ j → mget example_far3 i j = Some x →
      ∃ q, mget H i j = Some (Fin q) ∧ 0 ≤ q ∧
        (0 < q ↔ Qc_of_Z x < Qc_of_Z 20000 * Qh source_config).
Proof.
  apply (calculate_heuristic_threshold source_config 3 example_far3 3).
  - split; [done|]. by intros [|[|[|i]]] row [= <-].
  - by vm_compute.
  - intros [|[|[|i]]] [|[|[|j]]] x Hne Hx; unfold mget in Hx;
      simplify_eq/=; lia.
Defined.

(** ** The shape of every path an ant returns *)

Lemma select_in_range (P : vector) rand CP vertices i :
  select P rand CP vertices = Ret (Some i) → i ∈ vertices.
Proof.
  revert CP. induction vertices as [|j rest IH]; intros CP; simpl; [done|].
  destruct (P !! j) as [p|]; simpl; [|done].
  destruct (fge (fadd CP p) rand).
  - intros [= ->]. apply elem_of_cons. by left.
  - intros E. apply elem_of_cons. right. by eapply IH.
Qed.

Lemma construct_shape cfg src n fuel : ∀ (H : matrix) (path : list nat) curr s,
  Forall (λ v, v < n)%nat path →
  when_returns (construct cfg src fuel n H path curr) s (λ path' _,
    length path' = n ∧ path `prefix_of` path' ∧
    Forall (λ v, v < n)%nat path').
Proof.
  induction fuel as [|fuel IH]; intros H path curr s Hlt.
  - simpl. case_decide; [|done]. by apply when_returns_ret.
  - rewrite construct_unfold. case_decide; [by apply when_returns_ret|].
    apply when_returns_bind, when_returns_lift. intros H' _.
    apply when_returns_bind. intros s1 s2 [= <- <-].
    apply when_returns_bind, when_returns_lift. intros P _.
    apply when_returns_bind. intros rand s3 _.
    apply when_returns_bind, when_returns_lift. intros [i|] Hsel.
    + apply select_in_range, elem_of_seq in Hsel.
      eapply when_returns_weaken.
      { apply IH. apply Forall_app. split; [done|].
        apply Forall_singleton. lia. }
      intros path' _ (Hlen & Hpre & Hall). split; [done|]. split; [|done].
      etrans; [|exact Hpre]. by apply prefix_app_r.
    + by apply IH.
Qed.

(** X9.  Whatever the matrices and the draws, a path that an ant returns has
    [numVertices + 1] vertices, all of them in range, and ends at the
    vertex it starts from; building it changes neither the pheromone matrix
    nor the record of the colonies. *)
Theorem ant_path_shape cfg src fuel (H1 : matrix) n s path s' :
  valid_source src →
  ant cfg src fuel H1 n s = (Ret path, s') →
  length path = Datatypes.S n ∧ head path = last path ∧
  Forall (λ v, v < n)%nat path ∧ framed s s'.
Proof.
  intros [Hint _] E.
  assert (framed s s') as Hfr.
  { pose proof (ant_framed cfg src fuel H1 n s s) as Hfr.
    rewrite E in Hfr. by apply Hfr. }
  revert E. unfold ant. unfold mbind at 1, M_bind at 1, random_randint.
  destruct n as [|hi]; [done|].
  set (start := randint_at src (rng s) hi).
  assert (start < Datatypes.S hi)%nat as Hstart.
  { unfold start. pose proof (Hint (rng s) hi). lia. }
  unfold mbind, M_bind.
  destruct (construct cfg src fuel (Datatypes.S hi) H1 [start] start _)
    as [[path0|e|] s1] eqn:E0; [|done..].
  intros [= <- <-].
  apply construct_shape in E0 as (Hlen & [rest ->] & Hall);
    [|by apply Forall_singleton].
  split; [rewrite length_app; simpl in *; lia|].
  split; [|split; [|done]].
  - rewrite last_snoc. done.
  - apply Forall_app. split; [done|]. by apply Forall_singleton.
Qed.

Lemma one_zero_source_valid : valid_source one_zero_source.
Proof.
  split; [intros; simpl; lia|]. intros p. simpl.
  case_decide; split; by vm_compute.
Qed.

Lemma ant_path_shape_witness :
  ∃ path s',
    ant source_config one_zero_source 3 example_H3 3
      (initial_store example_T3) = (Ret path, s') ∧
    length path = 4%nat ∧ head path = last path ∧
    Forall (λ v, v < 3)%nat path ∧ framed (initial_store example_T3) s'.
Proof.
  eexists _, _. split; [by vm_compute|].
  eapply (ant_path_shape source_config one_zero_source 3 example_H3 3
            (initial_store example_T3));
    [apply one_zero_source_valid|by vm_compute].
Defined.

(** ** The roulette wheel *)

(** While the cumulative sum stays below the draw, the vertex at which it
    reaches the draw has a probability above [0.0]. *)
Lemma select_positive_from (P : vector) (r : Qc) (CP : float) vertices i :
  fge CP (Fin r) = false →
  select P (Fin r) CP vertices = Ret (Some i) →
  ∃ p, P !! i = Some p ∧ fpositive p.
Proof.
  revert CP. induction vertices as [|j rest IH]; intros CP Hcp; simpl; [done|].
  destruct (P !! j) as [p|] eqn:Hp; simpl; [|done].
  destruct (fge (fadd CP p) (Fin r)) eqn:E.
  - intros [= <-]. exists p. split; [done|].
    destruct CP as [c| | |], p as [q| | |]; simpl in *; try done.
    apply bool_decide_eq_true in E. apply bool_decide_eq_false in Hcp.
    apply Qcnot_le_lt in Hcp.
    destruct (Qclt_le_dec 0 q) as [|Hle]; [done|]. exfalso.
    apply (Qclt_not_le _ _ Hcp). etrans; [exact E|].
    rewrite <- (Qcplus_0_r c) at 2. by apply Qcplus_le_mono_l.
  - by apply IH.
Qed.

(** X11.  On a draw above [0.0] the walk along the cumulative sum only ever
    picks a vertex of the list whose probability is above [0.0], never one
    whose probability is [0.0] or [nan]: the sum does not move at a
    probability of [0.0] and compares false once it is [nan]. *)
Theorem select_picks_positive (P : vector) (r : Qc) vertices i :
  0 < r →
  select P (Fin r) fzero vertices = Ret (Some i) →
  i ∈ vertices ∧ ∃ p, P !! i = Some p ∧ fpositive p.
Proof.
  intros Hr Hsel. split; [by eapply select_in_range|].
  eapply select_positive_from; [|exact Hsel].
  simpl. apply bool_decide_eq_false. by apply Qclt_not_le.
Qed.

Lemma select_picks_positive_witness :
  0 < Q2Qc (1 # 2) ∧
  select [fzero; NaN; Fin (Q2Qc (1 # 2))] (Fin (Q2Qc (1 # 2))) fzero
    [0; 1; 2]%nat = Ret None ∧
  select [fzero; Fin (Q2Qc (1 # 2)); Fin (Q2Qc (1 # 2))] (Fin (Q2Qc (1 # 2)))
    fzero [0; 1; 2]%nat = Ret (Some 1%nat) ∧
  (1%nat ∈ [0; 1; 2]%nat ∧
   ∃ p, [fzero; Fin (Q2Qc (1 # 2)); Fin (Q2Qc (1 # 2))] !! 1%nat = Some p ∧
     fpositive p).
Proof.
  split; [by vm_compute|]. split; [by vm_compute|]. split; [by vm_compute|].
  apply (select_picks_positive
           [fzero; Fin (Q2Qc (1 # 2)); Fin (Q2Qc (1 # 2))] (Q2Qc (1 # 2))
           [0; 1; 2]%nat 1); by vm_compute.
Defined.

(** ** The transition rule *)

Lemma zero_columns_cells path (H H' : matrix) i j :
  zero_columns path H = Ret H' →
  mget H' i j = (λ x, if decide (j ∈ path) then fzero else x) <$> mget H i j.
Proof.
  unfold zero_columns. case_decide; [|done]. intros [= <-].
  unfold mget. rewrite list_lookup_fmap.
  destruct (H !! i) as [row|]; simpl; [|done].
  by rewrite list_lookup_imap.
Qed.

Lemma zero_columns_shaped n k path (H H' : matrix) :
  zero_columns path H = Ret H' → shaped n k H → shaped n k H'.
Proof.
  unfold zero_columns. case_decide; [|done]. intros [= <-] [Hlen Hrows].
  split; [by rewrite length_fmap|].
  intros i row. rewrite list_lookup_fmap.
  destruct (H !! i) as [row0|] eqn:E; simpl; [|done].
  intros [= <-]. rewrite length_imap. by eapply Hrows.
Qed.

Lemma fpow_zero (k : nat) : (1 ≤ k)%nat → fpow fzero k = fzero.
Proof.
  intros Hk. unfold fzero. rewrite fpow_fin. f_equal. apply Qcpower_0. lia.
Qed.

Lemma fmul_zero_r (x : float) : fmul x fzero = fzero ∨ fmul x fzero = NaN.
Proof.
  destruct x as [a| | |]; simpl; [|by right..].
  left. unfold fzero. f_equal. apply Qcmult_0_r.
Qed.

Lemma fdiv_zero_l (x den : float) :
  x = fzero ∨ x = NaN → fdiv x den = fzero ∨ fdiv x den = NaN.
Proof.
  intros [->| ->]; [|by right].
  destruct den as [b| | |]; simpl; [|by left..|by right].
  case_decide; [by right|]. left. unfold fzero. f_equal.
  unfold Qcdiv. apply Qcmult_0_l.
Qed.

(** The probability of a visited vertex is [0.0], or [nan] when the
    division is by a sum that is zero, infinite or [nan]. *)
Lemma transition_at_visited cfg n (T0 H H' : matrix) path curr P j p :
  (1 ≤ BETA cfg)%nat → shaped n n T0 → shaped n n H →
  zero_columns path H = Ret H' →
  transition cfg T0 H' curr = Ret P →
  j ∈ path → P !! j = Some p → p = fzero ∨ p = NaN.
Proof.
  intros Hbeta [_ HrowsT] HH Hz HP Hj Hp.
  pose proof (zero_columns_shaped n n path H H' Hz HH) as [_ HrowsH].
  revert HP. unfold transition, desirability.
  destruct (T0 !! curr) as [Trow|] eqn:HTrow; simpl; [|done].
  destruct (H' !! curr) as [Hrow|] eqn:HHrow; simpl; [|done].
  unfold broadcast.
  rewrite decide_True
    by by rewrite !length_fmap, (HrowsT _ _ HTrow), (HrowsH _ _ HHrow).
  simpl. intros [= <-].
  rewrite list_lookup_fmap in Hp.
  destruct (zip_with fmul _ _ !! j) as [x|] eqn:Hx; simpl in Hp; [|done].
  injection Hp as <-. apply fdiv_zero_l.
  apply lookup_zip_with_Some in Hx as (a & b & -> & Ha & Hb).
  rewrite list_lookup_fmap in Hb.
  destruct (Hrow !! j) as [h|] eqn:Hh; simpl in Hb; [|done].
  injection Hb as <-.
  assert (mget H' curr j = Some h) as Hcell
    by by rewrite (mget_lookup _ _ _ _ HHrow).
  rewrite (zero_columns_cells path H H' curr j Hz) in Hcell.
  destruct (mget H curr j) as [h0|]; simpl in Hcell; [|done].
  rewrite decide_True in Hcell by done. injection Hcell as <-.
  rewrite fpow_zero by done. apply fmul_zero_r.
Qed.

(** X12.  The transition rule excludes the visited vertices: with
    [BETA >= 1] and [n × n] matrices, a step has [n] probabilities, and the
    probability [P[j]] of a vertex [j] whose column of [H] has been zeroed
    is [0.0], or [nan] when the sum of the desirabilities is zero, infinite
    or [nan], whatever the pheromones. *)
Theorem transition_visited cfg n (T0 H H' : matrix) path curr P :
  (1 ≤ BETA cfg)%nat → shaped n n T0 → shaped n n H →
  zero_columns path H = Ret H' →
  transition cfg T0 H' curr = Ret P →
  length P = n ∧
  ∀ j p, j ∈ path → P !! j = Some p → p = fzero ∨ p = NaN.
Proof.
  intros Hbeta HT HH Hz HP. split.
  - pose proof (zero_columns_shaped n n path H H' Hz HH) as [_ HrowsH].
    destruct HT as [_ HrowsT].
    revert HP. unfold transition, desirability.
    destruct (T0 !! curr) as [Trow|] eqn:HTrow; simpl; [|done].
    destruct (H' !! curr) as [Hrow|] eqn:HHrow; simpl; [|done].
    unfold broadcast.
    rewrite decide_True
      by by rewrite !length_fmap, (HrowsT _ _ HTrow), (HrowsH _ _ HHrow).
    simpl. intros [= <-].
    rewrite length_fmap, length_zip_with, !length_fmap.
    rewrite (HrowsT _ _ HTrow), (HrowsH _ _ HHrow). lia.
  - intros j p Hj Hp.
    by eapply (transition_at_visited cfg n T0 H H' path curr P).
Qed.

Lemma transition_visited_witness :
  ∃ H' P,
    zero_columns [0%nat] example_H3 = Ret H' ∧
    transition source_config example_T3 H' 0 = Ret P ∧
    length P = 3%nat ∧
    ∀ j p, j ∈ [0%nat] → P !! j = Some p → p = fzero ∨ p = NaN.
Proof.
  eexists _, _. split; [by vm_compute|]. split; [by vm_compute|].
  eapply (transition_visited source_config 3 example_T3 example_H3 _
            [0%nat] 0).
  - simpl. lia.
  - apply (proj1 example_T3_good).
  - apply example_H3_shaped.
  - by vm_compute.
  - by vm_compute.
Defined.

(** ** The path of an ant when no draw is zero *)

Lemma fpositive_not_zero (p : float) : fpositive p → ¬ (p = fzero ∨ p = NaN).
Proof.
  intros Hp [->| ->]; simpl in Hp; [|done].
  by apply Qclt_not_eq in Hp.
Qed.

(** The [while] loop never appends a visited vertex when no draw is [0.0]:
    a path without repetitions stays without repetitions. *)
Lemma construct_nodup cfg src n fuel :
  (1 ≤ BETA cfg)%nat → positive_draws src →
  ∀ (H : matrix) (path : list nat) curr s,
  shaped n n (T s) → shaped n n H → NoDup path →
  when_returns (construct cfg src fuel n H path curr) s
    (λ path' _, NoDup path').
Proof.
  intros Hbeta Hdraws.
  induction fuel as [|fuel IH]; intros H path curr s HT HH Hnd.
  - simpl. case_decide; [|done]. by apply when_returns_ret.
  - rewrite construct_unfold. case_decide; [by apply when_returns_ret|].
    apply when_returns_bind, when_returns_lift. intros H' Hz.
    pose proof (zero_columns_shaped n n path H H' Hz HH) as HH'.
    apply when_returns_bind. intros s1 s2 [= <- <-].
    apply when_returns_bind, when_returns_lift. intros P HP.
    apply when_returns_bind. intros rand s3 [= <- <-].
    apply when_returns_bind, when_returns_lift. intros [i|] Hsel.
    + apply select_positive_from in Hsel as (p & Hp & Hpos).
      2:{ simpl. apply bool_decide_eq_false. apply Qclt_not_le, Hdraws. }
      apply IH; [done|done|].
      apply NoDup_app. split; [done|]. split; [|apply NoDup_singleton].
      intros x Hx ->%list_elem_of_singleton.
      apply (fpositive_not_zero p Hpos).
      by eapply (transition_at_visited cfg n (T s) H H' path curr P).
    + by apply IH.
Qed.

(** When [BETA >= 1] and no draw is [0.0], the path an ant returns on
    [n × n] matrices is a tour. *)
Lemma ant_tour cfg src n fuel (H1 : matrix) s path s' :
  (1 ≤ BETA cfg)%nat → valid_source src → positive_draws src →
  shaped n n (T s) → shaped n n H1 →
  ant cfg src fuel H1 n s = (Ret path, s') →
  tour n path.
Proof.
  intros Hbeta [Hint _] Hdraws HT HH. unfold ant.
  unfold mbind at 1, M_bind at 1, random_randint.
  destruct n as [|hi]; [done|].
  set (start := randint_at src (rng s) hi).
  assert (start < Datatypes.S hi)%nat as Hstart.
  { unfold start. pose proof (Hint (rng s) hi). lia. }
  unfold mbind, M_bind.
  destruct (construct cfg src fuel (Datatypes.S hi) H1 [start] start _)
    as [[path0|e|] s1] eqn:E0; [|done..].
  intros [= <- <-].
  pose proof E0 as E1.
  apply construct_shape in E0 as (Hlen & [rest ->] & Hall);
    [|by apply Forall_singleton].
  apply (construct_nodup cfg src (Datatypes.S hi) fuel Hbeta Hdraws) in E1;
    [|done|done|apply NoDup_singleton].
  exists start, rest. done.
Qed.

(** X10.  When [BETA >= 1] and no draw of [random.random()] is [0.0], every
    path that an ant returns on [n × n] matrices is a Hamiltonian cycle,
    whatever the entries of the matrices: [numVertices + 1] vertices, the
    first [numVertices] of them a permutation of all vertices, the last one
    the first again. *)
Theorem ant_returns_hamiltonian_cycle cfg src n fuel (H1 : matrix) s path
    s' :
  (1 ≤ BETA cfg)%nat → valid_source src → positive_draws src →
  shaped n n (T s) → shaped n n H1 →
  ant cfg src fuel H1 n s = (Ret path, s') →
  length path = Datatypes.S n ∧ head path = last path ∧
  take n path ≡ₚ seq 0 n.
Proof.
  intros Hbeta Hsrc Hdraws HT HH E.
  by eapply tour_hamiltonian, ant_tour.
Qed.

Lemma ant_returns_hamiltonian_cycle_witness :
  ∃ path s',
    ant source_config half_source 2 example_H3 3 (initial_store example_T3)
      = (Ret path, s') ∧
    length path = 4%nat ∧ head path = last path ∧
    take 3 path ≡ₚ seq 0 3.
Proof.
  eexists _, _. split; [by vm_compute|].
  eapply (ant_returns_hamiltonian_cycle source_config half_source 3 2
            example_H3 (initial_store example_T3)).
  - simpl. lia.
  - apply half_source_valid.
  - apply half_source_positive.
  - apply (proj1 example_T3_good).
  - apply example_H3_shaped.
  - by vm_compute.
Defined.

(** ** A run on a graph whose edges are all long *)

Lemma bind_out_of_fuel {S A B} (m : M S A) (f : A → M S B) s :
  (m s).1 = OutOfFuel → ((m ≫= f) s).1 = OutOfFuel.
Proof.
  unfold mbind, M_bind. by destruct (m s) as [[a|e|] s1].
Qed.

Lemma desirability_zero cfg n (T0 H : matrix) curr :
  (1 ≤ BETA cfg)%nat →
  shaped n n T0 → (∀ i j x, mget T0 i j = Some x → finite x) →
  shaped n n H → (∀ i j x, mget H i j = Some x → x = fzero) →
  (curr < n)%nat →
  ∃ N, desirability cfg T0 H curr = Ret N ∧ length N = n ∧
    Forall (λ x, x = fzero) N.
Proof.
  intros Hbeta [HTlen HTrows] HTfin [HHlen HHrows] HHzero Hcurr.
  destruct (lookup_lt_is_Some_2 T0 curr) as [Trow HTrow]; [lia|].
  destruct (lookup_lt_is_Some_2 H curr) as [Hrow HHrow]; [lia|].
  pose proof (HTrows _ _ HTrow) as HlenT.
  pose proof (HHrows _ _ HHrow) as HlenH.
  unfold desirability. rewrite HTrow, HHrow. simpl. unfold broadcast.
  rewrite decide_True by by rewrite !length_fmap, HlenT, HlenH.
  eexists. split; [done|]. split.
  - rewrite length_zip_with, !length_fmap. lia.
  - apply Forall_lookup. intros j x Hj.
    apply lookup_zip_with_Some in Hj as (a & b & -> & Ha & Hb).
    rewrite list_lookup_fmap in Ha, Hb.
    destruct (Trow !! j) as [t|] eqn:Ht; simpl in Ha; [|done].
    destruct (Hrow !! j) as [h|] eqn:Hh; simpl in Hb; [|done].
    injection Ha as <-. injection Hb as <-.
    destruct (HTfin curr j t) as [q ->].
    { by rewrite (mget_lookup _ _ _ _ HTrow). }
    rewrite (HHzero curr j h) by by rewrite (mget_lookup _ _ _ _ HHrow).
    unfold fzero. rewrite !fpow_fin. simpl. f_equal.
    rewrite Qcpower_0 by lia. apply Qcmult_0_r.
Qed.

(** With a heuristic matrix of zeros no round of the [while] loop selects a
    vertex, whatever is visited so far. *)
Lemma construct_zero_heuristic cfg src n fuel :
  ∀ (H : matrix) (path : list nat) curr s,
  (1 ≤ BETA cfg)%nat → (0 < n)%nat →
  shaped n n (T s) → (∀ i j x, mget (T s) i j = Some x → finite x) →
  shaped n n H → (∀ i j x, mget H i j = Some x → x = fzero) →
  length path ≠ n → Forall (λ v, v < n)%nat path → (curr < n)%nat →
  (construct cfg src fuel n H path curr s).1 = OutOfFuel.
Proof.
  induction fuel as [|fuel IH];
    intros H path curr s Hbeta Hn HTsh HTfin HHsh HHzero Hlen Hpath Hcurr;
    simpl.
  - by rewrite decide_False.
  - rewrite decide_False by done.
    destruct (zero_columns_ret n H path Hn HHsh Hpath)
      as (H' & Hz & HHsh' & Hcells).
    assert (∀ i j x, mget H' i j = Some x → x = fzero) as HHzero'.
    { intros i j x. rewrite Hcells.
      destruct (mget H i j) as [y|] eqn:Hy; simpl; [|done].
      intros [= <-]. case_decide; [done|]. by eapply HHzero. }
    destruct (desirability_zero cfg n (T s) H' curr Hbeta HTsh HTfin HHsh'
                HHzero' Hcurr) as (N & HN & HlenN & Hzero).
    destruct (transition_zero cfg (T s) H' curr N HN Hzero)
      as (P & HP & HlenP & Hnan).
    unfold mbind at 1, M_bind, lift at 1. rewrite Hz.
    unfold mbind at 1, M_bind, get.
    unfold mbind at 1, M_bind, lift at 1. rewrite HP.
    unfold mbind at 1, M_bind, random_random.
    unfold mbind at 1, M_bind, lift at 1.
    rewrite select_nan; [|done|].
    + by apply IH.
    + apply Forall_forall. intros i Hi%elem_of_seq. lia.
Qed.

Lemma ant_zero_heuristic cfg src n fuel (H : matrix) s :
  (1 ≤ BETA cfg)%nat → (2 ≤ n)%nat → valid_source src →
  shaped n n (T s) → (∀ i j x, mget (T s) i j = Some x → finite x) →
  shaped n n H → (∀ i j x, mget H i j = Some x → x = fzero) →
  (ant cfg src fuel H n s).1 = OutOfFuel.
Proof.
  intros Hbeta Hn [Hint _] HTsh HTfin HHsh HHzero.
  unfold ant. unfold mbind at 1, M_bind at 1, random_randint.
  destruct n as [|hi]; [lia|].
  pose proof (Hint (rng s) hi) as Hstart.
  apply bind_out_of_fuel.
  apply construct_zero_heuristic; try done.
  - lia.
  - simpl. lia.
  - apply Forall_singleton. lia.
  - lia.
Qed.

(** X13.  When every distance is at least [20000 * Q], the heuristic matrix
    is all zeros and, with finite pheromones, the first ant of the first
    iteration never completes its path: whatever the fuel, the run is still
    in that ant's [while] loop. *)
Theorem run_never_returns_on_long_edges cfg (d : list (list Z)) src n nv
    (T0 : matrix) :
  (2 ≤ n)%nat → (1 ≤ K cfg)%nat → (1 ≤ ITER cfg)%nat → (1 ≤ BETA cfg)%nat →
  0 < Qh cfg → valid_source src →
  shaped n n d →
  (∀ i j x, i ≠ j → mget d i j = Some x →
     Qc_of_Z 20000 * Qh cfg ≤ Qc_of_Z x) →
  shaped n n T0 → (∀ i j x, mget T0 i j = Some x → finite x) →
  ∃ H, calculate_heuristic cfg n d nv = Ret H ∧
    (∀ i j x, mget H i j = Some x → x = fzero) ∧
    ∀ fuel,
      (ant_colony_optimisation cfg d src fuel H n (initial_store T0)).1
        = OutOfFuel.
Proof.
  intros Hn HK HITER Hbeta HQ Hsrc Hd Hfar HTsh HTfin.
  destruct (calculate_heuristic_cells cfg n d nv Hd)
    as (H & Hrun & Hsh & Hcells).
  exists H. split; [done|].
  assert (∀ i j x, mget H i j = Some x → x = fzero) as Hzero.
  { intros i j y Hy.
    destruct (mget_shaped n n H i j y Hsh Hy) as [Hi Hj].
    destruct (shaped_mget n n d i j Hd Hi Hj) as [x Hx].
    rewrite (Hcells _ _ _ Hx) in Hy. injection Hy as <-.
    destruct (decide (i = j)) as [->|Hne].
    { unfold heuristic_value. by rewrite decide_True. }
    pose proof (Hfar i j x Hne Hx) as Hx20.
    assert (0 < x)%Z as Hx0.
    { apply Z2Qc_inj_lt. rewrite Z2Qc_inj_0.
      eapply Qclt_le_trans; [|exact Hx20].
      apply Qcmult_pos_pos; [|done].
      rewrite <- Z2Qc_inj_0. apply (proj1 (Z2Qc_inj_lt _ _)). lia. }
    destruct (heuristic_value_threshold cfg i j x Hne HQ Hx0)
      as (q & -> & Hq0 & Hq).
    unfold fzero. f_equal. apply Qcle_antisym; [|done].
    apply Qcnot_lt_le. intros Hpos. apply Hq in Hpos.
    by apply Qclt_not_le in Hpos. }
  split; [done|].
  intros fuel. unfold ant_colony_optimisation.
  apply bind_out_of_fuel.
  destruct (ITER cfg) as [|iter]; [lia|].
  rewrite <- cons_seq. simpl for_fold. apply bind_out_of_fuel.
  unfold iteration. apply bind_out_of_fuel.
  destruct (K cfg) as [|k]; [lia|].
  rewrite <- cons_seq. simpl for_fold. do 2 apply bind_out_of_fuel.
  by apply ant_zero_heuristic.
Qed.

Lemma run_never_returns_on_long_edges_witness :
  ∃ H, calculate_heuristic source_config 3 example_far3 3 = Ret H ∧
    (∀ i j x, mget H i j = Some x → x = fzero) ∧
    ∀ fuel,
      (ant_colony_optimisation source_config example_far3 half_source fuel
         H 3 (initial_store example_T3)).1 = OutOfFuel.
Proof.
  apply (run_never_returns_on_long_edges source_config example_far3
           half_source 3 3 example_T3).
  - lia.
  - simpl. lia.
  - simpl. lia.
  - simpl. lia.
  - by vm_compute.
  - apply half_source_valid.
  - split; [done|]. by intros [|[|[|i]]] row [= <-].
  - intros [|[|[|i]]] [|[|[|j]]] x Hne Hx; unfold mget in Hx;
      simplify_eq/=; by vm_compute.
  - apply example_T3_good.
  - intros i j x Hx. destruct (proj2 example_T3_good i j x Hx) as (q & -> & _).
    by exists q.
Defined.

(** ** [sorted] sorts *)

Lemma insert_sorted_sorted {A} (key : A → Z) (x : A) (l : list A) :
  StronglySorted (λ a b, key a ≤ key b)%Z l →
  StronglySorted (λ a b, key a ≤ key b)%Z (insert_sorted key x l).
Proof.
  induction 1 as [|y l Hl IH Hy]; simpl.
  - by repeat constructor.
  - case_decide as Hxy.
    + constructor; [by constructor|]. constructor; [done|].
      eapply Forall_impl; [exact Hy|]. simpl. intros z Hz. lia.
    + constructor; [done|].
      rewrite (insert_sorted_perm key x l). constructor; [lia|done].
Qed.

Lemma sorted_sorted {A} (key : A → Z) (l : list A) :
  StronglySorted (λ a b, key a ≤ key b)%Z (sorted key l).
Proof.
  induction l as [|x l IH]; simpl; [constructor|].
  by apply insert_sorted_sorted.
Qed.

(** The first element of the sorted list has the least key. *)
Lemma sorted_head_min {A} (key : A → Z) (l : list A) (b : A) :
  head (sorted key l) = Some b →
  b ∈ l ∧ ∀ y, y ∈ l → (key b ≤ key y)%Z.
Proof.
  intros Hb. split.
  { rewrite <- (sorted_perm key l). by apply head_Some_elem_of. }
  intros y Hy. rewrite <- (sorted_perm key l) in Hy.
  pose proof (sorted_sorted key l) as Hs.
  destruct (sorted key l) as [|b' rest]; [done|]. injection Hb as ->.
  apply StronglySorted_inv in Hs as [_ Hall].
  apply elem_of_cons in Hy as [->|Hy]; [lia|].
  rewrite Forall_forall in Hall. by apply Hall.
Qed.

Lemma strongly_sorted_last {A} (key : A → Z) (l : list A) (w : A) :
  StronglySorted (λ a b, key a ≤ key b)%Z l → last l = Some w →
  ∀ y, y ∈ l → (key y ≤ key w)%Z.
Proof.
  induction 1 as [|x l Hl IH Hx]; [done|]. intros Hw y Hy.
  destruct l as [|x' l].
  - injection Hw as <-. apply list_elem_of_singleton in Hy as ->. lia.
  - change (last (x :: x' :: l)) with (last (x' :: l)) in Hw.
    apply elem_of_cons in Hy as [->|Hy]; [|by apply IH].
    rewrite Forall_forall in Hx. apply Hx. by apply last_Some_elem_of.
Qed.

(** The last element of the sorted list has the greatest key. *)
Lemma sorted_last_max {A} (key : A → Z) (l : list A) (w : A) :
  last (sorted key l) = Some w →
  w ∈ l ∧ ∀ y, y ∈ l → (key y ≤ key w)%Z.
Proof.
  intros Hw. split.
  { rewrite <- (sorted_perm key l). by apply last_Some_elem_of. }
  intros y Hy. rewrite <- (sorted_perm key l) in Hy.
  by eapply strongly_sorted_last; [apply sorted_sorted|..].
Qed.

Lemma strongly_sorted_app {A} (R : A → A → Prop) (l1 l2 : list A) x y :
  StronglySorted R (l1 ++ l2) → x ∈ l1 → y ∈ l2 → R x y.
Proof.
  induction l1 as [|z l1 IH]; simpl; intros Hs Hx Hy.
  - by apply elem_of_nil in Hx.
  - apply StronglySorted_inv in Hs as [Hs Hz].
    apply elem_of_cons in Hx as [->|Hx]; [|by apply IH].
    rewrite Forall_forall in Hz. apply Hz. apply elem_of_app. by right.
Qed.

(** ** One iteration, in full *)

Lemma when_returns_on_T {A} (m : M matrix A) s (Q : A → store → Prop) :
  when_returns m (T s)
    (λ a T', Q a {| T := T'; rng := rng s; history := history s |}) →
  when_returns (on_T m) s Q.
Proof.
  intros Hm a s' E. unfold on_T in E.
  destruct (m (T s)) as [o T'] eqn:Em. injection E as -> <-. by apply Hm.
Qed.

(** Everything one iteration has done when it returns: each of its [K]
    paths was returned by an ant that saw the pheromone matrix of the start
    of the iteration; the pheromone matrix at the end is the one the update
    leaves. *)
Lemma iteration_inv cfg (d : list (list Z)) src fuel (H1 : matrix) n st s :
  when_returns (iteration cfg d src fuel H1 n st) s (λ st' s',
    ∃ allPaths pathCosts best worst,
      length allPaths = K cfg ∧
      Forall (λ path, ∃ s1 s2,
        framed s s1 ∧ ant cfg src fuel H1 n s1 = (Ret path, s2)) allPaths ∧
      path_costs d allPaths = Ret pathCosts ∧
      update_pheremone cfg allPaths pathCosts n
        (if ELITIST cfg then elitist_index cfg pathCosts else []) (T s)
        = (Ret (), T s') ∧
      head (sorted fst (zip pathCosts allPaths)) = Some best ∧
      last (sorted fst (zip pathCosts allPaths)) = Some worst ∧
      st' = track_worst (track_best (add_to_avg st pathCosts) best) worst ∧
      history s' = history s ++ [zip pathCosts allPaths]).
Proof.
  unfold iteration. apply when_returns_bind.
  eapply when_returns_weaken.
  { apply (when_returns_for_fold
      (λ k allPaths s1, length allPaths = k ∧ framed s s1 ∧
         Forall (λ path, ∃ s1 s2,
           framed s s1 ∧ ant cfg src fuel H1 n s1 = (Ret path, s2))
           allPaths)).
    - by repeat split.
    - intros k _ allPaths s1 _ (Hlen & Hfr & Hall). apply when_returns_bind.
      intros path s2 E. apply when_returns_ret.
      split; [rewrite length_app; simpl; lia|]. split.
      + pose proof (ant_framed cfg src fuel H1 n s s1 Hfr) as Hfr2.
        by rewrite E in Hfr2.
      + apply Forall_app. split; [done|]. apply Forall_singleton.
        by exists s1, s2. }
  intros allPaths s1 (Hlen & [HT1 Hh1] & Hall). rewrite length_seq in Hlen.
  apply when_returns_bind, when_returns_lift. intros pathCosts Hcosts.
  apply when_returns_bind.
  assert (when_returns
    (on_T (update_pheremone cfg allPaths pathCosts n
       (if ELITIST cfg then elitist_index cfg pathCosts else []))) s1
    (λ _ s2, update_pheremone cfg allPaths pathCosts n
        (if ELITIST cfg then elitist_index cfg pathCosts else []) (T s)
        = (Ret (), T s2) ∧ history s2 = history s)) as Hupd.
  { apply when_returns_on_T. intros [] T' E. simpl. by rewrite <- HT1. }
  apply (when_returns_weaken _ _
    (λ _ s2, update_pheremone cfg allPaths pathCosts n
        (if ELITIST cfg then elitist_index cfg pathCosts else []) (T s)
        = (Ret (), T s2) ∧ history s2 = history s)).
  { destruct (ELITIST cfg); exact Hupd. }
  intros u s2 [Hup Hh2]. simpl.
  apply when_returns_bind, when_returns_lift. intros best Hbest%index_ret.
  apply when_returns_bind, when_returns_lift. intros worst Hworst%index_ret.
  apply when_returns_bind. intros [] s3 E.
  unfold record_colony in E. injection E as <-.
  apply when_returns_ret. exists allPaths, pathCosts, best, worst.
  simpl. by rewrite Hh2.
Qed.

(** An invariant of the iterations holds of the tracker and the store the
    loop returns. *)
Lemma iterations_invariant cfg (d : list (list Z)) src fuel (H1 : matrix) n
    (I : tracker → store → Prop) s0 :
  I initial_tracker s0 →
  (∀ st s st' s', I st s →
     iteration cfg d src fuel H1 n st s = (Ret st', s') → I st' s') →
  when_returns
    (for_fold (seq 0 (ITER cfg))
       (λ _ st, iteration cfg d src fuel H1 n st) initial_tracker) s0 I.
Proof.
  intros H0 Hstep. eapply when_returns_weaken.
  { apply (when_returns_for_fold (λ _ st s, I st s)); [done|].
    intros k _ st s _ HI st' s' E. by eapply Hstep. }
  done.
Qed.

(** What a returning run is made of: the loop over the iterations returned
    a tracker, and the average was computed from it. *)
Lemma run_inv cfg (d : list (list Z)) src fuel (H1 : matrix) n s0 bc bp wc wp
    a s' :
  ant_colony_optimisation cfg d src fuel H1 n s0
    = (Ret (bc, bp, wc, wp, a), s') →
  ∃ st,
    for_fold (seq 0 (ITER cfg))
      (λ _ st, iteration cfg d src fuel H1 n st) initial_tracker s0
      = (Ret st, s') ∧
    average cfg (avg st) = Ret a ∧
    bc = bestPathCost st ∧ bp = bestPath st ∧
    wc = worsePathCost st ∧ wp = worstPath st.
Proof.
  unfold ant_colony_optimisation. unfold mbind at 1, M_bind at 1.
  destruct (for_fold _ _ _ s0) as [[st|e|] s1]; simpl; [|by intros [=]..].
  unfold mbind, M_bind, lift.
  destruct (average cfg (avg st)) as [a'|e|] eqn:Ea; simpl;
    [|by intros [=]..].
  intros [= <- <- <- <- <- <-]. by exists st.
Qed.

(** ** The best and the worst tour of a run *)

Lemma concat_snoc {A} (hs : list (list A)) (c : list A) :
  concat (hs ++ [c]) = concat hs ++ c.
Proof. rewrite concat_app. simpl. by rewrite (right_id_L [] (++)). Qed.

(** X14.  When a run returns, no recorded tour costs less than the best cost
    it returns or more than the worst cost it returns; the best pair is a
    recorded tour with its cost, unless no tour cost less than
    [1000000000] and the initial pair is returned, and likewise for the
    worst pair and [10]. *)
Theorem run_best_and_worst cfg (d : list (list Z)) src fuel (H1 : matrix) n
    (T0 : matrix) bc bp wc wp a s' :
  ant_colony_optimisation cfg d src fuel H1 n (initial_store T0)
    = (Ret (bc, bp, wc, wp, a), s') →
  Forall (λ cp : Z * list nat, (bc ≤ cp.1 ≤ wc)%Z) (concat (history s')) ∧
  (bc ≤ 1000000000)%Z ∧ (10 ≤ wc)%Z ∧
  ((bc, bp) ∈ concat (history s') ∨ (bc = 1000000000%Z ∧ bp = [])) ∧
  ((wc, wp) ∈ concat (history s') ∨ (wc = 10%Z ∧ wp = [])).
Proof.
  intros Hrun. apply run_inv in Hrun as (st & Hloop & _ & -> & -> & -> & ->).
  revert st s' Hloop.
  apply (iterations_invariant cfg d src fuel H1 n (λ st s,
    Forall (λ cp : Z * list nat,
      (bestPathCost st ≤ cp.1 ≤ worsePathCost st)%Z) (concat (history s)) ∧
    (bestPathCost st ≤ 1000000000)%Z ∧ (10 ≤ worsePathCost st)%Z ∧
    ((bestPathCost st, bestPath st) ∈ concat (history s) ∨
     (bestPathCost st = 1000000000%Z ∧ bestPath st = [])) ∧
    ((worsePathCost st, worstPath st) ∈ concat (history s) ∨
     (worsePathCost st = 10%Z ∧ worstPath st = [])))).
  { simpl. split; [constructor|]. split; [done|]. split; [done|].
    split; by right. }
  intros st s st' s1 (Hall & Hb & Hw & Hbest & Hworst) E.
  apply iteration_inv in E
    as (allPaths & pathCosts & [bC bP] & [wC wP] & _ & _ & _ & _
        & Hhead & Hlast & -> & ->).
  apply sorted_head_min in Hhead as [Hbin Hmin].
  apply sorted_last_max in Hlast as [Hwin Hmax].
  pose proof (Hmax _ Hbin) as Hbw. simpl in Hbw.
  rewrite concat_snoc.
  assert (Forall (λ cp : Z * list nat, (bC ≤ cp.1 ≤ wC)%Z)
            (zip pathCosts allPaths)) as Hnew.
  { apply Forall_forall. intros y Hy.
    pose proof (Hmin y Hy). pose proof (Hmax y Hy). simpl in *. lia. }
  assert (∀ b w : Z, (b ≤ bestPathCost st)%Z → (b ≤ bC)%Z →
            (worsePathCost st ≤ w)%Z → (wC ≤ w)%Z →
            Forall (λ cp : Z * list nat, (b ≤ cp.1 ≤ w)%Z)
              (concat (history s) ++ zip pathCosts allPaths)) as Hboth.
  { intros b w ? ? ? ?. apply Forall_app. split.
    - eapply Forall_impl; [exact Hall|]. simpl. intros. lia.
    - eapply Forall_impl; [exact Hnew|]. simpl. intros. lia. }
  unfold track_worst, track_best, add_to_avg.
  repeat case_decide; simpl in *;
    (split; [apply Hboth; lia|]); (split; [lia|]); (split; [lia|]); split;
    first
      [ by left; apply elem_of_app; right
      | by destruct Hbest as [?|?]; [left; apply elem_of_app; left|right]
      | by destruct Hworst as [?|?]; [left; apply elem_of_app; left|right] ].
Qed.

Lemma run_best_and_worst_witness :
  ∃ bc bp wc wp a s',
    ant_colony_optimisation small_config example_d3 half_source 2
      example_H3 3 (initial_store example_T3)
      = (Ret (bc, bp, wc, wp, a), s') ∧
    Forall (λ cp : Z * list nat, (bc ≤ cp.1 ≤ wc)%Z) (concat (history s')) ∧
    (bc ≤ 1000000000)%Z ∧ (10 ≤ wc)%Z ∧
    ((bc, bp) ∈ concat (history s') ∨ (bc = 1000000000%Z ∧ bp = [])) ∧
    ((wc, wp) ∈ concat (history s') ∨ (wc = 10%Z ∧ wp = [])).
Proof.
  eexists _, _, _, _, _, _. split; [by vm_compute|].
  eapply (run_best_and_worst small_config example_d3 half_source 2
            example_H3 3 example_T3).
  by vm_compute.
Defined.

(** ** The costs and the average of a run *)

Lemma path_costs_zip (d : list (list Z)) allPaths pathCosts :
  path_costs d allPaths = Ret pathCosts →
  Forall (λ cp : Z * list nat, calculate_path_cost d cp.2 = Ret cp.1)
    (zip pathCosts allPaths).
Proof.
  revert pathCosts.
  induction allPaths as [|path rest IH]; intros pathCosts; simpl.
  - intros [= <-]. constructor.
  - destruct (calculate_path_cost d path) as [c| |] eqn:Ec; simpl; [|done..].
    destruct (path_costs d rest) as [cs| |]; simpl; [|done..].
    intros [= <-]. simpl. constructor; [done|]. by apply IH.
Qed.

Lemma py_round_nonneg (y : Qc) : 0 ≤ y → (0 ≤ py_round y)%Z.
Proof.
  intros Hy. pose proof (py_round_lower y) as Hlo.
  assert (-1 < py_round y)%Z; [|lia].
  apply Z2Qc_inj_lt. qc_unfold_in Hy. qc_unfold_in Hlo. qc_unfold_goal.
  change (inject_Z (-1)) with (-1)%Q. change (this 0) with 0%Q in Hy. lra.
Qed.

Lemma py_round_nonpos (y : Qc) : y ≤ 0 → (py_round y ≤ 0)%Z.
Proof.
  intros Hy. pose proof (py_round_upper y) as Hhi.
  assert (py_round y < 1)%Z; [|lia].
  apply Z2Qc_inj_lt. qc_unfold_in Hy. qc_unfold_in Hhi. qc_unfold_goal.
  change (inject_Z 1) with 1%Q. change (this 0) with 0%Q in Hy. lra.
Qed.

(** X15.  When a run returns, every recorded cost is the cost
    [calculate_path_cost] gives for the tour recorded with it on the global
    distance matrix, [K] is not zero, and the fifth result has the sign of
    the total of all recorded costs: it is not negative when the total is
    not negative, and not positive when the total is not positive. *)
Theorem run_costs_and_average cfg (d : list (list Z)) src fuel (H1 : matrix)
    n (T0 : matrix) bc bp wc wp a s' :
  ant_colony_optimisation cfg d src fuel H1 n (initial_store T0)
    = (Ret (bc, bp, wc, wp, a), s') →
  Forall (λ cp : Z * list nat, calculate_path_cost d cp.2 = Ret cp.1)
    (concat (history s')) ∧
  K cfg ≠ 0%nat ∧
  ((0 ≤ total_cost (history s'))%Z → (0 ≤ a)%Z) ∧
  ((total_cost (history s') ≤ 0)%Z → (a ≤ 0)%Z).
Proof.
  intros Hrun. split.
  - apply run_inv in Hrun as (st & Hloop & _). revert st s' Hloop.
    apply (iterations_invariant cfg d src fuel H1 n (λ _ s,
      Forall (λ cp : Z * list nat, calculate_path_cost d cp.2 = Ret cp.1)
        (concat (history s)))).
    { constructor. }
    intros st s st' s1 Hall E.
    apply iteration_inv in E
      as (allPaths & pathCosts & best & worst & _ & _ & Hcosts & _
          & _ & _ & _ & ->).
    rewrite concat_snoc. apply Forall_app. split; [done|].
    by apply path_costs_zip.
  - destruct (ant_colony_optimisation_when_returns cfg d src fuel H1 n _ _ _
                Hrun) as (hs & _ & _ & _ & _ & Hh & _ & _ & _ & Havg & _).
    simpl in Hh, Havg. rewrite <- Hh in Havg. unfold average in Havg.
    case_decide as HK; [done|]. injection Havg as <-.
    split; [done|].
    assert (0 < Qc_of_Z (Z.of_nat (K cfg))) as HKpos.
    { rewrite <- Z2Qc_inj_0. apply (proj1 (Z2Qc_inj_lt _ _)). lia. }
    assert (0 ≤ Qc_of_Z (Z.of_nat (ITER cfg))) as HIpos.
    { rewrite <- Z2Qc_inj_0. apply (proj1 (Z2Qc_inj_le _ _)). lia. }
    pose proof (Qcinv_pos _ HKpos) as HKinv.
    split; intros Htot.
    + apply py_round_nonneg.
      assert (0 ≤ Qc_of_Z (total_cost (history s'))) as Ht.
      { rewrite <- Z2Qc_inj_0. by apply (proj1 (Z2Qc_inj_le _ _)). }
      apply Qcmult_nonneg_nonneg; [|done]. unfold Qcdiv.
      apply Qcmult_nonneg_nonneg; [done|by apply Qclt_le_weak].
    + apply py_round_nonpos.
      assert (Qc_of_Z (total_cost (history s')) ≤ 0) as Ht.
      { rewrite <- Z2Qc_inj_0. by apply (proj1 (Z2Qc_inj_le _ _)). }
      revert Ht HKinv HIpos. unfold Qcdiv.
      generalize (Qc_of_Z (total_cost (history s')))
        (/ Qc_of_Z (Z.of_nat (K cfg))) (Qc_of_Z (Z.of_nat (ITER cfg))).
      intros t k i Ht Hk Hi.
      qc_unfold_in Ht. qc_unfold_in Hk. qc_unfold_in Hi. qc_unfold_goal.
      change (this 0) with 0%Q in *.
      assert (this t * this k <= 0)%Q as Htk by nra. nra.
Qed.

Lemma run_costs_and_average_witness :
  ∃ bc bp wc wp a s',
    ant_colony_optimisation small_config example_d3 half_source 2
      example_H3 3 (initial_store example_T3)
      = (Ret (bc, bp, wc, wp, a), s') ∧
    Forall (λ cp : Z * list nat,
      calculate_path_cost example_d3 cp.2 = Ret cp.1)
      (concat (history s')) ∧
    K small_config ≠ 0%nat ∧
    ((0 ≤ total_cost (history s'))%Z → (0 ≤ a)%Z) ∧
    ((total_cost (history s') ≤ 0)%Z → (a ≤ 0)%Z).
Proof.
  eexists _, _, _, _, _, _. split; [by vm_compute|].
  eapply (run_costs_and_average small_config example_d3 half_source 2
            example_H3 3 example_T3).
  by vm_compute.
Defined.

Lemma best_tracker_sentinel_witness :
  ∃ bc bp wc wp a s',
    ant_colony_optimisation small_config
      [[0; 1000000000; 1000000000]; [1000000000; 0; 1000000000];
       [1000000000; 1000000000; 0]]%Z
      half_source 2 example_H3 3 (initial_store example_T3)
      = (Ret (bc, bp, wc, wp, a), s') ∧
    Forall (Forall (λ cp : Z * list nat, (1000000000 ≤ cp.1)%Z))
      (history s') ∧
    bc = 1000000000%Z ∧ bp = [].
Proof.
  eexists _, _, _, _, _, _.
  split; [by vm_compute|]. split; [by repeat constructor|].
  eapply (best_tracker_sentinel small_config
    [[0; 1000000000; 1000000000]; [1000000000; 0; 1000000000];
     [1000000000; 1000000000; 0]]%Z
    half_source 2 example_H3 3 example_T3);
    [by vm_compute|by repeat constructor].
Defined.

(** ** A whole run, iteration by iteration *)

(** What every path of a returning run satisfies, when every path an ant
    returns from a state of the run does. *)
Lemma run_paths cfg (d : list (list Z)) src fuel (H1 : matrix) n
    (I : matrix → Prop) (Φ : list nat → Prop) (T0 : matrix) r s' :
  I T0 →
  (∀ allPaths pathCosts elitistIndex T1, I T1 →
     I (update_pheremone cfg allPaths pathCosts n elitistIndex T1).2) →
  (∀ s1 s2 path, I (T s1) →
     ant cfg src fuel H1 n s1 = (Ret path, s2) → Φ path) →
  ant_colony_optimisation cfg d src fuel H1 n (initial_store T0)
    = (Ret r, s') →
  Forall (Forall (λ cp : Z * list nat,
    Φ cp.2 ∧ calculate_path_cost d cp.2 = Ret cp.1)) (history s').
Proof.
  intros HI Hupd Hant Hrun. destruct r as [[[[bc bp] wc] wp] a].
  apply run_inv in Hrun as (st & Hloop & _).
  revert st s' Hloop.
  apply (iterations_invariant cfg d src fuel H1 n (λ _ s,
    I (T s) ∧
    Forall (Forall (λ cp : Z * list nat,
      Φ cp.2 ∧ calculate_path_cost d cp.2 = Ret cp.1)) (history s))).
  { split; [done|constructor]. }
  intros st s st' s1 [HIs Hall] E.
  apply iteration_inv in E
    as (allPaths & pathCosts & best & worst & _ & Hants & Hcosts & Hup
        & _ & _ & _ & ->).
  split.
  { specialize (Hupd allPaths pathCosts
      (if ELITIST cfg then elitist_index cfg pathCosts else []) (T s) HIs).
    by rewrite Hup in Hupd. }
  apply Forall_app. split; [done|]. apply Forall_singleton.
  pose proof (path_costs_zip d allPaths pathCosts Hcosts) as Hzip.
  apply Forall_lookup. intros k [c path] Hk. split.
  - apply list_elem_of_lookup_2 in Hk as Hin.
    apply elem_of_zip_r in Hin. simpl.
    rewrite Forall_forall in Hants.
    destruct (Hants path Hin) as (s2 & s3 & [HT2 _] & Hret).
    eapply Hant; [|exact Hret]. by rewrite HT2.
  - rewrite Forall_lookup in Hzip. by apply (Hzip k (c, path)).
Qed.

(** The best and the worst pair a run returns are recorded pairs, unless
    they are the pairs the trackers start from. *)
Lemma run_extremes cfg (d : list (list Z)) src fuel (H1 : matrix) n s0 bc bp
    wc wp a s' :
  history s0 = [] →
  ant_colony_optimisation cfg d src fuel H1 n s0
    = (Ret (bc, bp, wc, wp, a), s') →
  ((bc, bp) ∈ concat (history s') ∨ (bc = 1000000000%Z ∧ bp = [])) ∧
  ((wc, wp) ∈ concat (history s') ∨ (wc = 10%Z ∧ wp = [])).
Proof.
  intros Hh0 Hrun.
  apply run_inv in Hrun as (st & Hloop & _ & -> & -> & -> & ->).
  revert st s' Hloop.
  apply (iterations_invariant cfg d src fuel H1 n (λ st s,
    ((bestPathCost st, bestPath st) ∈ concat (history s) ∨
     (bestPathCost st = 1000000000%Z ∧ bestPath st = [])) ∧
    ((worsePathCost st, worstPath st) ∈ concat (history s) ∨
     (worsePathCost st = 10%Z ∧ worstPath st = [])))).
  { split; by right. }
  intros st s st' s1 [Hbest Hworst] E.
  apply iteration_inv in E
    as (allPaths & pathCosts & [bC bP] & [wC wP] & _ & _ & _ & _
        & Hhead & Hlast & -> & ->).
  apply sorted_head_min in Hhead as [Hbin _].
  apply sorted_last_max in Hlast as [Hwin _].
  rewrite concat_snoc.
  unfold track_worst, track_best, add_to_avg.
  repeat case_decide; simpl in *; split;
    first
      [ by left; apply elem_of_app; right
      | by destruct Hbest as [?|?]; [left; apply elem_of_app; left|right]
      | by destruct Hworst as [?|?]; [left; apply elem_of_app; left|right] ].
Qed.




(** ** The elitist ants *)

Lemma slice_to_take {A} (z : Z) (l : list A) : ∃ m, slice_to z l = take m l.
Proof. unfold slice_to. case_decide; eauto. Qed.

(** X17.  The elitist indices are different ants of the colony, and no ant
    left out is cheaper than an ant selected. *)
Theorem elitist_index_lowest cfg (pathCosts : list Z) :
  NoDup (elitist_index cfg pathCosts) ∧
  Forall (λ i, i < length pathCosts)%nat (elitist_index cfg pathCosts) ∧
  (∀ i j ci cj,
     i ∈ elitist_index cfg pathCosts →
     j ∉ elitist_index cfg pathCosts →
     pathCosts !! i = Some ci → pathCosts !! j = Some cj → (ci ≤ cj)%Z).
Proof.
  unfold elitist_index.
  set (key := λ i : nat, default 0%Z (pathCosts !! i)).
  set (L := sorted key (seq 0 (length pathCosts))).
  assert (L ≡ₚ seq 0 (length pathCosts)) as Hperm by apply sorted_perm.
  assert (NoDup L) as Hnd by (rewrite Hperm; apply NoDup_seq).
  destruct (slice_to_take
    (py_round (ELITISTFACTOR cfg * Qc_of_Z (Z.of_nat (K cfg)))) L)
    as [m Hm].
  split; [|split].
  - rewrite Hm. rewrite <- (take_drop m L) in Hnd.
    by apply NoDup_app in Hnd as [? _].
  - rewrite Hm. apply Forall_forall. intros i Hi.
    assert (i ∈ L) as HiL.
    { rewrite <- (take_drop m L). apply elem_of_app. by left. }
    rewrite Hperm in HiL. apply elem_of_seq in HiL. lia.
  - rewrite Hm. intros i j ci cj Hi Hj Hci Hcj.
    assert (j ∈ drop m L) as Hjd.
    { assert (j ∈ L) as HjL.
      { rewrite Hperm. apply elem_of_seq. apply lookup_lt_Some in Hcj. lia. }
      rewrite <- (take_drop m L) in HjL.
      apply elem_of_app in HjL as [?|?]; done. }
    pose proof (sorted_sorted key (seq 0 (length pathCosts))) as Hs.
    fold L in Hs. rewrite <- (take_drop m L) in Hs.
    pose proof (strongly_sorted_app _ _ _ i j Hs Hi Hjd) as Hle.
    unfold key in Hle. by rewrite Hci, Hcj in Hle.
Qed.

(** ** Runs that cannot start *)

(** X18.  With an empty colony ([K = 0]) and at least one iteration, the run
    raises [IndexError] at [sorted_pairs[0]] of its first iteration; the
    pheromone matrix has been evaporated once by then. *)
Theorem run_without_ants cfg (d : list (list Z)) src fuel (H1 : matrix) n
    (T0 : matrix) :
  K cfg = 0%nat → (1 ≤ ITER cfg)%nat →
  ant_colony_optimisation cfg d src fuel H1 n (initial_store T0)
    = (Raise IndexError,
       {| T := scale (Fin (1 - RHO cfg)) T0; rng := 0; history := [] |}).
Proof.
  intros HK HITER. unfold ant_colony_optimisation.
  destruct (ITER cfg) as [|iter]; [lia|]. rewrite <- cons_seq.
  simpl for_fold. unfold iteration. rewrite HK.
  by destruct (ELITIST cfg).
Qed.

Lemma run_without_ants_witness :
  ant_colony_optimisation
    {| RHO := Q2Qc (1 # 2); Qh := Qc_of_Z 5; ALPHA := 1; BETA := 3; K := 0;
       ITER := 200; ELITIST := false; ELITISTFACTOR := Q2Qc (1 # 5) |}
    example_unit3 half_source 2 example_H3 3 (initial_store example_T3)
    = (Raise IndexError,
       {| T := scale (Fin (1 - Q2Qc (1 # 2))) example_T3; rng := 0;
          history := [] |}).
Proof.
  apply (run_without_ants
    {| RHO := Q2Qc (1 # 2); Qh := Qc_of_Z 5; ALPHA := 1; BETA := 3; K := 0;
       ITER := 200; ELITIST := false; ELITISTFACTOR := Q2Qc (1 # 5) |}
    example_unit3 half_source 2 example_H3 3 example_T3).
  - done.
  - simpl. lia.
Defined.

(** X19.  On a graph without vertices, with at least one ant and one
    iteration, the run raises [ValueError] at the first
    [random.randint(0, -1)], before anything is changed. *)
Theorem run_without_vertices cfg (d : list (list Z)) src fuel (H1 : matrix)
    (T0 : matrix) :
  (1 ≤ K cfg)%nat → (1 ≤ ITER cfg)%nat →
  ant_colony_optimisation cfg d src fuel H1 0 (initial_store T0)
    = (Raise ValueError, initial_store T0).
Proof.
  intros HK HITER. unfold ant_colony_optimisation.
  destruct (ITER cfg) as [|iter]; [lia|]. rewrite <- cons_seq.
  simpl for_fold. unfold iteration.
  destruct (K cfg) as [|k]; [lia|]. rewrite <- cons_seq. done.
Qed.

Lemma run_without_vertices_witness :
  ant_colony_optimisation source_config [] half_source 0 [] 0
    (initial_store [])
    = (Raise ValueError, initial_store []).
Proof.
  apply (run_without_vertices source_config [] half_source 0 [] []);
    simpl; lia.
Defined.

(** X20.  With no iteration ([ITER = 0]) the run returns the initial values
    of its trackers, a best cost of [1000000000] and a worst cost of [10]
    with empty paths, and an average of [0]; with no ant either it raises
    [ZeroDivisionError] at [avg / K]. *)
Theorem run_without_iterations cfg (d : list (list Z)) src fuel
    (H1 : matrix) n s :
  ITER cfg = 0%nat →
  ant_colony_optimisation cfg d src fuel H1 n s
    = (if decide (K cfg = 0%nat) then Raise ZeroDivisionError
       else Ret (1000000000%Z, [], 10%Z, [], 0%Z), s).
Proof.
  intros HITER. unfold ant_colony_optimisation, average. rewrite HITER.
  simpl. unfold mbind, M_bind, mret, M_ret, lift. simpl.
  by case_decide.
Qed.

Lemma run_without_iterations_witness :
  ant_colony_optimisation
    {| RHO := Q2Qc (1 # 2); Qh := Qc_of_Z 5; ALPHA := 1; BETA := 3; K := 50;
       ITER := 0; ELITIST := false; ELITISTFACTOR := Q2Qc (1 # 5) |}
    example_unit3 half_source 2 example_H3 3 (initial_store example_T3)
    = (Ret (1000000000%Z, [], 10%Z, [], 0%Z), initial_store example_T3).
Proof.
  apply (run_without_iterations
    {| RHO := Q2Qc (1 # 2); Qh := Qc_of_Z 5; ALPHA := 1; BETA := 3; K := 50;
       ITER := 0; ELITIST := false; ELITISTFACTOR := Q2Qc (1 # 5) |}
    example_unit3 half_source 2 example_H3 3 (initial_store example_T3)).
  done.
Defined.

(** ** The diagonal of the pheromone matrix over a run *)

Lemma scale_zero_diagonal (c : Qc) (m : matrix) :
  zero_diagonal m → zero_diagonal (scale (Fin c) m).
Proof.
  intros Hz i x. unfold scale. rewrite mget_fmap.
  destruct (mget m i i) as [y|] eqn:Hy; simpl; [|done].
  intros [= <-]. rewrite (Hz _ _ Hy). unfold fzero. simpl.
  by rewrite Qcmult_0_r.
Qed.

Lemma deposit_loop_zero_diagonal cfg allPaths pathCosts numVertices
    elitistIndex (m : matrix) :
  Forall no_self_loop allPaths → zero_diagonal m →
  zero_diagonal
    (for_range (length allPaths)
       (deposit_ant cfg allPaths pathCosts numVertices elitistIndex) m).2.
Proof.
  intros Hpaths Hz. apply for_range_preserves; [done|].
  intros i m1 _ Hz1. by apply deposit_ant_zero_diagonal.
Qed.

(** X21.  When a run returns and no recorded tour steps from a vertex to
    itself, a pheromone matrix that started with a zero diagonal ends with
    a zero diagonal. *)
Theorem run_keeps_zero_diagonal cfg (d : list (list Z)) src fuel
    (H1 : matrix) n (T0 : matrix) r s' :
  ant_colony_optimisation cfg d src fuel H1 n (initial_store T0)
    = (Ret r, s') →
  zero_diagonal T0 →
  Forall (Forall (λ cp : Z * list nat, no_self_loop cp.2)) (history s') →
  zero_diagonal (T s').
Proof.
  destruct r as [[[[bc bp] wc] wp] a]. intros Hrun Hz.
  apply run_inv in Hrun as (st & Hloop & _). revert st s' Hloop.
  apply (iterations_invariant cfg d src fuel H1 n (λ _ s,
    Forall (Forall (λ cp : Z * list nat, no_self_loop cp.2)) (history s) →
    zero_diagonal (T s))).
  { done. }
  intros st s st' s1 IH E.
  apply iteration_inv in E
    as (allPaths & pathCosts & best & worst & _ & _ & Hcosts & Hupd
        & _ & _ & _ & Hh).
  rewrite Hh. intros [Hold Hnew]%Forall_app.
  rewrite Forall_singleton in Hnew.
  assert (Forall no_self_loop allPaths) as Hloops.
  { apply path_costs_length in Hcosts.
    rewrite <- (snd_zip pathCosts allPaths) by lia.
    by apply Forall_fmap. }
  assert (zero_diagonal
    (update_pheremone cfg allPaths pathCosts n
       (if ELITIST cfg then elitist_index cfg pathCosts else []) (T s)).2)
    as Hz'.
  { unfold update_pheremone. apply bind_preserves.
    - apply scale_zero_diagonal. by apply IH.
    - intros _ m1 _ Hz1. by apply deposit_loop_zero_diagonal. }
  by rewrite Hupd in Hz'.
Qed.

Lemma example_T3_zero_diagonal : zero_diagonal example_T3.
Proof.
  intros [|[|[|i]]] x Hx; unfold mget in Hx; simplify_eq/=;
    unfold fzero; by rewrite Z2Qc_inj_0.
Qed.

Lemma run_keeps_zero_diagonal_witness :
  ∃ r s',
    ant_colony_optimisation small_config example_d3 half_source 2
      example_H3 3 (initial_store example_T3) = (Ret r, s') ∧
    zero_diagonal example_T3 ∧
    Forall (Forall (λ cp : Z * list nat, no_self_loop cp.2)) (history s') ∧
    zero_diagonal (T s').
Proof.
  eexists _, _. split; [by vm_compute|].
  split; [apply example_T3_zero_diagonal|].
  match goal with |- ?A ∧ _ => assert A as Hh end.
  { simpl. repeat constructor;
      intros [|[|[|[|j]]]] u v Hu Hv; simplify_eq/=; done. }
  split; [exact Hh|].
  eapply (run_keeps_zero_diagonal small_config example_d3 half_source 2
            example_H3 3 example_T3);
    [by vm_compute|apply example_T3_zero_diagonal|exact Hh].
Defined.

(** ** The shape of the pheromone matrix *)

Lemma scale_shaped n k (c : float) (m : matrix) :
  shaped n k m → shaped n k (scale c m).
Proof.
  intros [Hlen Hrows]. unfold scale. split; [by rewrite length_fmap|].
  intros i row. rewrite list_lookup_fmap.
  destruct (m !! i) as [row0|] eqn:E; simpl; [|done].
  intros [= <-]. rewrite length_fmap. by eapply Hrows.
Qed.

Lemma madd_shaped n k (m : matrix) u v x :
  shaped n k m → shaped n k (madd u v x m).2.
Proof.
  intros Hsh. unfold madd.
  destruct (m !! u) as [row|] eqn:Hrow; [|done].
  destruct (row !! v) as [old|]; [|done].
  simpl. by eapply shaped_insert.
Qed.

Lemma deposit_shaped n k path j x (m : matrix) :
  shaped n k m → shaped n k (deposit path j x m).2.
Proof.
  intros Hsh. unfold deposit.
  apply lift_bind_preserves; [done|]. intros u _.
  apply lift_bind_preserves; [done|]. intros v _.
  by apply madd_shaped.
Qed.

(** The update keeps the shape of the array, whatever its outcome. *)
Lemma update_pheremone_shaped cfg n k allPaths pathCosts numVertices
    elitistIndex (T0 : matrix) :
  shaped n k T0 →
  shaped n k
    (update_pheremone cfg allPaths pathCosts numVertices elitistIndex T0).2.
Proof.
  intros Hsh. unfold update_pheremone. apply bind_preserves.
  { by apply scale_shaped. }
  intros _ m1 _ Hm1. apply for_range_preserves; [done|].
  intros i m2 _ Hm2. unfold deposit_ant.
  apply lift_bind_preserves; [done|]. intros path _.
  apply lift_bind_preserves; [done|]. intros cost _.
  apply lift_bind_preserves; [done|]. intros delta _.
  apply for_range_preserves; [done|].
  intros j m3 _ Hm3. apply bind_preserves; [by apply deposit_shaped|].
  intros _ m4 _ Hm4.
  destruct (bool_decide (i ∈ elitistIndex) && ELITIST cfg);
    [by apply deposit_shaped|done].
Qed.

(** X6.  On Hamiltonian cycles, each with a cost that is not zero, the
    update of an [n × n] matrix returns and leaves an [n × n] matrix; over
    at least two vertices a zero diagonal stays zero. *)
Theorem update_pheremone_on_tours cfg n allPaths pathCosts elitistIndex
    (T0 : matrix) :
  shaped n n T0 →
  Forall (tour n) allPaths →
  length pathCosts = length allPaths →
  Forall (λ c, c ≠ 0%Z) pathCosts →
  ∃ T', update_pheremone cfg allPaths pathCosts n elitistIndex T0
          = (Ret (), T') ∧
    shaped n n T' ∧
    ((2 ≤ n)%nat → zero_diagonal T0 → zero_diagonal T').
Proof.
  intros HT Hpaths Hlen Hcosts.
  assert (update_defined n allPaths pathCosts T0) as Hdef.
  { intros i path Hpath.
    assert (tour n path) as Htour.
    { rewrite Forall_forall in Hpaths. apply Hpaths.
      by eapply list_elem_of_lookup_2. }
    split.
    - destruct (lookup_lt_is_Some_2 pathCosts i) as [cost Hcost].
      { apply lookup_lt_Some in Hpath. lia. }
      exists cost. split; [done|]. rewrite Forall_forall in Hcosts.
      apply Hcosts. by eapply list_elem_of_lookup_2.
    - intros j Hj.
      destruct (tour_lookup n path j Htour) as (u & Hu & Hun); [lia|].
      destruct (tour_lookup n path (j + 1) Htour) as (v & Hv & Hvn); [lia|].
      exists u, v. split; [done|]. split; [done|].
      by apply (shaped_mget n n). }
  apply (update_pheremone_defined_iff cfg _ _ _ elitistIndex) in Hdef.
  pose proof (update_pheremone_shaped cfg n n allPaths pathCosts n
                elitistIndex T0 HT) as Hsh.
  destruct (update_pheremone cfg allPaths pathCosts n elitistIndex T0)
    as [o T'] eqn:E. simpl in Hdef, Hsh. subst o.
  exists T'. split; [done|]. split; [done|]. intros Hn Hz.
  assert (Forall no_self_loop allPaths) as Hloops.
  { eapply Forall_impl; [done|]. intros path Htour j u v Hu Hv.
    rewrite Nat.add_1_r in Hv. by eapply tour_edge. }
  assert (zero_diagonal
    (update_pheremone cfg allPaths pathCosts n elitistIndex T0).2) as Hz'.
  { unfold update_pheremone. apply bind_preserves.
    - by apply scale_zero_diagonal.
    - intros _ m1 _ Hz1. by apply deposit_loop_zero_diagonal. }
  by rewrite E in Hz'.
Qed.

Lemma update_pheremone_on_tours_witness :
  ∃ T', update_pheremone source_config [[0; 1; 2; 0]%nat] [10%Z] 3 []
          example_T3 = (Ret (), T') ∧
    shaped 3 3 T' ∧
    ((2 ≤ 3)%nat → zero_diagonal example_T3 → zero_diagonal T').
Proof.
  apply (update_pheremone_on_tours source_config 3).
  - apply (proj1 example_T3_good).
  - constructor; [apply tour_3_012|constructor].
  - done.
  - by repeat constructor.
Defined.

(** ** Decoding the document *)

Lemma np_index_lt (size : nat) (j : Z) (j' : nat) :
  np_index size j = Some j' → (j' < size)%nat.
Proof. unfold np_index. repeat case_decide; intros [= <-]; lia. Qed.

Lemma np_index_is_Some (size : nat) (j : Z) :
  is_Some (np_index size j) ↔ (- Z.of_nat size ≤ j < Z.of_nat size)%Z.
Proof.
  unfold np_index. repeat case_decide; split; intros H2;
    try done; try lia; by destruct H2.
Qed.

Lemma shaped_zeros n k : shaped n k (zeros n k).
Proof.
  split; [apply length_replicate|].
  intros i row Hrow. apply lookup_replicate in Hrow as [-> _].
  apply length_replicate.
Qed.

Lemma mget_zeros n k i j :
  (i < n)%nat → (j < k)%nat → mget (zeros n k) i j = Some fzero.
Proof.
  intros Hi Hj. unfold mget, zeros.
  rewrite lookup_replicate_2 by done. simpl.
  by rewrite lookup_replicate_2.
Qed.

Lemma set_cell_inv n (m m' : matrix) i j x :
  shaped n n m → set_cell i j x m = Decoded m' →
  shaped n n m' ∧ (i < n)%nat ∧
  ∃ j', np_index n j = Some j' ∧
    ∀ a b, mget m' a b = if decide (a = i ∧ b = j') then Some x
                         else mget m a b.
Proof.
  intros Hsh. unfold set_cell.
  destruct (m !! i) as [row|] eqn:Hrow; [|by intros [=]].
  rewrite (proj2 Hsh _ _ Hrow).
  destruct (np_index n j) as [j'|] eqn:Hj; [|by intros [=]]. intros [= <-].
  split; [by eapply shaped_insert|]. split.
  - apply lookup_lt_Some in Hrow. by rewrite (proj1 Hsh) in Hrow.
  - exists j'. split; [done|]. intros a b. apply mget_insert; [done|].
    rewrite (proj2 Hsh _ _ Hrow). by eapply np_index_lt.
Qed.

Lemma set_cell_ok n (m : matrix) i j x :
  shaped n n m → (i < n)%nat → is_Some (np_index n j) →
  ∃ m', set_cell i j x m = Decoded m' ∧ shaped n n m'.
Proof.
  intros Hsh Hi [j' Hj]. unfold set_cell.
  destruct (lookup_lt_is_Some_2 m i) as [row Hrow];
    [by rewrite (proj1 Hsh)|].
  rewrite Hrow, (proj2 Hsh _ _ Hrow), Hj. eexists. split; [done|].
  by eapply shaped_insert.
Qed.

Section DecoderProperties.

Context (py_int : string → option Z) (py_float : string → option float).

(** What it takes for an edge to be decoded into an array of [nodes]
    columns: a text that [int] accepts, an index of the axis, and a [cost]
    attribute that [float] accepts. *)
Lemma decode_edges_inv n row : ∀ (es : list element) (m m' : matrix),
  shaped n n m →
  decode_edges py_int py_float row es m = Decoded m' →
  shaped n n m' ∧
  (∀ e, e ∈ es → (row < n)%nat ∧
     ∃ t x, int_of py_int (element_text e) = Decoded t ∧
       float_of py_float (element_get e "cost") = Decoded x ∧
       is_Some (np_index n t)) ∧
  ∀ a b, mget m' a b =
    if decide (a = row)
    then match last_write py_int py_float n es b with
         | Some x => Some x
         | None => mget m a b
         end
    else mget m a b.
Proof.
  induction es as [|e es IH]; intros m m' Hsh; simpl.
  - intros [= <-]. split; [done|]. split.
    + intros e He. by apply elem_of_nil in He.
    + intros a b. by case_decide.
  - unfold decode_edge.
    destruct (int_of py_int (element_text e)) as [t|] eqn:Ht; simpl;
      [|by intros [=]].
    destruct (float_of py_float (element_get e "cost")) as [x|] eqn:Hx;
      simpl; [|by intros [=]].
    destruct (set_cell row t x m) as [m1|] eqn:Hset; simpl; [|by intros [=]].
    intros Hrest.
    destruct (set_cell_inv n m m1 row t x Hsh Hset)
      as (Hsh1 & Hrow & j' & Hj & Hm1).
    destruct (IH m1 m' Hsh1 Hrest) as (Hsh' & Hes & Hm').
    split; [done|]. split.
    + intros e' [->|He']%elem_of_cons; [|by apply Hes].
      split; [done|]. exists t, x. by rewrite Hj.
    + intros a b. rewrite Hm', Hm1.
      case_decide as Ha; [|by rewrite decide_False by (intros [? _]; done)].
      destruct (last_write py_int py_float n es b) as [y|]; [done|].
      rewrite Hj. subst a.
      destruct (decide (b = j')) as [->|Hb].
      * by rewrite !decide_True.
      * rewrite !decide_False; [done|congruence|intros [_ ?]; done].
Qed.

Lemma decode_edges_ok n row : ∀ (es : list element) (m : matrix),
  shaped n n m →
  (∀ e, e ∈ es → (row < n)%nat ∧
     ∃ t x, int_of py_int (element_text e) = Decoded t ∧
       float_of py_float (element_get e "cost") = Decoded x ∧
       is_Some (np_index n t)) →
  ∃ m', decode_edges py_int py_float row es m = Decoded m' ∧ shaped n n m'.
Proof.
  induction es as [|e es IH]; intros m Hsh Hes; simpl.
  - by exists m.
  - destruct (Hes e) as (Hrow & t & x & Ht & Hx & Hj);
      [apply elem_of_cons; by left|].
    unfold decode_edge. rewrite Ht, Hx. simpl.
    destruct (set_cell_ok n m row t x Hsh Hrow Hj) as (m1 & -> & Hsh1).
    simpl. apply IH; [done|].
    intros e' He'. apply Hes. apply elem_of_cons. by right.
Qed.

Lemma decode_vertices_inv n : ∀ (vs : list element) row (m m' : matrix),
  shaped n n m →
  decode_vertices py_int py_float row vs m = Decoded m' →
  shaped n n m' ∧
  (∀ k v e, vs !! k = Some v → e ∈ findall "edge" v →
     (row + k < n)%nat ∧
     ∃ t x, int_of py_int (element_text e) = Decoded t ∧
       float_of py_float (element_get e "cost") = Decoded x ∧
       is_Some (np_index n t)) ∧
  ∀ a b, mget m' a b =
    if decide (row ≤ a)%nat
    then match vs !! (a - row)%nat ≫= λ v,
                 last_write py_int py_float n (findall "edge" v) b with
         | Some x => Some x
         | None => mget m a b
         end
    else mget m a b.
Proof.
  induction vs as [|v vs IH]; intros row m m' Hsh; simpl.
  - intros [= <-]. split; [done|]. split; [done|].
    intros a b. by case_decide.
  - destruct (decode_edges py_int py_float row (findall "edge" v) m)
      as [m1|] eqn:Hedges; simpl; [|by intros [=]].
    intros Hrest.
    destruct (decode_edges_inv n row _ m m1 Hsh Hedges)
      as (Hsh1 & Hes & Hm1).
    destruct (IH (Datatypes.S row) m1 m' Hsh1 Hrest) as (Hsh' & Hvs & Hm').
    split; [done|]. split.
    + intros [|k] v' e Hv' He; simpl in Hv'.
      * injection Hv' as <-. rewrite Nat.add_0_r. by apply Hes.
      * destruct (Hvs k v' e Hv' He) as [Hk Hparse].
        split; [lia|done].
    + intros a b. rewrite Hm', Hm1.
      destruct (decide (row ≤ a)%nat) as [Hle|Hgt].
      * destruct (decide (a = row)) as [->|Hne].
        -- rewrite decide_False by lia. by rewrite Nat.sub_diag.
        -- rewrite decide_True by lia.
           replace (a - row)%nat with (Datatypes.S (a - Datatypes.S row))
             by lia.
           done.
      * rewrite decide_False by lia. by rewrite decide_False by lia.
Qed.

Lemma decode_vertices_ok n : ∀ (vs : list element) row (m : matrix),
  shaped n n m →
  (∀ k v e, vs !! k = Some v → e ∈ findall "edge" v →
     (row + k < n)%nat ∧
     ∃ t x, int_of py_int (element_text e) = Decoded t ∧
       float_of py_float (element_get e "cost") = Decoded x ∧
       is_Some (np_index n t)) →
  ∃ m', decode_vertices py_int py_float row vs m = Decoded m' ∧
    shaped n n m'.
Proof.
  induction vs as [|v vs IH]; intros row m Hsh Hvs; simpl.
  - by exists m.
  - destruct (decode_edges_ok n row (findall "edge" v) m Hsh)
      as (m1 & -> & Hsh1).
    { intros e He. destruct (Hvs 0%nat v e) as [Hrow Hparse]; [done..|].
      split; [lia|done]. }
    simpl. apply IH; [done|].
    intros k v' e Hv' He. destruct (Hvs (Datatypes.S k) v' e) as [Hk Hparse];
      [done..|].
    split; [lia|done].
Qed.

Lemma shaped_astype n k (m : matrix) :
  shaped n k m → shaped n k ((λ row : vector, astype_int <$> row) <$> m).
Proof.
  intros [Hlen Hrows]. split; [by rewrite length_fmap|].
  intros i row. rewrite list_lookup_fmap.
  destruct (m !! i) as [row0|] eqn:E; simpl; [|by intros [=]].
  intros [= <-]. rewrite length_fmap. by eapply Hrows.
Qed.

(** What a successful decoding is made of. *)
Lemma xml_decoder_inv (myroot : element) d nodes :
  xml_decoder py_int py_float myroot = Decoded (d, nodes) →
  ∃ vertex graph (m : matrix),
    find_below_child "graph" "vertex" myroot = Some vertex ∧
    find_below "graph" myroot = Some graph ∧
    nodes = (length (element_children vertex) + 1)%nat ∧
    decode_vertices py_int py_float 0 (element_children graph)
      (zeros nodes nodes) = Decoded m ∧
    d = (λ row : vector, astype_int <$> row) <$> m.
Proof.
  unfold xml_decoder.
  destruct (find_below_child "graph" "vertex" myroot) as [vertex|];
    [|by intros [=]].
  destruct (find_below "graph" myroot) as [graph|]; [|by intros [=]].
  destruct (decode_vertices _ _ _ _ _) as [m|] eqn:Hm; simpl; [|by intros [=]].
  intros [= <- <-]. by exists vertex, graph, m.
Qed.

Lemma xml_decoder_shaped (myroot : element) d nodes :
  xml_decoder py_int py_float myroot = Decoded (d, nodes) →
  shaped nodes nodes d.
Proof.
  intros (vertex & graph & m & Hv & Hg & Hn & Hm & ->)%xml_decoder_inv.
  destruct (decode_vertices_inv nodes _ 0 _ m (shaped_zeros nodes nodes) Hm)
    as (Hsh & _ & _).
  by apply shaped_astype.
Qed.

(** X23.  When the decoder returns, the matrix is square of the dimension
    returned with it, which is at least one; the cell [(i, j)] holds the
    cost of the last edge to [j] that the [i]-th child of the first graph
    element lists, cast to an integer, and [0] when it lists none: the
    diagonal of a graph without self-edges and every missing edge read as
    distance [0]. *)
Theorem xml_decoder_cells (myroot : element) d nodes :
  xml_decoder py_int py_float myroot = Decoded (d, nodes) →
  (1 ≤ nodes)%nat ∧ shaped nodes nodes d ∧
  ∃ graph, find_below "graph" myroot = Some graph ∧
    ∀ i j, (i < nodes)%nat → (j < nodes)%nat →
      mget d i j
        = Some (astype_int (cell_cost py_int py_float nodes graph i j)).
Proof.
  intros (vertex & graph & m & Hv & Hg & Hn & Hm & ->)%xml_decoder_inv.
  destruct (decode_vertices_inv nodes _ 0 _ m (shaped_zeros nodes nodes) Hm)
    as (Hsh & _ & Hcells).
  split; [lia|]. split; [by apply shaped_astype|].
  exists graph. split; [done|]. intros i j Hi Hj.
  rewrite mget_fmap, Hcells. rewrite decide_True by lia.
  rewrite Nat.sub_0_r. unfold cell_cost.
  destruct (element_children graph !! i ≫= _) as [x|]; simpl; [done|].
  by rewrite mget_zeros.
Qed.

(** X24.  [calculate_heuristic] does not fail on what the decoder returns:
    the matrix and the dimension fit. *)
Theorem xml_decoder_then_heuristic cfg (myroot : element) d nodes :
  xml_decoder py_int py_float myroot = Decoded (d, nodes) →
  ∃ H, calculate_heuristic cfg nodes d nodes = Ret H ∧ shaped nodes nodes H.
Proof.
  intros Hdec%xml_decoder_shaped.
  destruct (calculate_heuristic_cells cfg nodes d nodes Hdec)
    as (H & HH & HshH & _).
  by exists H.
Qed.

End DecoderProperties.

Lemma xml_decoder_example :
  xml_decoder example_int example_float example_document
    = Decoded (example_unit3, 3%nat).
Proof. by vm_compute. Qed.

Lemma xml_decoder_cells_witness :
  (1 ≤ 3)%nat ∧ shaped 3 3 example_unit3 ∧
  ∃ graph, find_below "graph" example_document = Some graph ∧
    ∀ i j, (i < 3)%nat → (j < 3)%nat →
      mget example_unit3 i j
        = Some (astype_int (cell_cost example_int example_float 3 graph i j)).
Proof.
  exact (xml_decoder_cells example_int example_float example_document
           example_unit3 3 xml_decoder_example).
Defined.

Lemma xml_decoder_then_heuristic_witness :
  ∃ H, calculate_heuristic source_config 3 example_unit3 3 = Ret H ∧
    shaped 3 3 H.
Proof.
  exact (xml_decoder_then_heuristic example_int example_float source_config
           example_document example_unit3 3 xml_decoder_example).
Defined.

(** X25.  The decoder returns exactly on the documents that have a vertex
    under a graph and whose iterated graph holds only edges with a text
    that [int] accepts and that is a column index (negative ones count
    from the end), a [cost] attribute that [float] accepts, and no edge in
    a child past the dimension the first vertex gives. *)
Theorem xml_decoder_returns_iff (py_int : string → option Z)
    (py_float : string → option float) (myroot : element) :
  (∃ r, xml_decoder py_int py_float myroot = Decoded r) ↔
  decodable py_int py_float myroot.
Proof.
  split.
  - intros [[d nodes] (vertex & graph & m & Hv & Hg & Hn & Hm & _)
             %xml_decoder_inv].
    exists vertex, graph. split; [done|]. split; [done|].
    destruct (decode_vertices_inv py_int py_float nodes _ 0 _ m
                (shaped_zeros nodes nodes) Hm) as (_ & Hvs & _).
    intros k v e Hk He.
    destruct (Hvs k v e Hk He) as (Hlt & t & x & Ht & Hx & Hj).
    split; [lia|]. exists t, x. split; [done|]. split; [done|].
    apply np_index_is_Some in Hj. lia.
  - intros (vertex & graph & Hv & Hg & Hall). unfold xml_decoder.
    rewrite Hv, Hg.
    destruct (decode_vertices_ok py_int py_float
      (length (element_children vertex) + 1) (element_children graph) 0
      (zeros (length (element_children vertex) + 1)
             (length (element_children vertex) + 1)))
      as (m & -> & _); [apply shaped_zeros| |by eexists].
    intros k v e Hk He.
    destruct (Hall k v e Hk He) as (Hle & t & x & Ht & Hx & Hj).
    split; [lia|]. exists t, x. split; [done|]. split; [done|].
    apply np_index_is_Some. lia.
Qed.

(** ** The main block *)

Lemma mget_initial_pheromone (rand : nat → nat → Qc) n i j :
  (i < n)%nat → (j < n)%nat →
  mget (fill_diagonal fzero (np_round (np_random_rand rand n) 4)) i j
    = Some (if decide (i = j) then fzero
            else Fin (py_round_ndigits (rand i j) 4)).
Proof.
  intros Hi Hj. unfold mget, fill_diagonal, np_round, np_random_rand.
  rewrite list_lookup_imap, !list_lookup_fmap, lookup_seq_lt by done.
  simpl. case_decide as Hij.
  - subst j. rewrite list_lookup_insert_eq; [done|].
    by rewrite !length_fmap, length_seq.
  - rewrite list_lookup_insert_ne by done.
    by rewrite !list_lookup_fmap, lookup_seq_lt.
Qed.

Lemma shaped_initial_pheromone (rand : nat → nat → Qc) n :
  shaped n n (fill_diagonal fzero (np_round (np_random_rand rand n) 4)).
Proof.
  unfold fill_diagonal, np_round, np_random_rand. split.
  - by rewrite length_imap, !length_fmap, length_seq.
  - intros i row. rewrite list_lookup_imap, !list_lookup_fmap.
    destruct (seq 0 n !! i) as [i'|]; simpl; [|done].
    intros [= <-]. by rewrite length_insert, !length_fmap, length_seq.
Qed.

(** X26.  The pheromone matrix of the main block is [n × n] with a zero
    diagonal, and each entry off the diagonal is a whole number of
    ten-thousandths between [0] and [1], both included: a draw below
    [0.00005] gives a pheromone of [0.0]. *)
Theorem initial_pheromone_entries (rand : nat → nat → Qc) n :
  valid_rand rand →
  shaped n n (fill_diagonal fzero (np_round (np_random_rand rand n) 4)) ∧
  zero_diagonal (fill_diagonal fzero (np_round (np_random_rand rand n) 4)) ∧
  ∀ i j, (i < n)%nat → (j < n)%nat → i ≠ j →
    ∃ k : Z, (0 ≤ k ≤ 10000)%Z ∧
      mget (fill_diagonal fzero (np_round (np_random_rand rand n) 4)) i j
        = Some (Fin (Qc_of_Z k / Qc_of_Z 10000)) ∧
      (k = 0%Z ↔ rand i j ≤ Q2Qc (1 # 20000)).
Proof.
  intros Hrand. split; [apply shaped_initial_pheromone|]. split.
  - intros i x Hx.
    destruct (mget_shaped n n _ i i x (shaped_initial_pheromone rand n) Hx)
      as [Hi _].
    rewrite mget_initial_pheromone in Hx by done.
    rewrite decide_True in Hx by done. by injection Hx as <-.
  - intros i j Hi Hj Hij. destruct (Hrand i j) as [Hlo Hhi].
    rewrite mget_initial_pheromone by done. rewrite decide_False by done.
    unfold py_round_ndigits. change (10 ^ Z.of_nat 4)%Z with 10000%Z.
    pose proof (py_round_lower (rand i j * Qc_of_Z 10000)) as Hrl.
    pose proof (py_round_upper (rand i j * Qc_of_Z 10000)) as Hru.
    exists (py_round (rand i j * Qc_of_Z 10000)).
    split; [|split; [done|]].
    + split.
      * assert (-1 < py_round (rand i j * Qc_of_Z 10000))%Z; [|lia].
        apply Z2Qc_inj_lt.
        qc_unfold_in Hlo. qc_unfold_in Hrl. qc_unfold_goal.
        change (inject_Z 10000) with 10000%Q in Hrl.
        change (inject_Z (-1)) with (-1)%Q. lra.
      * assert (py_round (rand i j * Qc_of_Z 10000) < 10001)%Z; [|lia].
        apply Z2Qc_inj_lt.
        qc_unfold_in Hhi. qc_unfold_in Hru. qc_unfold_goal.
        change (inject_Z 10000) with 10000%Q in Hru.
        change (inject_Z 10001) with 10001%Q. lra.
    + split.
      * intros Hk. apply Qcnot_lt_le. intros Hgt.
        assert (0 < py_round (rand i j * Qc_of_Z 10000))%Z; [|lia].
        apply py_round_large.
        qc_unfold_in Hgt. qc_unfold_goal.
        change (inject_Z 10000) with 10000%Q. lra.
      * intros Hle.
        destruct (Qclt_le_dec 0 (rand i j * Qc_of_Z 10000)) as [Hpos|Hzero].
        -- apply py_round_small; [done|].
           qc_unfold_in Hle. qc_unfold_goal.
           change (inject_Z 10000) with 10000%Q. lra.
        -- assert (rand i j * Qc_of_Z 10000 = 0) as ->.
           { apply Qcle_antisym; [done|].
             qc_unfold_in Hlo. qc_unfold_goal.
             change (inject_Z 10000) with 10000%Q. lra. }
           by vm_compute.
Qed.

Lemma initial_pheromone_entries_witness :
  shaped 3 3 (fill_diagonal fzero (np_round (np_random_rand half_rand 3) 4)) ∧
  zero_diagonal
    (fill_diagonal fzero (np_round (np_random_rand half_rand 3) 4)) ∧
  ∀ i j, (i < 3)%nat → (j < 3)%nat → i ≠ j →
    ∃ k : Z, (0 ≤ k ≤ 10000)%Z ∧
      mget (fill_diagonal fzero (np_round (np_random_rand half_rand 3) 4))
        i j
        = Some (Fin (Qc_of_Z k / Qc_of_Z 10000)) ∧
      (k = 0%Z ↔ half_rand i j ≤ Q2Qc (1 # 20000)).
Proof.
  apply (initial_pheromone_entries half_rand 3).
  intros i j. split; by vm_compute.
Defined.

Lemma Forall_concat_2 {A} (P : A → Prop) (hs : list (list A)) :
  Forall (Forall P) hs → Forall P (concat hs).
Proof.
  induction 1 as [|c hs Hc _ IH]; simpl; [constructor|].
  apply Forall_app. done.
Qed.

(** X27.  Whatever the program prints as its best and its worst tour is a
    tour of the decoded graph: when the main block returns its results with
    [BETA >= 1] and no draw of [random.random()] equal to [0.0], the
    document was decoded to a distance matrix over [numVertices] vertices,
    and the best path is a Hamiltonian cycle over these vertices whose cost
    on that matrix is the best cost, unless no tour cost less than
    [1000000000] and the pair is [(1000000000, [])]; likewise the worst
    path, with [(10, [])]. *)
Theorem main_results_are_tours cfg (py_int : string → option Z)
    (py_float : string → option float) (rand : nat → nat → Qc) src fuel
    (myroot : element) bc bp wc wp a :
  (1 ≤ BETA cfg)%nat → valid_source src → positive_draws src →
  main cfg py_int py_float rand src fuel myroot
    = Decoded (Ret (bc, bp, wc, wp, a)) →
  ∃ d n, xml_decoder py_int py_float myroot = Decoded (d, n) ∧
    ((bc = 1000000000%Z ∧ bp = []) ∨
     (tour n bp ∧ calculate_path_cost d bp = Ret bc)) ∧
    ((wc = 10%Z ∧ wp = []) ∨
     (tour n wp ∧ calculate_path_cost d wp = Ret wc)).
Proof.
  intros Hbeta Hsrc Hdraws. unfold main.
  destruct (xml_decoder py_int py_float myroot) as [[d n]|e] eqn:Hdec;
    simpl; [|done].
  intros [= Hmain]. exists d, n. split; [done|].
  pose proof (xml_decoder_shaped py_int py_float myroot d n Hdec) as Hd.
  destruct (calculate_heuristic_cells cfg n d n Hd) as (H1 & HH1 & HH & _).
  rewrite HH1 in Hmain. simpl in Hmain.
  set (T0 := fill_diagonal fzero (np_round (np_random_rand rand n) 4)) in *.
  destruct (ant_colony_optimisation cfg d src fuel H1 n (initial_store T0))
    as [o s'] eqn:Hrun. simpl in Hmain. subst o.
  pose proof (run_paths cfg d src fuel H1 n (shaped n n) (tour n) T0
    (bc, bp, wc, wp, a) s' (shaped_initial_pheromone rand n)) as Hpaths.
  assert (∀ cp : Z * list nat, cp ∈ concat (history s') →
            tour n cp.2 ∧ calculate_path_cost d cp.2 = Ret cp.1) as Hall.
  { apply Forall_forall, Forall_concat_2.
    apply Hpaths; [| |done].
    - intros. by apply update_pheremone_shaped.
    - intros s1 s2 path HT1 E.
      exact (ant_tour cfg src n fuel H1 s1 path s2 Hbeta Hsrc Hdraws HT1 HH
               E). }
  destruct (run_extremes cfg d src fuel H1 n (initial_store T0) bc bp wc wp a
              s' eq_refl Hrun) as [Hbest Hworst].
  split.
  - destruct Hbest as [Hin|?]; [right|by left]. by apply (Hall _ Hin).
  - destruct Hworst as [Hin|?]; [right|by left]. by apply (Hall _ Hin).
Qed.

Lemma main_results_are_tours_witness :
  ∃ bc bp wc wp a d n,
    main small_config example_int example_float half_rand half_source 2
      example_document = Decoded (Ret (bc, bp, wc, wp, a)) ∧
    xml_decoder example_int example_float example_document
      = Decoded (d, n) ∧
    ((bc = 1000000000%Z ∧ bp = []) ∨
     (tour n bp ∧ calculate_path_cost d bp = Ret bc)) ∧
    ((wc = 10%Z ∧ wp = []) ∨
     (tour n wp ∧ calculate_path_cost d wp = Ret wc)).
Proof.
  assert (∃ r, main small_config example_int example_float half_rand
                 half_source 2 example_document = Decoded (Ret r))
    as [[[[[bc bp] wc] wp] a] Hmain].
  { eexists. by vm_compute. }
  destruct (main_results_are_tours small_config example_int example_float
              half_rand half_source 2 example_document bc bp wc wp a)
    as (d & n & Hdec & Hres).
  - simpl. lia.
  - apply half_source_valid.
  - apply half_source_positive.
  - exact Hmain.
  - exists bc, bp, wc, wp, a, d, n.
    split; [exact Hmain|]. split; [exact Hdec|exact Hres].
Defined.
